(** * Rune-X recognition pipeline: a shallow embedding and its properties

    The development follows the TypeScript sources of the repository:

    - [lib/ai-processor] (the third document of
      [src/app/api/process/route.ts]): [extractTextWithGemini],
      [postProcessWithAncientChineseModels], [extractTextFromImage],
      [getCharacterMeanings], [matchGlyphs], [generateTranslation],
      [processAncientText];
    - the [POST] handler of [src/app/api/process/route.ts];
    - the batch endpoint ([POST] and [processUpload]).

    JavaScript numbers are IEEE-754 binary64 values, modelled by Rocq's
    primitive floats; JavaScript strings are sequences of UTF-16 code units,
    modelled by lists of integers.  Asynchronous functions are modelled in an
    error-and-state monad whose state is the log of outbound HTTP requests;
    the batch endpoint, whose runs interleave at their [await]s, is modelled
    by command trees executed under an explicit schedule. *)

From Stdlib Require Import String Ascii DecimalString.
From Stdlib Require Import ZArith List Bool Lia PeanoNat Sorted.
From Stdlib Require Import Floats.
Import ListNotations.

Set Warnings "-inexact-float".
Set Implicit Arguments.

(* ================================================================= *)
(** ** JavaScript values used by the sources *)

Module JS.

(** A string is its sequence of UTF-16 code units. *)
Definition codeunit := Z.
Definition jsstring := list codeunit.

(** ASCII literals of the sources. *)
Definition js (s : string) : jsstring :=
  map (fun a => Z.of_N (N_of_ascii a)) (list_ascii_of_string s).

Definition quote : jsstring := [34%Z].

Fixpoint str_eqb (a b : jsstring) : bool :=
  match a, b with
  | [], [] => true
  | x :: a', y :: b' => Z.eqb x y && str_eqb a' b'
  | _, _ => false
  end.

(** Truthiness of a string: only the empty string is falsy. *)
Definition truthy (s : jsstring) : bool :=
  match s with [] => false | _ => true end.

(** A nullable string ([string | null | undefined]). *)
Definition truthy_opt (s : option jsstring) : bool :=
  match s with Some t => truthy t | None => false end.

(** [a || b] on nullable strings. *)
Definition or_opt (a b : option jsstring) : option jsstring :=
  if truthy_opt a then a else b.

(** [a || 'literal']. *)
Definition or_str (a : option jsstring) (d : jsstring) : jsstring :=
  match a with
  | Some t => if truthy t then t else d
  | None => d
  end.

(** The class [\s] of regular expressions, which is also what [trim]
    strips: WhiteSpace and LineTerminator code points. *)
Definition isWhiteSpace (c : codeunit) : bool :=
  ((9 <=? c) && (c <=? 13) || (c =? 32) || (c =? 160) || (c =? 5760)
   || (8192 <=? c) && (c <=? 8202) || (c =? 8232) || (c =? 8233)
   || (c =? 8239) || (c =? 8287) || (c =? 12288) || (c =? 65279))%Z.

(** [s.replace(/\s+/g, '')] *)
Definition stripWhiteSpace (s : jsstring) : jsstring :=
  filter (fun c => negb (isWhiteSpace c)) s.

Fixpoint trimStart (s : jsstring) : jsstring :=
  match s with
  | c :: s' => if isWhiteSpace c then trimStart s' else s
  | [] => []
  end.

Definition trimEnd (s : jsstring) : jsstring := rev (trimStart (rev s)).

Definition trim (s : jsstring) : jsstring := trimEnd (trimStart s).

Definition isHighSurrogate (c : codeunit) : bool := ((55296 <=? c) && (c <=? 56319))%Z.
Definition isLowSurrogate (c : codeunit) : bool := ((56320 <=? c) && (c <=? 57343))%Z.

(** [Array.from(s)]: the string iterator yields code points, so a
    surrogate pair stays together in one element. *)
Fixpoint Array_from (s : jsstring) : list jsstring :=
  match s with
  | [] => []
  | c :: rest =>
      match rest with
      | d :: rest' =>
          if isHighSurrogate c && isLowSurrogate d
          then [c; d] :: Array_from rest'
          else [c] :: Array_from rest
      | [] => [[c]]
      end
  end.

Fixpoint startsWith (prefix s : jsstring) : bool :=
  match prefix, s with
  | [], _ => true
  | p :: prefix', c :: s' => Z.eqb p c && startsWith prefix' s'
  | _ :: _, [] => false
  end.

(** [s.includes(needle)] *)
Fixpoint includes (s needle : jsstring) : bool :=
  startsWith needle s ||
  match s with
  | [] => false
  | _ :: s' => includes s' needle
  end.

(** [s.charCodeAt(0)], [None] standing for [NaN]. *)
Definition charCodeAt0 (s : jsstring) : option codeunit :=
  match s with c :: _ => Some c | [] => None end.

(** [===] on two results of [charCodeAt]: [NaN] equals nothing. *)
Definition code_eqb (a b : option codeunit) : bool :=
  match a, b with
  | Some x, Some y => Z.eqb x y
  | _, _ => false
  end.

(** [s.substring(0, n)] *)
Definition substring0 (n : nat) (s : jsstring) : jsstring := firstn n s.

(** [arr.join('')] *)
Definition join (l : list jsstring) : jsstring := concat l.

(** [arr.join(', ')] *)
Fixpoint join_with (sep : jsstring) (l : list jsstring) : jsstring :=
  match l with
  | [] => []
  | [x] => x
  | x :: l' => x ++ sep ++ join_with sep l'
  end.

(** [Array.from(new Set(arr))]: first occurrences, in insertion order. *)
Fixpoint dedupe_into (seen : list jsstring) (l : list jsstring) : list jsstring :=
  match l with
  | [] => []
  | x :: l' =>
      if existsb (str_eqb x) seen then dedupe_into seen l'
      else x :: dedupe_into (x :: seen) l'
  end.

Definition dedupe (l : list jsstring) : list jsstring := dedupe_into [] l.

(** [arr.slice(i, i + n)] for in-range natural numbers. *)
Definition slice {A} (i n : nat) (l : list A) : list A := firstn n (skipn i l).

(** Template interpolation of an integer, as in [`Status ${response.status}`]. *)
Definition Number_toString (z : Z) : jsstring :=
  js (NilZero.string_of_int (Z.to_int z)).

(** *** Numbers *)

Definition number := float.

(** [Math.max(a, b)] and [Math.min(a, b)]: [NaN] is contagious and
    [-0] is below [+0]. *)
Definition Math_max (a b : number) : number :=
  if PrimFloat.is_nan a || PrimFloat.is_nan b then PrimFloat.nan
  else if PrimFloat.ltb a b then b
  else if PrimFloat.ltb b a then a
  else if PrimFloat.get_sign a then b else a.

Definition Math_min (a b : number) : number :=
  if PrimFloat.is_nan a || PrimFloat.is_nan b then PrimFloat.nan
  else if PrimFloat.ltb a b then a
  else if PrimFloat.ltb b a then b
  else if PrimFloat.get_sign a then a else b.

(** Truthiness of a number: [0], [-0] and [NaN] are falsy. *)
Definition truthy_num (x : number) : bool :=
  negb (PrimFloat.is_zero x || PrimFloat.is_nan x).

(** [x || d] on numbers. *)
Definition or_num (x d : number) : number := if truthy_num x then x else d.

(** [arr.length] as a number. *)
Definition length_num {A} (l : list A) : number :=
  PrimFloat.of_uint63 (Uint63.of_Z (Z.of_nat (length l))).

(** [Object.prototype]'s property names: a lookup [obj[key]] on a plain
    object finds them when [key] is not an own property. *)
Definition object_prototype_names : list jsstring :=
  map js ["constructor"; "__proto__"; "hasOwnProperty"; "isPrototypeOf";
          "propertyIsEnumerable"; "toLocaleString"; "toString"; "valueOf";
          "__defineGetter__"; "__defineSetter__"; "__lookupGetter__";
          "__lookupSetter__"]%string.

Definition inherited (key : jsstring) : bool :=
  existsb (str_eqb key) object_prototype_names.

(** A [Record<string, string>] built by assignments [obj[k] = v]. *)
Definition dict := list (jsstring * jsstring).

Fixpoint dict_get (d : dict) (k : jsstring) : option jsstring :=
  match d with
  | [] => None
  | (k', v) :: d' => if str_eqb k k' then Some v else dict_get d' k
  end.

Fixpoint dict_put (d : dict) (k v : jsstring) : dict :=
  match d with
  | [] => [(k, v)]
  | (k', v') :: d' =>
      if str_eqb k k' then (k', v) :: d' else (k', v') :: dict_put d' k v
  end.

(** [obj[k] = v] with a string [v]: assigning a string to [__proto__]
    goes to the inherited setter, which ignores it. *)
Definition dict_set (d : dict) (k v : jsstring) : dict :=
  if str_eqb k (js "__proto__") then d else dict_put d k v.

End JS.
Import JS.

(* ================================================================= *)
(** ** The persistent store (Prisma models the sources read and write) *)

Module Store.

(** Record identifiers ([cuid()] strings in the sources) are opaque keys. *)
Definition id := nat.

Inductive ProcessingStatus : Type := PENDING | PROCESSING | COMPLETED | FAILED.

Record Upload : Type := mkUpload {
  upload_id : id;
  upload_userId : id;
  upload_filePath : jsstring;
  upload_status : ProcessingStatus;
  upload_scriptType : option jsstring
}.

Record AncientScript : Type := mkScript {
  script_id : id;
  script_name : jsstring
}.

Record Glyph : Type := mkGlyph {
  glyph_id : id;
  glyph_scriptId : id;
  glyph_symbol : jsstring;
  glyph_name : option jsstring;
  glyph_description : option jsstring;
  glyph_confidence : number
}.

Record BoundingBox : Type := mkBox {
  box_x : Z;
  box_y : Z;
  box_width : Z;
  box_height : Z
}.

(** The [boundingBox] column holds [JSON.stringify] of what the caller
    passes: a box in the process route, a bare position in the batch
    endpoint. *)
Inductive StoredBox : Type :=
| StoredBoxObject (b : BoundingBox)
| StoredBoxNumber (n : Z).

Record GlyphMatchRow : Type := mkMatchRow {
  match_id : id;
  match_uploadId : id;
  match_glyphId : id;
  match_confidence : number;
  match_boundingBox : option StoredBox;
  match_position : option Z
}.

Record TranslationRow : Type := mkTranslationRow {
  translation_id : id;
  translation_uploadId : id;
  translation_originalText : jsstring;
  translation_translatedText : jsstring;
  translation_confidence : number
}.

Record ReconstructionResult : Type := mkReconstruction {
  reconstructedGlyph : jsstring;
  reconstruction_confidence : number;
  reconstruction_details : jsstring
}.

Record ReconstructionVersion : Type := mkVersion {
  version_id : id;
  version_uploadId : id;
  versionNumber : Z;
  version_reconstructedGlyphs : list ReconstructionResult;
  version_confidence : number;
  version_method : jsstring
}.

Record DB : Type := mkDB {
  uploads : list Upload;
  ancientScripts : list AncientScript;
  glyphs : list Glyph;
  glyphMatches : list GlyphMatchRow;
  translations : list TranslationRow;
  reconstructionVersions : list ReconstructionVersion;
  nextId : id
}.

Definition status_eqb (a b : ProcessingStatus) : bool :=
  match a, b with
  | PENDING, PENDING | PROCESSING, PROCESSING
  | COMPLETED, COMPLETED | FAILED, FAILED => true
  | _, _ => false
  end.

(** [db.upload.findUnique({ where: { id } })] *)
Definition findUpload (db : DB) (i : id) : option Upload :=
  find (fun u => Nat.eqb (upload_id u) i) (uploads db).

Definition set_uploads (db : DB) (us : list Upload) : DB :=
  mkDB us (ancientScripts db) (glyphs db) (glyphMatches db)
       (translations db) (reconstructionVersions db) (nextId db).

(** [db.upload.update({ where: { id }, data: { status } })] *)
Definition updateUploadStatus (db : DB) (i : id) (s : ProcessingStatus) : DB :=
  set_uploads db
    (map (fun u => if Nat.eqb (upload_id u) i
                   then mkUpload (upload_id u) (upload_userId u)
                          (upload_filePath u) s (upload_scriptType u)
                   else u) (uploads db)).

(** [db.upload.update({ where: { id }, data: { status, processedAt, scriptType } })] *)
Definition updateUploadCompleted (db : DB) (i : id) (st : option jsstring) : DB :=
  set_uploads db
    (map (fun u => if Nat.eqb (upload_id u) i
                   then mkUpload (upload_id u) (upload_userId u)
                          (upload_filePath u) COMPLETED st
                   else u) (uploads db)).

(** The [script] relation loaded by [include: { script: true }]. *)
Definition scriptOf (db : DB) (g : Glyph) : option AncientScript :=
  find (fun s => Nat.eqb (script_id s) (glyph_scriptId g)) (ancientScripts db).

(** [db.reconstructionVersion.count({ where: { uploadId } })] *)
Definition countVersions (db : DB) (i : id) : Z :=
  Z.of_nat (length (filter (fun v => Nat.eqb (version_uploadId v) i)
                           (reconstructionVersions db))).

(** [db.reconstructionVersion.create({ data })] *)
Definition createVersion (db : DB) (i : id) (n : Z)
    (rs : list ReconstructionResult) (c : number) (m : jsstring) : DB :=
  mkDB (uploads db) (ancientScripts db) (glyphs db) (glyphMatches db)
       (translations db)
       (reconstructionVersions db ++ [mkVersion (nextId db) i n rs c m])
       (S (nextId db)).

(** [db.ancientScript.create({ data: { name } })] *)
Definition createScript (db : DB) (name : jsstring) : AncientScript * DB :=
  let s := mkScript (nextId db) name in
  (s, mkDB (uploads db) (ancientScripts db ++ [s]) (glyphs db)
        (glyphMatches db) (translations db) (reconstructionVersions db)
        (S (nextId db))).

(** [db.glyph.create({ data })] *)
Definition createGlyph (db : DB) (scriptId : id) (symbol : jsstring)
    (name description : option jsstring) (c : number) : Glyph * DB :=
  let g := mkGlyph (nextId db) scriptId symbol name description c in
  (g, mkDB (uploads db) (ancientScripts db) (glyphs db ++ [g])
        (glyphMatches db) (translations db) (reconstructionVersions db)
        (S (nextId db))).

(** [db.glyph.update({ where: { id }, data: { description, confidence } })] *)
Definition updateGlyph (db : DB) (i : id) (description : jsstring) (c : number) : DB :=
  mkDB (uploads db) (ancientScripts db)
       (map (fun g => if Nat.eqb (glyph_id g) i
                      then mkGlyph (glyph_id g) (glyph_scriptId g) (glyph_symbol g)
                             (glyph_name g) (Some description) c
                      else g) (glyphs db))
       (glyphMatches db) (translations db) (reconstructionVersions db) (nextId db).

(** [db.glyphMatch.create({ data })] *)
Definition createGlyphMatch (db : DB) (uploadId glyphId : id) (c : number)
    (box : option StoredBox) (position : option Z) : DB :=
  mkDB (uploads db) (ancientScripts db) (glyphs db)
       (glyphMatches db ++ [mkMatchRow (nextId db) uploadId glyphId c box position])
       (translations db) (reconstructionVersions db) (S (nextId db)).

(** [db.translation.create({ data })] *)
Definition createTranslation (db : DB) (uploadId : id) (original translated : jsstring)
    (c : number) : DB :=
  mkDB (uploads db) (ancientScripts db) (glyphs db) (glyphMatches db)
       (translations db ++ [mkTranslationRow (nextId db) uploadId original translated c])
       (reconstructionVersions db) (S (nextId db)).

(** [deleteMany({ where: { uploadId } })] on the two result tables. *)
Definition deletePreviousResults (db : DB) (i : id) : DB :=
  mkDB (uploads db) (ancientScripts db) (glyphs db)
       (filter (fun m => negb (Nat.eqb (match_uploadId m) i)) (glyphMatches db))
       (filter (fun t => negb (Nat.eqb (translation_uploadId t) i)) (translations db))
       (reconstructionVersions db) (nextId db).

End Store.
Import Store.

(* ================================================================= *)
(** ** lib/ai-processor *)

Module Pipeline.

Open Scope float_scope.

(** *** Outbound requests and what the code reads off their responses *)

Record ApiConfig : Type := mkConfig {
  config_version : jsstring;
  config_model : jsstring
}.

(** Every call of [httpsRequest] in the module, identified by its endpoint
    and by the data interpolated into its URL and body. *)
Inductive Request : Type :=
| GeminiOCR (apiKey : jsstring) (config : ApiConfig) (base64Image : jsstring)
| HFVerify (hfToken : option jsstring) (prompt : jsstring)
| GeminiMeanings (apiKey : jsstring) (uniqueChars : list jsstring)
    (maxOutputTokens : Z) (context : option jsstring)
| GeminiBatchMeanings (apiKey : jsstring) (batchText : jsstring)
| GeminiSingleMeaning (apiKey : jsstring) (char : jsstring)
| GeminiTranslate (apiKey : jsstring) (config : ApiConfig) (extractedText : jsstring).

(** The fields the code reads from a parsed JSON body:
    [data.candidates?.[0]?.content?.parts?.[0]?.text],
    [errorData.error?.message] and [errorData.message]. *)
Record JsonBody : Type := mkBody {
  candidateText : option jsstring;
  error_message : option jsstring;
  body_message : option jsstring
}.

(** [response.json()] either rejects (and so does any read of a field of
    a body that is not an object of the expected shape) or gives a body. *)
Inductive Body : Type :=
| BodyThrows (message : jsstring)
| BodyJson (b : JsonBody).

(** [httpsRequest] rejects (connection error, timeout) or resolves. *)
Inductive HttpOutcome : Type :=
| Rejects (message : jsstring)
| Responds (status : Z) (body : Body).

Record Response : Type := mkResponse {
  response_status : Z;
  response_body : Body
}.

(** [ok: res.statusCode >= 200 && res.statusCode < 300] *)
Definition response_ok (r : Response) : bool :=
  ((200 <=? response_status r) && (response_status r <? 300))%Z.

(** A value of a parsed JSON object, as far as [typeof v === 'string']
    tells. *)
Inductive JsonValue : Type :=
| JString (s : jsstring)
| JNotString.

(** What stripping the code fences, matching [/\{[\s\S]*\}/] and
    [JSON.parse] make of a response text. *)
Inductive ParsedMeanings : Type :=
| NoJsonObject
| JsonObject (entries : list (jsstring * JsonValue))
| JsonSyntaxError.

(** The process environment, the file system, the network, and the
    built-ins of the JavaScript runtime that are taken as given. *)
Record Env : Type := mkEnv {
  GOOGLE_GEMINI_API_KEY : option jsstring;
  HUGGINGFACE_API_KEY : option jsstring;
  NODE_ENV : option jsstring;
  ENABLE_OCR_FALLBACK : option jsstring;
  (** [readFile(path)] then [toString('base64')], or the rejection's message *)
  readFile : jsstring -> jsstring + jsstring;
  (** the outcome of the [n]-th outbound request *)
  network : nat -> Request -> HttpOutcome;
  toLowerCase : jsstring -> jsstring;
  parseMeanings : jsstring -> ParsedMeanings;
  (** the two groups of the line-by-line regular expression (a quoted CJK
      character, a colon, a quoted meaning) when [line.match] finds them *)
  matchMeaningLine : jsstring -> option (jsstring * jsstring)
}.

(** *** The monad of asynchronous functions

    A computation reads the log of the requests issued so far, may append
    to it, and either returns or throws an error, of which the code only
    ever reads [message]. *)

Definition Err := jsstring.
Definition Log := list Request.
Definition M (A : Type) : Type := Log -> (Err + A) * Log.

Definition ret {A} (a : A) : M A := fun l => (inr a, l).

Definition throw {A} (e : Err) : M A := fun l => (inl e, l).

Definition bind {A B} (c : M A) (k : A -> M B) : M B :=
  fun l => match c l with
           | (inl e, l') => (inl e, l')
           | (inr a, l') => k a l'
           end.

Definition try_catch {A} (c : M A) (handler : Err -> M A) : M A :=
  fun l => match c l with
           | (inl e, l') => handler e l'
           | (inr a, l') => (inr a, l')
           end.

Notation "x <- c ;; k" := (bind c (fun x => k))
  (at level 61, c at next level, right associativity).

Definition httpsRequest (env : Env) (req : Request) : M Response :=
  fun l => match network env (length l) req with
           | Rejects m => (inl m, l ++ [req])
           | Responds st b => (inr (mkResponse st b), l ++ [req])
           end.

Definition response_json (r : Response) : M JsonBody :=
  match response_body r with
  | BodyThrows m => throw m
  | BodyJson b => ret b
  end.

(** *** Types of the module *)

Inductive OCRMethod : Type :=
| huggingface | tesseract | gemini | fallback | alternative | huggingface_ancient.

Record OCRResult : Type := mkOCR {
  ocr_text : jsstring;
  ocr_confidence : number;
  ocr_method : OCRMethod;
  ocr_error : option jsstring
}.

Record GlyphMatch : Type := mkGlyphMatch {
  gm_symbol : jsstring;
  gm_confidence : number;
  gm_position : Z;
  gm_boundingBox : option BoundingBox;
  gm_meaning : option jsstring
}.

(** A value that is a string, or a member of [Object.prototype] found by a
    property lookup. *)
Inductive JsVal : Type :=
| VString (s : jsstring)
| VInherited (name : jsstring).

Record TranslationResult : Type := mkTranslation {
  translation : JsVal;
  tr_confidence : number
}.

Record ProcessingResult : Type := mkProcessing {
  extractedText : jsstring;
  pr_glyphs : list GlyphMatch;
  scriptType : option jsstring;
  pr_confidence : number;
  pr_method : jsstring
}.

Definition method_name (m : OCRMethod) : jsstring :=
  match m with
  | huggingface => js "huggingface"
  | tesseract => js "tesseract"
  | gemini => js "gemini"
  | fallback => js "fallback"
  | alternative => js "alternative"
  | huggingface_ancient => js "huggingface-ancient"
  end.

(** *** extractTextWithGemini *)

Definition apiConfigs : list ApiConfig :=
  [ mkConfig (js "v1beta") (js "gemini-2.5-flash");
    mkConfig (js "v1") (js "gemini-2.5-flash");
    mkConfig (js "v1beta") (js "gemini-2.5-flash-lite");
    mkConfig (js "v1") (js "gemini-2.5-flash-lite") ].

(** One iteration of the loop over [apiConfigs]: [inl lastError] for
    [continue], [inr result] for [return]. *)
Definition geminiAttempt (env : Env) (apiKey base64Image : jsstring)
    (config : ApiConfig) (lastError : option Err) : M (option Err + OCRResult) :=
  try_catch
    (response <- httpsRequest env (GeminiOCR apiKey config base64Image) ;;
     if (response_status response =? 404)%Z then ret (inl lastError)
     else if (response_status response =? 429)%Z then ret (inl lastError)
     else if negb (response_ok response) then
       let errorDetails := js "Status " ++ Number_toString (response_status response) in
       errorDetails <-
         try_catch
           (errorData <- response_json response ;;
            ret (or_str (error_message errorData)
                   (or_str (body_message errorData) errorDetails)))
           (fun _ => ret errorDetails) ;;
       ret (inl (Some (js "Gemini API error: " ++ errorDetails)))
     else
       data <- response_json response ;;
       let extractedText := or_str (candidateText data) [] in
       if truthy extractedText
       then ret (inr (mkOCR (trim extractedText) 0.90 gemini None))
       else ret (inl lastError))
    (fun error => ret (inl (Some error))).

Fixpoint geminiLoop (env : Env) (apiKey base64Image : jsstring)
    (configs : list ApiConfig) (lastError : option Err) : M OCRResult :=
  match configs with
  | [] =>
      let errorMessage := or_str lastError (js "Unknown Gemini API error") in
      ret (mkOCR [] 0 gemini (Some errorMessage))
  | config :: configs' =>
      r <- geminiAttempt env apiKey base64Image config lastError ;;
      match r with
      | inl lastError' => geminiLoop env apiKey base64Image configs' lastError'
      | inr result => ret result
      end
  end.

Definition extractTextWithGemini (env : Env) (imagePath : jsstring) : M OCRResult :=
  match GOOGLE_GEMINI_API_KEY env with
  | Some apiKey =>
      if truthy apiKey then
        match readFile env imagePath with
        | inl e => throw e
        | inr base64Image => geminiLoop env apiKey base64Image apiConfigs None
        end
      else throw (js "Google Gemini API key not configured")
  | None => throw (js "Google Gemini API key not configured")
  end.

(** *** postProcessWithAncientChineseModels *)

Definition postProcessWithAncientChineseModels (env : Env) (text : jsstring) : M jsstring :=
  if negb (truthy text) then ret text
  else
    let hfToken := HUGGINGFACE_API_KEY env in
    r <- try_catch
           (let prompt := substring0 (Nat.min 50 (length text)) text in
            response <- httpsRequest env
                          (HFVerify (if truthy_opt hfToken then hfToken else None) prompt) ;;
            if response_ok response then
              _data <- response_json response ;;
              ret (Some text)
            else ret None)
           (fun _ => ret None) ;;
    match r with
    | Some t => ret t
    | None => ret text
    end.

(** *** extractTextFromImage *)

Record OCRMethodEntry : Type := mkMethod {
  method_label : jsstring;
  method_fn : jsstring -> M OCRResult
}.

(** The verification step applied to a successful result: lines 787-792. *)
Definition applyPostProcessing (result : OCRResult) (improvedText : jsstring) : OCRResult :=
  if truthy improvedText && negb (str_eqb improvedText (ocr_text result))
  then mkOCR improvedText (Math_min (ocr_confidence result + 0.05) 0.95)
         (ocr_method result) (ocr_error result)
  else result.

Definition allMethodsFailed : OCRResult :=
  mkOCR [] 0 fallback
    (Some (js "All OCR methods failed. Please ensure the image is clear and contains readable text.")).

Fixpoint tryMethods (env : Env) (imagePath : jsstring)
    (methods : list OCRMethodEntry) : M OCRResult :=
  match methods with
  | [] => ret allMethodsFailed
  | method :: methods' =>
      r <- try_catch
             (result <- method_fn method imagePath ;;
              if truthy (ocr_text result) then
                result' <-
                  try_catch
                    (improvedText <- postProcessWithAncientChineseModels env (ocr_text result) ;;
                     ret (applyPostProcessing result improvedText))
                    (fun _ => ret result) ;;
                ret (Some result')
              else ret None)
             (fun _ => ret None) ;;
      match r with
      | Some result => ret result
      | None => tryMethods env imagePath methods'
      end
  end.

Definition ocrMethods (env : Env) : list OCRMethodEntry :=
  if truthy_opt (GOOGLE_GEMINI_API_KEY env)
  then [mkMethod (js "Gemini") (extractTextWithGemini env)]
  else [].

Definition extractTextFromImage (env : Env) (imagePath : jsstring) : M OCRResult :=
  tryMethods env imagePath (ocrMethods env).

(** *** getCharacterMeanings *)

(** [/[一-鿿]/.test(char)] *)
Definition isCJK (c : codeunit) : bool := ((19968 <=? c) && (c <=? 40959))%Z.

Definition uniqueCharsOf (extractedText : jsstring) : list jsstring :=
  filter (existsb isCJK) (dedupe (Array_from (stripWhiteSpace extractedText))).

(** [responseText.split('\n')] *)
Fixpoint split_lines_from (current : jsstring) (s : jsstring) : list jsstring :=
  match s with
  | [] => [rev current]
  | c :: s' =>
      if (c =? 10)%Z then rev current :: split_lines_from [] s'
      else split_lines_from (c :: current) s'
  end.

Definition split_lines (s : jsstring) : list jsstring := split_lines_from [] s.

(** The loop over [Object.entries(parsedMeanings)]. *)
Definition addParsedEntries (meanings : dict) (entries : list (jsstring * JsonValue)) : dict :=
  fold_left
    (fun m entry =>
       match snd entry with
       | JString meaning =>
           if (0 <? length (trim meaning))%nat
           then dict_set m (fst entry) (trim meaning)
           else m
       | JNotString => m
       end)
    entries meanings.

(** The line-by-line extraction of the [catch] branch. *)
Definition addLineMatches (env : Env) (meanings : dict) (responseText : jsstring) : dict :=
  fold_left
    (fun m line =>
       match matchMeaningLine env line with
       | Some (k, v) => dict_set m k (trim v)
       | None => m
       end)
    (split_lines responseText) meanings.

Definition absorbResponseText (env : Env) (meanings : dict) (responseText : jsstring) : dict :=
  match parseMeanings env responseText with
  | NoJsonObject => meanings
  | JsonObject entries => addParsedEntries meanings entries
  | JsonSyntaxError => addLineMatches env meanings responseText
  end.

(** [for (let i = 0; i < uniqueChars.length; i += batchSize)] with
    [uniqueChars.slice(i, i + batchSize)]; the index grows by [batchSize]
    at each turn, so [length uniqueChars] turns are enough. *)
Fixpoint batchesFrom (turns i batchSize : nat) (uniqueChars : list jsstring)
  : list (list jsstring) :=
  match turns with
  | O => []
  | S turns' =>
      if (i <? length uniqueChars)%nat
      then slice i batchSize uniqueChars
             :: batchesFrom turns' (i + batchSize) batchSize uniqueChars
      else []
  end.

Fixpoint meaningsFallbackLoop (env : Env) (apiKey : jsstring)
    (batches : list (list jsstring)) (meanings : dict) : M dict :=
  match batches with
  | [] => ret meanings
  | batch :: batches' =>
      meanings' <-
        try_catch
          (response <- httpsRequest env (GeminiBatchMeanings apiKey (join batch)) ;;
           if response_ok response then
             data <- response_json response ;;
             let responseText := or_str (candidateText data) [] in
             ret (absorbResponseText env meanings responseText)
           else ret meanings)
          (fun _ => ret meanings) ;;
      meaningsFallbackLoop env apiKey batches' meanings'
  end.

Definition getCharacterMeanings (env : Env) (extractedText : jsstring)
    (translationContext : option JsVal) : M dict :=
  let meanings : dict := [] in
  if negb (truthy extractedText) then ret meanings
  else
    let uniqueChars := uniqueCharsOf extractedText in
    if (length uniqueChars =? 0)%nat then ret meanings
    else
      let apiKey := or_str (GOOGLE_GEMINI_API_KEY env) [] in
      meanings <-
        (if truthy apiKey then
           try_catch
             (let estimatedTokens :=
                Z.min (Z.max 800 (Z.of_nat (length uniqueChars) * 60)) 8000 in
              context <-
                match translationContext with
                | None => ret None
                | Some (VString s) =>
                    ret (if truthy s then Some (substring0 500 s) else None)
                | Some (VInherited _) =>
                    throw (js "translationContext.substring is not a function")
                end ;;
              response <- httpsRequest env
                            (GeminiMeanings apiKey uniqueChars estimatedTokens context) ;;
              if response_ok response then
                data <- response_json response ;;
                let responseText := or_str (candidateText data) [] in
                ret (absorbResponseText env meanings responseText)
              else ret meanings)
             (fun _ => ret meanings)
         else ret meanings) ;;
      if (length meanings =? 0)%nat && (0 <? length uniqueChars)%nat && truthy apiKey
      then meaningsFallbackLoop env apiKey
             (batchesFrom (length uniqueChars) 0 20 uniqueChars) meanings
      else ret meanings.

(** *** matchGlyphs *)

(** [/[.,;:!?\-_=+()\[\]{}]/] *)
Definition isPunctuation (c : codeunit) : bool :=
  existsb (Z.eqb c) [46; 44; 59; 58; 33; 63; 45; 95; 61; 43; 40; 41; 91; 93; 123; 125]%Z.

(** The exact [find], then the relaxed one. *)
Definition findMatchedGlyph (env : Env) (dbGlyphs : list Glyph) (char : jsstring)
  : option Glyph :=
  match find (fun g => str_eqb (glyph_symbol g) char) dbGlyphs with
  | Some g => Some g
  | None =>
      if (0 <? length char)%nat then
        find (fun g =>
                code_eqb (charCodeAt0 (glyph_symbol g)) (charCodeAt0 char)
                || str_eqb (glyph_symbol g) char
                || match glyph_name g with
                   | Some name =>
                       truthy name
                       && includes (toLowerCase env name) (toLowerCase env char)
                   | None => false
                   end)
             dbGlyphs
      else None
  end.

(** [matchedGlyph.description || matchedGlyph.name] *)
Definition dbMeaningOf (matchedGlyph : Glyph) : option jsstring :=
  or_opt (glyph_description matchedGlyph) (glyph_name matchedGlyph).

Definition isPlaceholderMeaning (dbMeaning : option jsstring) : bool :=
  match dbMeaning with
  | Some m =>
      negb (truthy m)
      || includes m (js "Character:")
      || includes m (js "Unknown")
      || includes m (js "not available")
  | None => true
  end.

Definition placeBox (i : Z) : BoundingBox := mkBox (i * 60 + 10) 20 50 50.

(** [aiMeanings[char]] when it is truthy.  The keys looked up are single
    code points, which no member of [Object.prototype] is named by. *)
Definition aiMeaningOf (aiMeanings : dict) (char : jsstring) : option jsstring :=
  match dict_get aiMeanings char with
  | Some m => if truthy m then Some m else None
  | None => None
  end.

(** The direct request for one character, in the branch without a match and
    without an AI meaning. *)
Definition singleCharacterLookup (env : Env) (char : jsstring) : M (option jsstring) :=
  let apiKey := or_str (GOOGLE_GEMINI_API_KEY env) [] in
  if truthy apiKey then
    try_catch
      (response <- httpsRequest env (GeminiSingleMeaning apiKey char) ;;
       if response_ok response then
         data <- response_json response ;;
         let responseText := or_str (candidateText data) [] in
         if (0 <? length (trim responseText))%nat
         then ret (Some (trim responseText))
         else ret None
       else ret None)
      (fun _ => ret None)
  else ret None.

(** The body of the loop over [characters]: [None] for [continue]. *)
Definition matchCharacter (env : Env) (aiMeanings : dict) (dbGlyphs : list Glyph)
    (i : Z) (char : jsstring) : M (option GlyphMatch) :=
  if existsb isPunctuation char then ret None
  else
    match findMatchedGlyph env dbGlyphs char with
    | Some matchedGlyph =>
        let dbMeaning := dbMeaningOf matchedGlyph in
        let isPlaceholder := isPlaceholderMeaning dbMeaning in
        let finalMeaning :=
          match aiMeaningOf aiMeanings char with
          | Some m => m
          | None =>
              if truthy_opt dbMeaning && negb isPlaceholder
              then or_str dbMeaning []
              else js "Unknown character (may need to be added to database)"
          end in
        let confidence :=
          match aiMeaningOf aiMeanings char with
          | Some _ => 0.85
          | None =>
              if truthy_opt dbMeaning && negb isPlaceholder
              then Math_max (or_num (glyph_confidence matchedGlyph) 0.75) 0.75
              else 0.60
          end in
        ret (Some (mkGlyphMatch char confidence i (Some (placeBox i)) (Some finalMeaning)))
    | None =>
        match aiMeaningOf aiMeanings char with
        | Some aiMeaning =>
            ret (Some (mkGlyphMatch char 0.85 i (Some (placeBox i)) (Some aiMeaning)))
        | None =>
            fallbackMeaning <- singleCharacterLookup env char ;;
            ret (Some (mkGlyphMatch char
                         (if truthy_opt fallbackMeaning then 0.70 else 0.60)
                         i (Some (placeBox i))
                         (Some (or_str fallbackMeaning
                                  (js "Character recognized but meaning not available")))))
        end
    end.

Fixpoint matchLoop (env : Env) (aiMeanings : dict) (dbGlyphs : list Glyph)
    (i : Z) (characters : list jsstring) : M (list GlyphMatch) :=
  match characters with
  | [] => ret []
  | char :: characters' =>
      g <- matchCharacter env aiMeanings dbGlyphs i char ;;
      glyphs <- matchLoop env aiMeanings dbGlyphs (i + 1) characters' ;;
      ret (match g with
           | Some m => m :: glyphs
           | None => glyphs
           end)
  end.

Definition matchGlyphs (env : Env) (extractedText : jsstring) (db : DB)
    (translationContext : option JsVal) : M (list GlyphMatch) :=
  if negb (truthy extractedText) then ret []
  else
    aiMeanings <- getCharacterMeanings env extractedText translationContext ;;
    let dbGlyphs := glyphs db in
    let characters := Array_from (stripWhiteSpace extractedText) in
    matchLoop env aiMeanings dbGlyphs 0 characters.

(** *** generateTranslation *)

Definition text_dao_fa_zi_ran : jsstring := [36947; 27861; 33258; 28982]%Z.

(** The object literal [commonTranslations]. *)
Definition commonTranslations : dict :=
  [ (text_dao_fa_zi_ran,
     js "The Tao follows nature - A fundamental concept in Taoist philosophy suggesting that the natural way of things is the best way.");
    ([22825; 20154; 21512; 19968]%Z,
     js "Heaven and humanity are one - The unity between the cosmos and human existence.");
    ([36947; 24503; 32463]%Z,
     js "Tao Te Ching - The fundamental text of Taoism attributed to Laozi.");
    ([20161; 20041; 31036; 26234]%Z,
     js "Benevolence, righteousness, propriety, and wisdom - The four cardinal virtues in Confucianism.");
    ([36947; 24503]%Z,
     js "Virtue and morality - Core ethical principles in Chinese philosophy.");
    ([20161; 20041]%Z,
     js "Benevolence and righteousness - Key Confucian virtues.");
    ([26234; 24935]%Z,
     js "Wisdom and intelligence - The pursuit of knowledge and understanding.") ].

(** [commonTranslations[extractedText]]: an own property, else a member of
    [Object.prototype], else [undefined]. *)
Definition lookupCommonTranslation (extractedText : jsstring) : option JsVal :=
  match dict_get commonTranslations extractedText with
  | Some t => Some (VString t)
  | None =>
      if inherited extractedText then Some (VInherited extractedText) else None
  end.

Definition truthy_val (v : option JsVal) : bool :=
  match v with
  | Some (VString s) => truthy s
  | Some (VInherited _) => true
  | None => false
  end.

(** One iteration of the loop over the translation configurations:
    [Some result] for [return], [None] when the loop goes on. *)
Definition translateAttempt (env : Env) (apiKey extractedText : jsstring)
    (config : ApiConfig) : M (option TranslationResult) :=
  try_catch
    (response <- httpsRequest env (GeminiTranslate apiKey config extractedText) ;;
     if response_ok response then
       data <- response_json response ;;
       let translation := or_str (candidateText data) [] in
       if truthy translation
       then ret (Some (mkTranslation (VString (trim translation)) 0.88))
       else ret None
     else if (response_status response =? 404)%Z then ret None
     else ret None)
    (fun _ => ret None).

Definition genericTranslation (extractedText : jsstring) (glyphs : list GlyphMatch)
  : TranslationResult :=
  let avgConfidence :=
    if (0 <? length glyphs)%nat
    then fold_left (fun sum g => sum + gm_confidence g) glyphs 0 / length_num glyphs
    else 0.70 in
  mkTranslation
    (VString
       (js "Translation of " ++ quote ++ extractedText ++ quote
        ++ js " - This ancient text contains cultural and philosophical significance. Individual characters: "
        ++ join_with (js ", ")
             (filter truthy
                (map (fun g => gm_symbol g ++ js " ("
                               ++ or_str (gm_meaning g) (js "unknown") ++ js ")")
                     glyphs))))
    (Math_min avgConfidence 0.85).

(** What follows the loop: the phrase table, then the generic translation. *)
Definition staticTranslation (extractedText : jsstring) (glyphs : list GlyphMatch)
  : TranslationResult :=
  if truthy_val (lookupCommonTranslation extractedText) then
    match lookupCommonTranslation extractedText with
    | Some v => mkTranslation v 0.90
    | None => genericTranslation extractedText glyphs
    end
  else genericTranslation extractedText glyphs.

Fixpoint translateLoop (env : Env) (apiKey extractedText : jsstring)
    (glyphs : list GlyphMatch) (configs : list ApiConfig) : M TranslationResult :=
  match configs with
  | [] => ret (staticTranslation extractedText glyphs)
  | config :: configs' =>
      r <- translateAttempt env apiKey extractedText config ;;
      match r with
      | Some result => ret result
      | None => translateLoop env apiKey extractedText glyphs configs'
      end
  end.

Definition generateTranslation (env : Env) (extractedText : jsstring)
    (glyphs : list GlyphMatch) : M TranslationResult :=
  if negb (truthy extractedText) then
    ret (mkTranslation
           (VString (js "Unable to extract text from image. Please ensure the image is clear and contains readable text."))
           0.0)
  else
    let apiKey := or_str (GOOGLE_GEMINI_API_KEY env) [] in
    if truthy apiKey
    then translateLoop env apiKey extractedText glyphs apiConfigs
    else ret (staticTranslation extractedText glyphs).

(** *** processAncientText *)

Definition opt_str_eqb (a : option jsstring) (b : jsstring) : bool :=
  match a with
  | Some s => str_eqb s b
  | None => false
  end.

(** [NODE_ENV === 'development' && ENABLE_OCR_FALLBACK === 'true'] *)
Definition devFallbackEnabled (env : Env) : bool :=
  opt_str_eqb (NODE_ENV env) (js "development")
  && opt_str_eqb (ENABLE_OCR_FALLBACK env) (js "true").

(** The names added to [scriptTypes], in insertion order. *)
Definition scriptTypesOf (db : DB) (glyphs : list GlyphMatch) : list jsstring :=
  if (0 <? length glyphs)%nat then
    let glyphSymbols := map gm_symbol glyphs in
    let matchedDbGlyphs :=
      filter (fun g => existsb (str_eqb (glyph_symbol g)) glyphSymbols) (Store.glyphs db) in
    dedupe
      (flat_map (fun g => match scriptOf db g with
                          | Some s => [script_name s]
                          | None => []
                          end)
                matchedDbGlyphs)
  else [].

Definition processAncientText (env : Env) (imagePath : jsstring) (db : DB)
  : M ProcessingResult :=
  ocrResult <- extractTextFromImage env imagePath ;;
  if negb (truthy (ocr_text ocrResult)) then
    if devFallbackEnabled env then
      ret (mkProcessing text_dao_fa_zi_ran [] (Some (js "Traditional Chinese"))
             0.50 (js "fallback-dev"))
    else
      let errorMsg := js "Failed to extract text from image." in
      let errorMsg :=
        if truthy_opt (ocr_error ocrResult)
        then errorMsg ++ js " " ++ or_str (ocr_error ocrResult) []
        else errorMsg in
      throw errorMsg
  else
    translation <- generateTranslation env (ocr_text ocrResult) [] ;;
    glyphs <- matchGlyphs env (ocr_text ocrResult) db (Some (Pipeline.translation translation)) ;;
    let scriptTypes := scriptTypesOf db glyphs in
    ret (mkProcessing (ocr_text ocrResult) glyphs
           (Some (or_str (hd_error scriptTypes) (js "Traditional Chinese")))
           (tr_confidence translation)
           (method_name (ocr_method ocrResult))).

End Pipeline.

(* ================================================================= *)
(** ** src/app/api/process/route.ts: the POST handler *)

Module ProcessRoute.

Import Pipeline.

Record Reply : Type := mkReply { reply_status : Z }.

(** [meaning && !meaning.includes('Character:') && ...] *)
Definition meaningIsReal (meaning : option jsstring) : bool :=
  match meaning with
  | Some m =>
      truthy m
      && negb (includes m (js "Character:"))
      && negb (includes m (js "Unknown character"))
      && negb (includes m (js "not available"))
  | None => false
  end.

Definition currentIsPlaceholder (description : option jsstring) : bool :=
  match description with
  | Some d =>
      negb (truthy d) || includes d (js "Character:") || includes d (js "Unknown")
  | None => true
  end.

(** The body of the loop over [processingResult.glyphs]. *)
Definition persistGlyph (uploadId : id) (scriptRecord : AncientScript)
    (db : DB) (glyphMatch : GlyphMatch) : DB :=
  let found :=
    find (fun g => str_eqb (glyph_symbol g) (gm_symbol glyphMatch)
                   && Nat.eqb (glyph_scriptId g) (script_id scriptRecord))
         (glyphs db) in
  let '(glyphRecord, db) :=
    match found with
    | None =>
        let description :=
          if meaningIsReal (gm_meaning glyphMatch) then gm_meaning glyphMatch else None in
        createGlyph db (script_id scriptRecord) (gm_symbol glyphMatch)
          (Some (gm_symbol glyphMatch))
          (Some (or_str description (js "Character: " ++ gm_symbol glyphMatch)))
          (gm_confidence glyphMatch)
    | Some glyphRecord =>
        let hasValidMeaning := meaningIsReal (gm_meaning glyphMatch) in
        if hasValidMeaning && currentIsPlaceholder (glyph_description glyphRecord)
        then (glyphRecord,
              updateGlyph db (glyph_id glyphRecord) (or_str (gm_meaning glyphMatch) [])
                (Math_max (or_num (glyph_confidence glyphRecord) 0)
                          (gm_confidence glyphMatch)))
        else (glyphRecord, db)
    end in
  createGlyphMatch db uploadId (glyph_id glyphRecord) (gm_confidence glyphMatch)
    (option_map StoredBoxObject (gm_boundingBox glyphMatch))
    (Some (gm_position glyphMatch)).

(** [POST]: the request body carries [uploadId].  The outer [catch] reads
    the request body a second time, which fails, so it leaves the store as
    it is and answers 500. *)
Definition POST (env : Env) (uploadId : option id) (db : DB) (log : Log)
  : (Reply * DB) * Log :=
  match uploadId with
  | None => ((mkReply 400, db), log)
  | Some uploadId =>
      match findUpload db uploadId with
      | None => ((mkReply 404, db), log)
      | Some upload =>
          let db := updateUploadStatus db uploadId PROCESSING in
          let db := deletePreviousResults db uploadId in
          match processAncientText env (upload_filePath upload) db log with
          | (inl _, log) =>
              ((mkReply 500, updateUploadStatus db uploadId FAILED), log)
          | (inr processingResult, log) =>
              let name := or_str (scriptType processingResult) (js "Traditional Chinese") in
              let '(scriptRecord, db) :=
                match find (fun s => str_eqb (script_name s) name) (ancientScripts db) with
                | Some s => (s, db)
                | None => createScript db name
                end in
              let db := fold_left (persistGlyph uploadId scriptRecord)
                          (pr_glyphs processingResult) db in
              match generateTranslation env (extractedText processingResult)
                      (pr_glyphs processingResult) log with
              | (inl _, log) => ((mkReply 500, db), log)
              | (inr translationResult, log) =>
                  match translation translationResult with
                  | VString translatedText =>
                      let db := createTranslation db uploadId
                                  (extractedText processingResult) translatedText
                                  (tr_confidence translationResult) in
                      let db := updateUploadStatus db uploadId COMPLETED in
                      ((mkReply 200, db), log)
                  | VInherited _ =>
                      (* [translatedText] must be a string: the create call rejects *)
                      ((mkReply 500, db), log)
                  end
              end
          end
      end
  end.

(** The persisted status of an upload. *)
Definition statusOf (db : DB) (uploadId : id) : option ProcessingStatus :=
  option_map upload_status (findUpload db uploadId).

End ProcessRoute.

(* ================================================================= *)
(** ** The batch endpoint: POST and processUpload *)

Module Batch.

Import Pipeline.

Open Scope float_scope.

(** What [needsReconstruction] and [batchReconstructGlyphs] are given. *)
Record Candidate : Type := mkCandidate {
  candidate_symbol : jsstring;
  candidate_confidence : number;
  candidate_boundingBox : option StoredBox
}.

(** The awaited calls of [processUpload]: the store's operations and the
    two imported asynchronous functions. *)
Inductive Cmd : Type -> Type :=
| FindUploadWithGlyphs (uploadId : id)
    : Cmd (option (Upload * list (GlyphMatchRow * Glyph)))
| UpdateStatus (uploadId : id) (s : ProcessingStatus) : Cmd unit
| UpdateCompleted (uploadId : id) (scriptType : option jsstring) : Cmd unit
| ProcessAncientText (filePath : jsstring) : Cmd ProcessingResult
| FindGlyphBySymbol (symbol : jsstring) : Cmd (option Glyph)
| FindScriptByName (name : jsstring) : Cmd (option AncientScript)
| CreateScript (name : jsstring) : Cmd AncientScript
| CreateGlyph (scriptId : id) (symbol : jsstring) (description : option jsstring)
    (confidence : number) : Cmd Glyph
| CreateGlyphMatch (uploadId glyphId : id) (confidence : number)
    (boundingBox : option StoredBox) (position : option Z) : Cmd unit
| BatchReconstructGlyphs (filePath : jsstring) (candidates : list Candidate)
    (scriptType : option jsstring) : Cmd (list ReconstructionResult)
| CountVersions (uploadId : id) : Cmd Z
| CreateVersion (uploadId : id) (versionNumber : Z)
    (reconstructedGlyphs : list ReconstructionResult) (confidence : number)
    (method : jsstring) : Cmd unit.

(** An asynchronous function as the tree of its awaited calls: each call
    resolves to a value or rejects, and the function goes on from there. *)
Inductive Prog (A : Type) : Type :=
| Ret (a : A)
| Throw (e : Err)
| Await (X : Type) (c : Cmd X) (k : Err + X -> Prog A).

Arguments Ret {A} a.
Arguments Throw {A} e.
Arguments Await {A X} c k.

Fixpoint pbind {A B} (p : Prog A) (f : A -> Prog B) : Prog B :=
  match p with
  | Ret a => f a
  | Throw e => Throw e
  | Await c k => Await c (fun r => pbind (k r) f)
  end.

Fixpoint ptry {A} (p : Prog A) (handler : Err -> Prog A) : Prog A :=
  match p with
  | Ret a => Ret a
  | Throw e => handler e
  | Await c k => Await c (fun r => ptry (k r) handler)
  end.

(** [await c]: a rejection is thrown where the call is awaited. *)
Definition call {X} (c : Cmd X) : Prog X :=
  Await c (fun r => match r with
                    | inl e => Throw e
                    | inr x => Ret x
                    end).

Notation "x <~ c ;; k" := (pbind c (fun x => k))
  (at level 61, c at next level, right associativity).

(** *** processUpload *)

Inductive EntryStatus : Type := success | failed.

Record BatchEntry : Type := mkEntry {
  entry_uploadId : id;
  entry_status : EntryStatus;
  entry_error : option jsstring;
  entry_glyphsProcessed : option Z;
  entry_reconstructions : option Z
}.

(** [@/lib/grm] is imported, not defined, by the endpoint: its policy
    function is a parameter of the model. *)
Record Grm : Type := mkGrm {
  needsReconstruction : Candidate -> bool
}.

(** [rs.reduce((sum, r) => sum + r.confidence, 0) / rs.length] *)
Definition reconstructionConfidence (rs : list ReconstructionResult) : number :=
  fold_left (fun sum r => sum + reconstruction_confidence r) rs 0 / length_num rs.

Definition emptyBox : StoredBox := StoredBoxObject (mkBox 0 0 0 0).

(** The loop that saves the glyphs of a result; [glyphsProcessed] counts
    the turns. *)
Fixpoint saveGlyphs (uploadId : id) (scriptType : option jsstring)
    (glyphs : list GlyphMatch) (glyphsProcessed : Z) : Prog Z :=
  match glyphs with
  | [] => Ret glyphsProcessed
  | glyph :: glyphs' =>
      found <~ call (FindGlyphBySymbol (gm_symbol glyph)) ;;
      dbGlyph <~
        match found with
        | Some g => Ret g
        | None =>
            existing <~ call (FindScriptByName (or_str scriptType (js "Unknown"))) ;;
            script <~
              match existing with
              | Some s => Ret s
              | None => call (CreateScript (or_str scriptType (js "Unknown")))
              end ;;
            call (CreateGlyph (script_id script) (gm_symbol glyph) (gm_meaning glyph)
                    (gm_confidence glyph))
        end ;;
      _ <~ call (CreateGlyphMatch uploadId (glyph_id dbGlyph) (gm_confidence glyph)
                   (Some (StoredBoxNumber (gm_position glyph)))
                   (Some glyphsProcessed)) ;;
      saveGlyphs uploadId scriptType glyphs' (glyphsProcessed + 1)
  end.

Definition processUpload (grm : Grm) (uploadId : id) (enableReconstruction : bool)
  : Prog BatchEntry :=
  found <~ call (FindUploadWithGlyphs uploadId) ;;
  match found with
  | None => Throw (js "Upload not found")
  | Some (upload, uploadGlyphs) =>
      if status_eqb (upload_status upload) COMPLETED then
        let candidates :=
          filter (fun g => needsReconstruction grm
                             (mkCandidate (glyph_symbol (snd g))
                                (match_confidence (fst g))
                                (match_boundingBox (fst g))))
                 uploadGlyphs in
        if enableReconstruction && (0 <? length candidates)%nat then
          reconstructionResults <~
            call (BatchReconstructGlyphs (upload_filePath upload)
                    (map (fun g => mkCandidate (glyph_symbol (snd g))
                                     (match_confidence (fst g))
                                     (Some match match_boundingBox (fst g) with
                                           | Some b => b
                                           | None => emptyBox
                                           end))
                         candidates)
                    (upload_scriptType upload)) ;;
          count <~ call (CountVersions (upload_id upload)) ;;
          let versionNumber := (count + 1)%Z in
          _ <~ call (CreateVersion (upload_id upload) versionNumber
                       reconstructionResults
                       (reconstructionConfidence reconstructionResults)
                       (js "gemini-grm")) ;;
          Ret (mkEntry uploadId success None
                 (Some (Z.of_nat (length uploadGlyphs)))
                 (Some (Z.of_nat (length reconstructionResults))))
        else
          Ret (mkEntry uploadId success None
                 (Some (Z.of_nat (length uploadGlyphs))) (Some 0%Z))
      else
        _ <~ call (UpdateStatus uploadId PROCESSING) ;;
        ptry
          (result <~ call (ProcessAncientText (upload_filePath upload)) ;;
           _ <~ call (UpdateCompleted uploadId (scriptType result)) ;;
           glyphsProcessed <~ saveGlyphs (upload_id upload) (scriptType result)
                                (pr_glyphs result) 0%Z ;;
           (* [result.translation] is not a field of a ProcessingResult: nothing is saved *)
           reconstructions <~
             (let candidates :=
                filter (fun g => needsReconstruction grm
                                   (mkCandidate (gm_symbol g) (gm_confidence g)
                                      (Some (StoredBoxNumber (gm_position g)))))
                       (pr_glyphs result) in
              if enableReconstruction && (0 <? length candidates)%nat then
                reconstructionResults <~
                  call (BatchReconstructGlyphs (upload_filePath upload)
                          (map (fun g => mkCandidate (gm_symbol g) (gm_confidence g)
                                           (Some (StoredBoxNumber (gm_position g))))
                               candidates)
                          (scriptType result)) ;;
                _ <~ call (CreateVersion (upload_id upload) 1%Z
                             reconstructionResults
                             (reconstructionConfidence reconstructionResults)
                             (js "gemini-grm")) ;;
                Ret (Z.of_nat (length reconstructionResults))
              else Ret 0%Z) ;;
           Ret (mkEntry uploadId success None (Some glyphsProcessed)
                  (Some reconstructions)))
          (fun error =>
             _ <~ call (UpdateStatus uploadId FAILED) ;;
             Throw error)
  end.

(** *** Executing the awaited calls *)

(** How the two imported asynchronous functions settle at their [n]-th
    call: they run external services, so any outcome is possible. *)
Record Oracle : Type := mkOracle {
  processAncientText_outcome : nat -> jsstring -> Err + ProcessingResult;
  batchReconstructGlyphs_outcome :
    nat -> jsstring -> list Candidate -> option jsstring
    -> Err + list ReconstructionResult
}.

Record World : Type := mkWorld {
  world_db : DB;
  world_calls : nat
}.

(** [include: { glyphs: { include: { glyph: true } } }] *)
Definition uploadGlyphsOf (db : DB) (uploadId : id) : list (GlyphMatchRow * Glyph) :=
  flat_map (fun m => match find (fun g => Nat.eqb (glyph_id g) (match_glyphId m))
                                (glyphs db) with
                     | Some g => [(m, g)]
                     | None => []
                     end)
           (filter (fun m => Nat.eqb (match_uploadId m) uploadId) (glyphMatches db)).

Definition handle (oracle : Oracle) {X} (c : Cmd X) (w : World) : (Err + X) * World :=
  let db := world_db w in
  let n := world_calls w in
  match c in Cmd X return (Err + X) * World with
  | FindUploadWithGlyphs uploadId =>
      (inr (option_map (fun u => (u, uploadGlyphsOf db uploadId)) (findUpload db uploadId)), w)
  | UpdateStatus uploadId s =>
      (inr tt, mkWorld (updateUploadStatus db uploadId s) n)
  | UpdateCompleted uploadId st =>
      (inr tt, mkWorld (updateUploadCompleted db uploadId st) n)
  | ProcessAncientText filePath =>
      (processAncientText_outcome oracle n filePath, mkWorld db (S n))
  | FindGlyphBySymbol symbol =>
      (inr (find (fun g => str_eqb (glyph_symbol g) symbol) (glyphs db)), w)
  | FindScriptByName name =>
      (inr (find (fun s => str_eqb (script_name s) name) (ancientScripts db)), w)
  | CreateScript name =>
      let '(s, db') := createScript db name in (inr s, mkWorld db' n)
  | CreateGlyph scriptId symbol description confidence =>
      let '(g, db') := createGlyph db scriptId symbol None description confidence in
      (inr g, mkWorld db' n)
  | CreateGlyphMatch uploadId glyphId confidence box position =>
      (inr tt, mkWorld (createGlyphMatch db uploadId glyphId confidence box position) n)
  | BatchReconstructGlyphs filePath candidates st =>
      (batchReconstructGlyphs_outcome oracle n filePath candidates st, mkWorld db (S n))
  | CountVersions uploadId =>
      (inr (countVersions db uploadId), w)
  | CreateVersion uploadId versionNumber rs confidence method =>
      (inr tt, mkWorld (createVersion db uploadId versionNumber rs confidence method) n)
  end.

(** How a promise settles. *)
Inductive Settled (A : Type) : Type :=
| Fulfilled (a : A)
| Rejected (e : Err).

Arguments Fulfilled {A} a.
Arguments Rejected {A} e.

(** An asynchronous function run on its own, to its end. *)
Fixpoint runToEnd (oracle : Oracle) {A} (p : Prog A) (w : World) : Settled A * World :=
  match p with
  | Ret a => (Fulfilled a, w)
  | Throw e => (Rejected e, w)
  | Await c k => let '(r, w') := handle oracle c w in runToEnd oracle (k r) w'
  end.

(** One awaited call of a pending function. *)
Definition stepTask (oracle : Oracle) {A} (p : Prog A) (w : World) : Prog A * World :=
  match p with
  | Await c k => let '(r, w') := handle oracle c w in (k r, w')
  | _ => (p, w)
  end.

Fixpoint replaceAt {A} (i : nat) (x : A) (l : list A) : list A :=
  match l, i with
  | [], _ => []
  | _ :: l', O => x :: l'
  | y :: l', S i' => y :: replaceAt i' x l'
  end.

(** The pending functions of one [Promise.allSettled] advance in the order
    the schedule names them, one awaited call at a time. *)
Fixpoint interleave (oracle : Oracle) {A} (schedule : list nat)
    (tasks : list (Prog A)) (w : World) : list (Prog A) * World :=
  match schedule with
  | [] => (tasks, w)
  | i :: schedule' =>
      match nth_error tasks i with
      | Some p =>
          let '(p', w') := stepTask oracle p w in
          interleave oracle schedule' (replaceAt i p' tasks) w'
      | None => interleave oracle schedule' tasks w
      end
  end.

Fixpoint finishAll (oracle : Oracle) {A} (tasks : list (Prog A)) (w : World)
  : list (Settled A) * World :=
  match tasks with
  | [] => ([], w)
  | p :: tasks' =>
      let '(s, w') := runToEnd oracle p w in
      let '(ss, w'') := finishAll oracle tasks' w' in
      (s :: ss, w'')
  end.

(** [Promise.allSettled(tasks)]: the calls interleave as the schedule says;
    what it leaves pending runs to its end.  One result per task, in the
    order of the tasks. *)
Definition allSettled (oracle : Oracle) {A} (schedule : list nat)
    (tasks : list (Prog A)) (w : World) : list (Settled A) * World :=
  let '(tasks', w') := interleave oracle schedule tasks w in
  finishAll oracle tasks' w'.

(** *** POST *)

(** [arr.slice(start, end)] *)
Definition js_slice {A} (start end_ : Z) (l : list A) : list A :=
  let len := Z.of_nat (length l) in
  let k := if (start <? 0)%Z then Z.max (len + start) 0 else Z.min start len in
  let final := if (end_ <? 0)%Z then Z.max (len + end_) 0 else Z.min end_ len in
  firstn (Z.to_nat (Z.max (final - k) 0)) (skipn (Z.to_nat k) l).

(** [for (let i = 0; i < uploads.length; i += maxConcurrent)
       batches.push(uploads.slice(i, i + maxConcurrent).map(u => u.id))];
    [None] when the loop is still running after [turns] turns. *)
Fixpoint makeBatches (turns : nat) (i maxConcurrent : Z) (uploads : list Upload)
  : option (list (list id)) :=
  if (i <? Z.of_nat (length uploads))%Z then
    match turns with
    | O => None
    | S turns' =>
        match makeBatches turns' (i + maxConcurrent) maxConcurrent uploads with
        | Some batches =>
            Some (map upload_id (js_slice i (i + maxConcurrent) uploads) :: batches)
        | None => None
        end
    end
  else Some [].

(** [results.push] after a settled promise of a batch. *)
Definition entryOfSettled (uploadId : id) (result : Settled BatchEntry) : BatchEntry :=
  match result with
  | Fulfilled value => value
  | Rejected reason =>
      mkEntry uploadId failed (Some (or_str (Some reason) (js "Unknown error"))) None None
  end.

(** [results.push] in the sequential loop. *)
Definition entryOfAttempt (uploadId : id) (result : Settled BatchEntry) : BatchEntry :=
  match result with
  | Fulfilled value => value
  | Rejected error =>
      mkEntry uploadId failed (Some (or_str (Some error) (js "Processing failed"))) None None
  end.

(** The state of the handler while it processes: [results], and next to
    it how each run settled, in the same order. *)
Record Progress : Type := mkProgress {
  results : list BatchEntry;
  settled : list (Settled BatchEntry);
  world : World
}.

Fixpoint runBatches (grm : Grm) (oracle : Oracle) (enableReconstruction : bool)
    (schedules : list (list nat)) (batches : list (list id)) (st : Progress) : Progress :=
  match batches with
  | [] => st
  | batch :: batches' =>
      let '(batchResults, w) :=
        allSettled oracle (hd [] schedules)
          (map (fun uploadId => processUpload grm uploadId enableReconstruction) batch)
          (world st) in
      runBatches grm oracle enableReconstruction (tl schedules) batches'
        (mkProgress
           (results st ++ map (fun ir => entryOfSettled (fst ir) (snd ir))
                              (combine batch batchResults))
           (settled st ++ batchResults)
           w)
  end.

Fixpoint runSequential (grm : Grm) (oracle : Oracle) (enableReconstruction : bool)
    (uploads : list Upload) (st : Progress) : Progress :=
  match uploads with
  | [] => st
  | upload :: uploads' =>
      let '(result, w) :=
        runToEnd oracle (processUpload grm (upload_id upload) enableReconstruction)
          (world st) in
      runSequential grm oracle enableReconstruction uploads'
        (mkProgress (results st ++ [entryOfAttempt (upload_id upload) result])
                    (settled st ++ [result]) w)
  end.

Record BatchRequest : Type := mkRequest {
  session_userId : option id;
  uploadIds : option (list id);
  parallel : bool;
  enableReconstruction : bool;
  (** a whole number, as the handler's arithmetic on it supposes *)
  maxConcurrent : Z
}.

(** The reply, and next to it (not part of the JSON) how each run
    settled. *)
Record BatchReply : Type := mkBatchReply {
  http_status : Z;
  processed : nat;
  failed_count : nat;
  reply_results : list BatchEntry;
  reply_settled : list (Settled BatchEntry)
}.

Definition isSuccess (r : BatchEntry) : bool :=
  match entry_status r with success => true | failed => false end.

Definition isFailed (r : BatchEntry) : bool :=
  match entry_status r with success => false | failed => true end.

(** [db.upload.findMany({ where: { id: { in: uploadIds }, userId } })] *)
Definition ownedUploads (db : DB) (ids : list id) (userId : id) : list Upload :=
  filter (fun u => existsb (Nat.eqb (upload_id u)) ids && Nat.eqb (upload_userId u) userId)
         (uploads db).

(** [POST]; [None] when the loop that builds the batches has not ended
    after [turns] turns. *)
Definition POST (grm : Grm) (oracle : Oracle) (schedules : list (list nat))
    (turns : nat) (req : BatchRequest) (w : World) : option (BatchReply * World) :=
  match session_userId req with
  | None => Some (mkBatchReply 401 0 0 [] [], w)
  | Some userId =>
      match uploadIds req with
      | None | Some [] => Some (mkBatchReply 400 0 0 [] [], w)
      | Some ids =>
          let uploads := ownedUploads (world_db w) ids userId in
          if (length uploads =? 0)%nat then Some (mkBatchReply 404 0 0 [] [], w)
          else
            let start := mkProgress [] [] w in
            let finished :=
              if parallel req then
                match makeBatches turns 0 (maxConcurrent req) uploads with
                | Some batches =>
                    Some (runBatches grm oracle (enableReconstruction req)
                            schedules batches start)
                | None => None
                end
              else
                Some (runSequential grm oracle (enableReconstruction req) uploads start)
            in
            match finished with
            | Some st =>
                Some (mkBatchReply 200
                        (length (filter isSuccess (results st)))
                        (length (filter isFailed (results st)))
                        (results st) (settled st),
                      world st)
            | None => None
            end
      end
  end.

End Batch.

(* ================================================================= *)
(** ** The specification's notions *)

Module Spec.

Import Pipeline.

Open Scope float_scope.

(** An asynchronous function that returns, whatever the log. *)
Definition returns {A} (c : M A) : Prop :=
  forall l, exists a l', c l = (inr a, l').

(** A character the matcher emits a match for: not in the exclusion set
    (white space is gone before the loop). *)
Definition qualifying (char : jsstring) : bool := negb (existsb isPunctuation char).

(** The store holds a non-placeholder meaning for the matched glyph. *)
Definition hasStoredMeaning (g : Glyph) : bool :=
  truthy_opt (dbMeaningOf g) && negb (isPlaceholderMeaning (dbMeaningOf g)).

(** The tiered rule of the specification: 0.85 with a fresh AI meaning;
    else max(stored confidence, 0.75) for a store entry with a
    non-placeholder meaning; else 0.70 for a character absent from the store
    whose last-resort lookup succeeded; else 0.60. *)
Definition tiered_confidence (aiMeaning : option jsstring) (stored : option Glyph)
    (lastResort : option jsstring) : number :=
  match aiMeaning, stored, lastResort with
  | Some _, _, _ => 0.85
  | None, Some g, _ => if hasStoredMeaning g then Math_max (glyph_confidence g) 0.75 else 0.60
  | None, None, Some _ => 0.70
  | None, None, None => 0.60
  end.

(** The text a configuration yields: the candidate text of a successful
    response, when it is not empty. *)
Definition yieldsText (o : HttpOutcome) : option jsstring :=
  match o with
  | Rejects _ => None
  | Responds st body =>
      if ((st =? 404) || (st =? 429))%Z then None
      else if response_ok (mkResponse st body) then
        match body with
        | BodyJson b =>
            if truthy (or_str (candidateText b) []) then Some (or_str (candidateText b) [])
            else None
        | BodyThrows _ => None
        end
      else None
  end.

(** The error a failed configuration leaves behind, if any: a rejection,
    an application-level error response, an unreadable body.  Not-found,
    rate-limited and empty-text responses leave none. *)
Definition capturedError (o : HttpOutcome) : option Err :=
  match o with
  | Rejects m => Some m
  | Responds st body =>
      if ((st =? 404) || (st =? 429))%Z then None
      else if response_ok (mkResponse st body) then
        match body with
        | BodyJson _ => None
        | BodyThrows m => Some m
        end
      else
        Some (js "Gemini API error: "
              ++ match body with
                 | BodyJson b =>
                     or_str (error_message b)
                       (or_str (body_message b) (js "Status " ++ Number_toString st))
                 | BodyThrows _ => js "Status " ++ Number_toString st
                 end)
  end.

(** The last error once one more outcome is in. *)
Definition nextError (lastError : option Err) (o : HttpOutcome) : option Err :=
  match capturedError o with
  | Some e => Some e
  | None => lastError
  end.

Definition lastCaptured (outcomes : list HttpOutcome) : option Err :=
  fold_left nextError outcomes None.

(** The OCR requests, one per configuration, in order. *)
Definition ocrRequestsOf (apiKey base64Image : jsstring) (configs : list ApiConfig)
  : list Request :=
  map (fun config => GeminiOCR apiKey config base64Image) configs.

Definition ocrRequests (apiKey base64Image : jsstring) : list Request :=
  ocrRequestsOf apiKey base64Image apiConfigs.

(** The outcomes of requests issued one after the other from the [n]-th
    on. *)
Fixpoint outcomesFrom (env : Env) (n : nat) (requests : list Request) : list HttpOutcome :=
  match requests with
  | [] => []
  | r :: requests' => network env n r :: outcomesFrom env (S n) requests'
  end.

(** The first outcome that yields text: its index and the text. *)
Fixpoint firstYield (outcomes : list HttpOutcome) : option (nat * jsstring) :=
  match outcomes with
  | [] => None
  | o :: outcomes' =>
      match yieldsText o with
      | Some t => Some (O, t)
      | None =>
          match firstYield outcomes' with
          | Some (k, t) => Some (S k, t)
          | None => None
          end
      end
  end.

(** The verification request that follows a successful extraction. *)
Definition verifyRequest (env : Env) (text : jsstring) : Request :=
  HFVerify (if truthy_opt (HUGGINGFACE_API_KEY env) then HUGGINGFACE_API_KEY env else None)
           (substring0 50 text).

(** Sum of the members divided by their count. *)
Definition arithmetic_mean (xs : list number) : number :=
  fold_left PrimFloat.add xs 0 / length_num xs.

(** No Gemini API key is configured. *)
Definition noApiKey (env : Env) : bool := negb (truthy_opt (GOOGLE_GEMINI_API_KEY env)).

(** The templated per-glyph composition. *)
Definition templatedText (extractedText : jsstring) (glyphs : list GlyphMatch) : jsstring :=
  js "Translation of " ++ quote ++ extractedText ++ quote
  ++ js " - This ancient text contains cultural and philosophical significance. Individual characters: "
  ++ join_with (js ", ")
       (map (fun g => gm_symbol g ++ js " (" ++ or_str (gm_meaning g) (js "unknown") ++ js ")")
            glyphs).

Definition sentinelMeaning : jsstring := js "Character recognized but meaning not available".

Definition storedNumbersAreNumbers (db : DB) : bool :=
  forallb (fun g => negb (PrimFloat.is_nan (glyph_confidence g))) (glyphs db).

(** An upload with another status. *)
Definition withStatus (u : Upload) (s : ProcessingStatus) : Upload :=
  mkUpload (upload_id u) (upload_userId u) (upload_filePath u) s (upload_scriptType u).

(** The apology for an empty text. *)
Definition apologyText : jsstring :=
  js "Unable to extract text from image. Please ensure the image is clear and contains readable text.".

(** What the specification expects of [generateTranslation] without an API
    key: the apology at confidence 0 for an empty text; the phrase-table
    string at 0.90 on an exact key match; otherwise the templated
    composition at min(mean of the glyph confidences, 0.85), the mean
    defaulting to 0.70 when there are no glyphs. *)
Definition offlineTranslation (extractedText : jsstring) (glyphs : list GlyphMatch)
  : TranslationResult :=
  if truthy extractedText then
    match dict_get commonTranslations extractedText with
    | Some phrase => mkTranslation (VString phrase) 0.90
    | None =>
        mkTranslation (VString (templatedText extractedText glyphs))
          (Math_min match glyphs with
                    | [] => 0.70
                    | _ :: _ => arithmetic_mean (map gm_confidence glyphs)
                    end 0.85)
    end
  else mkTranslation (VString apologyText) 0.0.

(** None of the characters is found in the store, by the exact or by the
    relaxed match. *)
Definition absentFromStore (env : Env) (db : DB) (chars : list jsstring) : bool :=
  forallb (fun char => match findMatchedGlyph env (glyphs db) char with
                       | Some _ => false
                       | None => true
                       end) chars.

(** The match of a recognised character without a meaning. *)
Definition unknownMatch (i : Z) (char : jsstring) : GlyphMatch :=
  mkGlyphMatch char 0.60 i (Some (placeBox i)) (Some sentinelMeaning).

(** The matches expected for the text of the scenario. *)
Definition unknown_dao_fa_zi_ran : list GlyphMatch :=
  [ unknownMatch 0 [36947%Z]; unknownMatch 1 [27861%Z];
    unknownMatch 2 [33258%Z]; unknownMatch 3 [28982%Z] ].

Definition phrase_dao_fa_zi_ran : jsstring :=
  js "The Tao follows nature - A fundamental concept in Taoist philosophy suggesting that the natural way of things is the best way.".

End Spec.

Module BatchSpec.

Import Pipeline Batch Spec.

Open Scope float_scope.

(** The confidence of a version is the arithmetic mean of the confidences
    of its members. *)
Definition meanOfMembers (v : ReconstructionVersion) : Prop :=
  version_confidence v
  = arithmetic_mean (map reconstruction_confidence (version_reconstructedGlyphs v)).

(** The store of [w'] is the store of [w] with more versions, each of
    them with the mean of its members as confidence. *)
Definition addsMeanVersions (w w' : World) : Prop :=
  exists created,
    reconstructionVersions (world_db w')
    = reconstructionVersions (world_db w) ++ created
    /\ Forall meanOfMembers created.

(** A call that creates a version gives it the mean of its members. *)
Definition createsMeanVersion {X} (c : Cmd X) : Prop :=
  match c with
  | CreateVersion _ _ rs confidence _ =>
      confidence = arithmetic_mean (map reconstruction_confidence rs)
  | _ => True
  end.

(** Every awaited call of the function satisfies [PC] and every value it
    can return satisfies [PR], however the calls are answered. *)
Inductive Sound (PC : forall X, Cmd X -> Prop) {A} (PR : A -> Prop) : Prog A -> Prop :=
| sound_ret : forall a, PR a -> Sound PC PR (Ret a)
| sound_throw : forall e, Sound PC PR (Throw e)
| sound_await : forall X (c : Cmd X) k,
    PC X c -> (forall r, Sound PC PR (k r)) -> Sound PC PR (Await c k).

(** A success entry for the upload. *)
Definition successFor (uploadId : id) (entry : BatchEntry) : Prop :=
  entry_uploadId entry = uploadId /\ entry_status entry = success.

(** A pending run of [processUpload] for the upload. *)
Definition soundFor (uploadId : id) (p : Prog BatchEntry) : Prop :=
  Sound (@createsMeanVersion) (successFor uploadId) p.

(** How the run of an upload may settle. *)
Definition settlesFor (uploadId : id) (s : Settled BatchEntry) : Prop :=
  match s with
  | Fulfilled value => successFor uploadId value
  | Rejected _ => True
  end.

(** The entry reported for an upload, given how its run settled: the value
    of a fulfilled run, which is a success entry for the upload; a
    [failed] entry for the upload when the run threw. *)
Definition reportedAs (uploadId : id) (entry : BatchEntry) (s : Settled BatchEntry) : Prop :=
  entry_uploadId entry = uploadId
  /\ match s with
     | Fulfilled value => entry = value /\ entry_status entry = success
     | Rejected _ => entry_status entry = failed
     end.

Definition isFulfilled {A} (s : Settled A) : bool :=
  match s with Fulfilled _ => true | Rejected _ => false end.


(** [Forall3]-like: the entries, uploads and settled runs line up. *)
Inductive Reported : list id -> list BatchEntry -> list (Settled BatchEntry) -> Prop :=
| reported_nil : Reported [] [] []
| reported_cons : forall i e s ids es ss,
    reportedAs i e s -> Reported ids es ss -> Reported (i :: ids) (e :: es) (s :: ss).

End BatchSpec.

(* ================================================================= *)
(** ** Concrete environments, stores and requests *)

Module Examples.

Import Pipeline Batch Spec.

Close Scope float_scope.

Definition noBody : JsonBody := mkBody None None None.

Definition textBody (t : jsstring) : JsonBody := mkBody (Some t) None None.

Definition errorBody (m : jsstring) : JsonBody := mkBody None (Some m) None.

Definition identity (s : jsstring) : jsstring := s.

(** No API key, no network. *)
Definition offline : Env :=
  mkEnv None None None None (fun _ => inr (js "aW1hZ2U="))
    (fun _ _ => Rejects (js "getaddrinfo ENOTFOUND")) identity
    (fun _ => NoJsonObject) (fun _ => None).

Definition emptyStore : DB := mkDB [] [] [] [] [] [] 0.

(** An API key; the first configuration is not found, the second is rate
    limited, the third reads the inscription; the translation backend is
    down; the meanings service knows one character, the single lookup
    another. *)
Definition online : Env :=
  mkEnv (Some (js "key")) None (Some (js "production")) None
    (fun _ => inr (js "aW1hZ2U="))
    (fun n req =>
       match req with
       | GeminiOCR _ _ _ =>
           match n with
           | O => Responds 404%Z (BodyJson noBody)
           | 1 => Responds 429%Z (BodyJson noBody)
           | _ => Responds 200%Z (BodyJson (textBody (32%Z :: text_dao_fa_zi_ran ++ [10%Z])))
           end
       | HFVerify _ _ => Responds 503%Z (BodyThrows (js "Unexpected token"))
       | GeminiMeanings _ _ _ _ => Responds 200%Z (BodyJson (textBody (js "{...}")))
       | GeminiBatchMeanings _ _ => Responds 500%Z (BodyJson noBody)
       | GeminiSingleMeaning _ char =>
           if str_eqb char [28982%Z]
           then Responds 200%Z (BodyJson (textBody (js "so, thus ")))
           else Responds 500%Z (BodyJson noBody)
       | GeminiTranslate _ _ _ => Responds 500%Z (BodyJson (errorBody (js "overloaded")))
       end)
    identity
    (fun _ => JsonObject [([36947%Z], JString (js " way, path ")); ([27861%Z], JNotString)])
    (fun _ => None).

(** The same key with every OCR configuration failing with an
    application-level error. *)
Definition quotaExceeded : Env :=
  mkEnv (Some (js "key")) None (Some (js "production")) None
    (fun _ => inr (js "aW1hZ2U="))
    (fun _ _ => Responds 500%Z (BodyJson (errorBody (js "quota exceeded"))))
    identity (fun _ => NoJsonObject) (fun _ => None).

(** The same key with a translation backend that answers. *)
Definition translating : Env :=
  mkEnv (Some (js "key")) None (Some (js "production")) None
    (fun _ => inr (js "aW1hZ2U="))
    (fun _ _ => Responds 200%Z (BodyJson (textBody (js "Translation: The Way follows nature"))))
    identity (fun _ => NoJsonObject) (fun _ => None).

(** A store with one upload, a glyph with a real meaning and a glyph with
    a placeholder meaning. *)
Definition store : DB :=
  mkDB [mkUpload 1 9 (js "uploads/1.jpg") PENDING None]
       [mkScript 2 (js "Seal Script")]
       [mkGlyph 3 2 [27861%Z] (Some [27861%Z]) (Some (js "law, method")) 0.9%float;
        mkGlyph 4 2 [33258%Z] (Some [33258%Z]) (Some (js "Character: ?")) 0.4%float]
       [] [] [] 5.

Definition someGlyphs : list GlyphMatch :=
  [ mkGlyphMatch [36947%Z] 0.85%float 0%Z (Some (placeBox 0%Z)) (Some (js "way"));
    mkGlyphMatch [27861%Z] 0.60%float 1%Z (Some (placeBox 1%Z)) None ].

(** Modelled from the spec: the flagging policy of [@/lib/grm], which the
    endpoint imports: an empty symbol, a confidence below 0.7%float, or a box
    with a side below a minimal size (here 10). *)
Definition policy : Grm :=
  mkGrm (fun c =>
           negb (truthy (candidate_symbol c))
           || PrimFloat.ltb (candidate_confidence c) 0.7%float
           || match candidate_boundingBox c with
              | Some (StoredBoxObject b) => ((box_width b <? 10) || (box_height b <? 10))%Z
              | _ => false
              end).

(** The pipeline fails on the third image and reads one uncertain glyph
    on the others; the reconstruction service restores every candidate. *)
Definition services : Oracle :=
  mkOracle
    (fun _ filePath =>
       if str_eqb filePath (js "uploads/3.jpg")
       then inl (js "Failed to extract text from image.")
       else inr (mkProcessing [36947%Z]
                   [mkGlyphMatch [36947%Z] 0.60%float 0%Z (Some (placeBox 0%Z)) (Some sentinelMeaning)]
                   (Some (js "Traditional Chinese")) 0.70%float (js "gemini")))
    (fun _ _ candidates _ =>
       inr (map (fun c => mkReconstruction (candidate_symbol c) 0.8%float (js "restored"))
                candidates)).

Definition pendingUpload (i : id) (path : jsstring) : Upload :=
  mkUpload i 9 path PENDING None.

(** Five pending uploads of user 9. *)
Definition fiveUploads : World :=
  mkWorld
    (mkDB [ pendingUpload 1 (js "uploads/1.jpg"); pendingUpload 2 (js "uploads/2.jpg");
            pendingUpload 3 (js "uploads/3.jpg"); pendingUpload 4 (js "uploads/4.jpg");
            pendingUpload 5 (js "uploads/5.jpg") ]
          [] [] [] [] [] 6)
    0.

Definition fiveRuns : BatchRequest :=
  mkRequest (Some 9) (Some [1; 2; 3; 4; 5]) true true 2%Z.

(** The order in which the runs of each chunk take their turns. *)
Definition turnsTaken : list (list nat) := [[0; 1; 1; 0; 1; 0; 0]; [1; 0; 1]; []].

Definition fiveRunsOutcome : BatchReply * World :=
  match POST policy services turnsTaken 5 fiveRuns fiveUploads with
  | Some outcome => outcome
  | None => (mkBatchReply 0%Z 0 0 [] [], fiveUploads)
  end.

(** An upload whose earlier processing failed after a first
    reconstruction version had been stored. *)
Definition reprocessed : World :=
  mkWorld
    (mkDB [mkUpload 1 9 (js "uploads/1.jpg") FAILED None] [] [] [] []
          [mkVersion 2 1 1%Z [mkReconstruction [36947%Z] 0.8%float (js "restored")] 0.8%float
             (js "gemini-grm")]
          3)
    0.

End Examples.

(* ================================================================= *)
(** ** Notions for the further properties, and the remaining functions *)

Module Further.

Import Pipeline Batch Spec.

Open Scope float_scope.

(** The message of the error [processAncientText] throws when no text
    could be extracted. *)
Definition extractionFailureMessage : jsstring :=
  js "Failed to extract text from image. All OCR methods failed. Please ensure the image is clear and contains readable text.".

(** The box of the first match ends before the box of the second starts. *)
Definition leftOf (g1 g2 : GlyphMatch) : Prop :=
  match gm_boundingBox g1, gm_boundingBox g2 with
  | Some b1, Some b2 => (box_x b1 + box_width b1 <= box_x b2)%Z
  | _, _ => False
  end.

(** The first match comes before the second, in the text and in the
    picture. *)
Definition precedes (g1 g2 : GlyphMatch) : Prop :=
  (gm_position g1 < gm_position g2)%Z /\ leftOf g1 g2.

(** A match sits at its character: its symbol is the character at its
    position, and its box is the one placed there. *)
Definition sitsIn (characters : list jsstring) (g : GlyphMatch) : Prop :=
  (0 <= gm_position g)%Z
  /\ nth_error characters (Z.to_nat (gm_position g)) = Some (gm_symbol g)
  /\ gm_boundingBox g = Some (placeBox (gm_position g))
  /\ existsb isPunctuation (gm_symbol g) = false.

(** The confidences the matcher gives: three constants, or at least
    0.75. *)
Definition matcherConfidence (c : number) : Prop :=
  c = 0.60 \/ c = 0.70 \/ c = 0.85 \/ PrimFloat.leb 0.75 c = true.

(** The translation requests, one per configuration, in order. *)
Definition translateRequests (apiKey extractedText : jsstring) : list Request :=
  map (fun config => GeminiTranslate apiKey config extractedText) apiConfigs.

(** The translation a configuration delivers: the candidate text of an ok
    response, when it is not empty. *)
Definition deliversTranslation (o : HttpOutcome) : option jsstring :=
  match o with
  | Rejects _ => None
  | Responds st body =>
      if response_ok (mkResponse st body) then
        match body with
        | BodyJson b =>
            if truthy (or_str (candidateText b) []) then Some (or_str (candidateText b) [])
            else None
        | BodyThrows _ => None
        end
      else None
  end.

(** The first outcome that delivers a translation: its index and the
    text. *)
Fixpoint firstDelivery (outcomes : list HttpOutcome) : option (nat * jsstring) :=
  match outcomes with
  | [] => None
  | o :: outcomes' =>
      match deliversTranslation o with
      | Some t => Some (O, t)
      | None =>
          match firstDelivery outcomes' with
          | Some (k, t) => Some (S k, t)
          | None => None
          end
      end
  end.

(** The requests of the fallback of [getCharacterMeanings], one per batch
    of 20 characters. *)
Definition batchRequests (apiKey : jsstring) (uniqueChars : list jsstring) : list Request :=
  map (fun batch => GeminiBatchMeanings apiKey (join batch))
      (batchesFrom (length uniqueChars) 0 20 uniqueChars).

(** A match sits at its character, counting from the index [i] of the
    first character of [characters]. *)
Definition sitsFrom (i : Z) (characters : list jsstring) (g : GlyphMatch) : Prop :=
  (i <= gm_position g)%Z
  /\ nth_error characters (Z.to_nat (gm_position g - i)) = Some (gm_symbol g)
  /\ gm_boundingBox g = Some (placeBox (gm_position g))
  /\ existsb isPunctuation (gm_symbol g) = false.

(** A match carries a meaning that is not empty. *)
Definition hasMeaning (g : GlyphMatch) : Prop := truthy_opt (gm_meaning g) = true.

(** The rows the store holds for an upload. *)
Definition matchesOf (db : DB) (i : id) : list GlyphMatchRow :=
  filter (fun m => Nat.eqb (match_uploadId m) i) (glyphMatches db).

Definition translationsOf (db : DB) (i : id) : list TranslationRow :=
  filter (fun t => Nat.eqb (translation_uploadId t) i) (translations db).

Definition versionsOf (db : DB) (i : id) : list ReconstructionVersion :=
  filter (fun v => Nat.eqb (version_uploadId v) i) (reconstructionVersions db).

(** All the store holds for an upload: its record and its rows. *)
Definition holdingsOf (db : DB) (i : id)
  : option Upload * list GlyphMatchRow * list TranslationRow * list ReconstructionVersion :=
  (findUpload db i, matchesOf db i, translationsOf db i, versionsOf db i).

(** The second store holds what the first holds for every upload that is
    not among the touched ones. *)
Definition keepsOutside (touched : id -> Prop) (db db' : DB) : Prop :=
  forall j, ~ touched j -> holdingsOf db' j = holdingsOf db j.

(** Every glyph of the first store is in the second, with its identifier
    and its symbol. *)
Definition glyphsKept (db db' : DB) : Prop :=
  forall glyph, In glyph (glyphs db) ->
    exists glyph', In glyph' (glyphs db')
                   /\ glyph_id glyph' = glyph_id glyph
                   /\ glyph_symbol glyph' = glyph_symbol glyph.

(** A match row of the process route records a match: its confidence,
    position and box, and a stored glyph with the symbol of the match. *)
Definition persistedAs (db : DB) (row : GlyphMatchRow) (glyphMatch : GlyphMatch) : Prop :=
  match_confidence row = gm_confidence glyphMatch
  /\ match_position row = Some (gm_position glyphMatch)
  /\ match_boundingBox row = option_map StoredBoxObject (gm_boundingBox glyphMatch)
  /\ exists glyph, In glyph (glyphs db)
                   /\ glyph_id glyph = match_glyphId row
                   /\ str_eqb (glyph_symbol glyph) (gm_symbol glyphMatch) = true.

(** A translation row records a translation of a text. *)
Definition recordsTranslation (row : TranslationRow) (extractedText : jsstring)
    (t : TranslationResult) : Prop :=
  translation_originalText row = extractedText
  /\ translation t = VString (translation_translatedText row)
  /\ translation_confidence row = tr_confidence t.

(** The store the pipeline of the process route sees: the upload marked
    PROCESSING and its previous results deleted. *)
Definition clearedFor (db : DB) (uploadId : id) : DB :=
  deletePreviousResults (updateUploadStatus db uploadId PROCESSING) uploadId.

(** The identifiers of the glyphs are distinct and already handed out. *)
Definition glyphIdsDistinct (db : DB) : Prop :=
  NoDup (map glyph_id (glyphs db))
  /\ Forall (fun g => (glyph_id g < nextId db)%nat) (glyphs db).

(** A glyph with a real description: one the process route does not take
    for a placeholder. *)
Definition hasRealDescription (glyph : Glyph) : Prop :=
  ProcessRoute.currentIsPlaceholder (glyph_description glyph) = false.

(** What the store can answer to a call: the upload found by its
    identifier has that identifier. *)
Definition answers {X} (c : Cmd X) : Err + X -> Prop :=
  match c in Cmd X return Err + X -> Prop with
  | FindUploadWithGlyphs uploadId =>
      fun r => match r with
               | inr (Some (upload, _)) => upload_id upload = uploadId
               | _ => True
               end
  | _ => fun _ => True
  end.

(** Every awaited call of the function satisfies [PC] and every value it
    returns satisfies [PR], whatever the store and the services answer. *)
Inductive Within (PC : forall X, Cmd X -> Prop) {A} (PR : A -> Prop) : Prog A -> Prop :=
| within_ret : forall a, PR a -> Within PC PR (Ret a)
| within_throw : forall e, Within PC PR (Throw e)
| within_await : forall X (c : Cmd X) k,
    PC X c -> (forall r, answers c r -> Within PC PR (k r)) -> Within PC PR (Await c k).

(** The call writes nothing that belongs to an upload outside the touched
    ones. *)
Definition writesFor (touched : id -> Prop) {X} (c : Cmd X) : Prop :=
  match c with
  | UpdateStatus uploadId _ => touched uploadId
  | UpdateCompleted uploadId _ => touched uploadId
  | CreateGlyphMatch uploadId _ _ _ _ => touched uploadId
  | CreateVersion uploadId _ _ _ _ => touched uploadId
  | _ => True
  end.

(** The call does not write the uploads. *)
Definition leavesUploads {X} (c : Cmd X) : Prop :=
  match c with
  | UpdateStatus _ _ => False
  | UpdateCompleted _ _ => False
  | _ => True
  end.

(** The second store is the first with more rows: nothing deleted, no
    glyph, script, match or version rewritten, and no translation added. *)
Definition onlyAppends (db db' : DB) : Prop :=
  (exists more, ancientScripts db' = ancientScripts db ++ more)
  /\ (exists more, glyphs db' = glyphs db ++ more)
  /\ (exists more, glyphMatches db' = glyphMatches db ++ more)
  /\ (exists more, reconstructionVersions db' = reconstructionVersions db ++ more)
  /\ translations db' = translations db
  /\ map upload_id (uploads db') = map upload_id (uploads db).

(** The uploads the batch endpoint processes: those requested that the
    user of the session owns. *)
Definition processedBy (db : DB) (req : BatchRequest) (j : id) : Prop :=
  exists userId ids upload,
    session_userId req = Some userId
    /\ uploadIds req = Some ids
    /\ In upload (ownedUploads db ids userId)
    /\ upload_id upload = j.

(** [GET] of the process route: the upload with its match rows, each with
    its glyph, and its translations. *)
Record UploadView : Type := mkView {
  view_upload : Upload;
  view_glyphs : list (GlyphMatchRow * Glyph);
  view_translations : list TranslationRow
}.

Definition GET (uploadId : option id) (db : DB) : ProcessRoute.Reply * option UploadView :=
  match uploadId with
  | None => (ProcessRoute.mkReply 400, None)
  | Some uploadId =>
      match findUpload db uploadId with
      | None => (ProcessRoute.mkReply 404, None)
      | Some upload =>
          (ProcessRoute.mkReply 200,
           Some (mkView upload (uploadGlyphsOf db uploadId) (translationsOf db uploadId)))
      end
  end.

(** A row shown with its glyph shows a match: the symbol of the glyph,
    and the confidence, position and box of the row, are those of the
    match. *)
Definition shows (shown : GlyphMatchRow * Glyph) (glyphMatch : GlyphMatch) : Prop :=
  str_eqb (glyph_symbol (snd shown)) (gm_symbol glyphMatch) = true
  /\ glyph_id (snd shown) = match_glyphId (fst shown)
  /\ match_confidence (fst shown) = gm_confidence glyphMatch
  /\ match_position (fst shown) = Some (gm_position glyphMatch)
  /\ match_boundingBox (fst shown) = option_map StoredBoxObject (gm_boundingBox glyphMatch).

(** *** extractTextFromHFResponse *)

(** A value as [JSON.parse] gives it, as far as the function inspects it:
    strings, [null], absent properties ([undefined]), numbers and booleans
    with their truthiness and their conversion to a string, objects with
    the four properties the function reads, and arrays.  An object says
    whether it has a property of its own named [toString]: in a parsed
    value such a property is never a function, and [String] of the object
    then throws a TypeError instead of giving [[object Object]]. *)
#[local] Unset Elimination Schemes.
Inductive JsAny : Type :=
| AString (s : jsstring)
| ANull
| AUndefined
| APrimitive (isTruthy : bool) (asString : jsstring)
| AObject (ownToString : bool) (generated_text text caption error : JsAny)
| AArray (items : list JsAny).
#[local] Set Elimination Schemes.

Definition truthyAny (v : JsAny) : bool :=
  match v with
  | AString s => truthy s
  | ANull | AUndefined => false
  | APrimitive isTruthy _ => isTruthy
  | AObject _ _ _ _ _ | AArray _ => true
  end.

(** The message of the TypeError of a conversion that finds nothing to
    call. *)
Definition typeErrorMessage : Err := js "Cannot convert object to primitive value".

(** [String(v)], and the conversion of a template literal: the string, or
    the message of the error thrown.  An array joins the conversions of
    its members with commas, [null] and [undefined] giving the empty
    string there. *)
Fixpoint String_ (v : JsAny) : Err + jsstring :=
  match v with
  | AString s => inr s
  | ANull => inr (js "null")
  | AUndefined => inr (js "undefined")
  | APrimitive _ asString => inr asString
  | AObject ownToString _ _ _ _ =>
      if ownToString then inl typeErrorMessage else inr (js "[object Object]")
  | AArray items =>
      match
        (fix members (items : list JsAny) : Err + list jsstring :=
           match items with
           | [] => inr []
           | item :: items' =>
               match match item with
                     | ANull | AUndefined => inr []
                     | _ => String_ item
                     end with
               | inl e => inl e
               | inr member =>
                   match members items' with
                   | inl e => inl e
                   | inr rest => inr (member :: rest)
                   end
               end
           end) items
      with
      | inl e => inl e
      | inr converted => inr (join_with (js ",") converted)
      end
  end.

Inductive HFProperty : Type := p_generated_text | p_text | p_caption | p_error.

(** [v.p] and [v?.p]: only objects have the properties. *)
Definition property (p : HFProperty) (v : JsAny) : JsAny :=
  match v with
  | AObject _ generated_text text caption error =>
      match p with
      | p_generated_text => generated_text
      | p_text => text
      | p_caption => caption
      | p_error => error
      end
  | _ => AUndefined
  end.

(** [typeof data === 'object'] for a truthy [data]. *)
Definition isObject (v : JsAny) : bool :=
  match v with
  | AObject _ _ _ _ _ | AArray _ => true
  | _ => false
  end.

(** How a statement ends the function, [None] when the function goes on
    with the next one. *)
Definition orElse {A} (first next : option A) : option A :=
  match first with
  | Some a => Some a
  | None => next
  end.

(** [if (v) { const text = String(v).trim(); if (text) return text }] *)
Definition returnsNonBlank (v : JsAny) : option (Err + jsstring) :=
  if truthyAny v then
    match String_ v with
    | inl e => Some (inl e)
    | inr s => if truthy (trim s) then Some (inr (trim s)) else None
    end
  else None.

(** [if (v) return String(v).trim()] *)
Definition returnsTrimmed (v : JsAny) : option (Err + jsstring) :=
  if truthyAny v then
    Some match String_ v with
         | inl e => inl e
         | inr s => inr (trim s)
         end
  else None.

(** [if (data.error) throw new Error(`Hugging Face error: ${data.error}`)] *)
Definition throwsError (v : JsAny) : option (Err + jsstring) :=
  if truthyAny v then
    Some match String_ v with
         | inl e => inl e
         | inr s => inl (js "Hugging Face error: " ++ s)
         end
  else None.

Definition extractTextFromHFResponse (data : JsAny) : Err + jsstring :=
  match data with
  | AString s => inr (trim s)
  | _ =>
      let fromObject : option (Err + jsstring) :=
        if truthyAny data && isObject data then
          orElse (returnsNonBlank (property p_generated_text data))
            (orElse (returnsNonBlank (property p_text data))
               (orElse (returnsNonBlank (property p_caption data))
                  (throwsError (property p_error data))))
        else None in
      match fromObject with
      | Some outcome => outcome
      | None =>
          match data with
          | AArray (firstItem :: _) =>
              match orElse (returnsTrimmed (property p_generated_text firstItem))
                      (returnsTrimmed (property p_text firstItem)) with
              | Some outcome => outcome
              | None =>
                  match firstItem with
                  | AString s => inr (trim s)
                  | _ => inr []
                  end
              end
          | _ => inr []
          end
      end
  end.

(** The deprecated and the placeholder methods: results without text. *)
Definition extractTextWithHuggingFace (imagePath : jsstring) : M OCRResult :=
  ret (mkOCR [] 0 huggingface
         (Some (js "All Hugging Face OCR models have been deprecated. Please use Google Gemini API instead."))).

Definition extractTextWithAlternativeServices (imagePath : jsstring) : M OCRResult :=
  ret (mkOCR [] 0 alternative
         (Some (js "Alternative OCR services not implemented. Please use Google Gemini API for reliable OCR."))).

(** The value converts to a string. *)
Definition convertible (v : JsAny) : bool :=
  match String_ v with
  | inr _ => true
  | inl _ => false
  end.

(** The value is truthy and its conversion is a text that is not blank. *)
Definition holdsText (v : JsAny) : bool :=
  truthyAny v
  && match String_ v with
     | inr s => truthy (trim s)
     | inl _ => false
     end.

(** The object has a property that yields a text. *)
Definition yieldsSomeText (data : JsAny) : bool :=
  holdsText (property p_generated_text data)
  || holdsText (property p_text data)
  || holdsText (property p_caption data).

(** The values the function may convert to a string: the four properties
    of an object, the two of the first member of an array. *)
Definition convertedValues (data : JsAny) : list JsAny :=
  match data with
  | AObject _ generated_text text caption error => [generated_text; text; caption; error]
  | AArray (firstItem :: _) =>
      [property p_generated_text firstItem; property p_text firstItem]
  | _ => []
  end.

(** The response is a plain error report: an object, not an array, with a
    truthy [error] that converts to [s], and no text. *)
Definition reportsError (data : JsAny) (s : jsstring) : Prop :=
  exists ownToString generated_text text caption error,
    data = AObject ownToString generated_text text caption error
    /\ truthyAny error = true
    /\ yieldsSomeText data = false
    /\ String_ error = inr s.

(** *** Reconstruction batches *)

(** What [needsReconstruction] is asked about a stored match of an
    upload, and about a match of a fresh result. *)
Definition candidateOfRow (g : GlyphMatchRow * Glyph) : Candidate :=
  mkCandidate (glyph_symbol (snd g)) (match_confidence (fst g)) (match_boundingBox (fst g)).

Definition candidateOfMatch (g : GlyphMatch) : Candidate :=
  mkCandidate (gm_symbol g) (gm_confidence g) (Some (StoredBoxNumber (gm_position g))).

(** The matches the policy flags. *)
Definition flaggedRows (grm : Grm) (rows : list (GlyphMatchRow * Glyph))
  : list (GlyphMatchRow * Glyph) :=
  filter (fun g => needsReconstruction grm (candidateOfRow g)) rows.

Definition flaggedMatches (grm : Grm) (glyphs : list GlyphMatch) : list GlyphMatch :=
  filter (fun g => needsReconstruction grm (candidateOfMatch g)) glyphs.

(** The candidate submitted for a stored match: a match without a box is
    given the empty box. *)
Definition submittedRow (g : GlyphMatchRow * Glyph) : Candidate :=
  mkCandidate (glyph_symbol (snd g)) (match_confidence (fst g))
    (Some match match_boundingBox (fst g) with
          | Some b => b
          | None => emptyBox
          end).

(** The version a reconstruction batch of an upload is to leave: the
    results of the batch as its members, and their mean as its
    confidence. *)
Definition versionOfBatch (uploadId : id) (results : list ReconstructionResult)
    (v : ReconstructionVersion) : Prop :=
  version_uploadId v = uploadId
  /\ version_reconstructedGlyphs v = results
  /\ version_confidence v = arithmetic_mean (map reconstruction_confidence results)
  /\ version_method v = js "gemini-grm".

End Further.

(** ** Inputs for the further properties *)

Module FurtherExamples.

Import Pipeline Batch Spec Examples Further.

Close Scope float_scope.

(** An API key; every configuration answers, with white space only. *)
Definition blankReader : Env :=
  mkEnv (Some (js "key")) None (Some (js "production")) None
    (fun _ => inr (js "aW1hZ2U="))
    (fun _ _ => Responds 200%Z (BodyJson (textBody [32%Z; 10%Z])))
    identity (fun _ => NoJsonObject) (fun _ => None).

(** A store in which upload 1 has been processed before, and upload 2,
    of another user, too. *)
Definition processedBefore : DB :=
  mkDB [mkUpload 1 9 (js "uploads/1.jpg") COMPLETED None;
        mkUpload 2 8 (js "uploads/2.jpg") COMPLETED None]
       [mkScript 3 (js "Traditional Chinese")]
       [mkGlyph 4 3 [36947%Z] (Some [36947%Z]) (Some (js "way, path")) 0.85%float;
        mkGlyph 5 3 [84%Z] (Some [84%Z]) (Some (js "Character: T")) 0.6%float]
       [mkMatchRow 6 1 4 0.85%float None (Some 0%Z);
        mkMatchRow 7 2 4 0.85%float None (Some 0%Z)]
       [mkTranslationRow 8 1 [36947%Z] (js "The way") 0.88%float;
        mkTranslationRow 9 2 [36947%Z] (js "The way") 0.88%float]
       [] 10.

Definition firstUpload : Upload := mkUpload 1 9 (js "uploads/1.jpg") COMPLETED None.

(** Upload 1 processed again, with every service answering. *)
Definition processedAgain : (ProcessRoute.Reply * DB) * Log :=
  ProcessRoute.POST translating (Some 1) processedBefore [].

(** Upload 1 processed again, without an API key. *)
Definition processedOffline : (ProcessRoute.Reply * DB) * Log :=
  ProcessRoute.POST offline (Some 1) processedBefore [].

(** The five uploads of user 9 and one of user 8, which has results. *)
Definition sharedStore : World :=
  mkWorld
    (mkDB (uploads (world_db fiveUploads)
           ++ [mkUpload 6 8 (js "uploads/6.jpg") COMPLETED None])
          [] [mkGlyph 7 0 [36947%Z] None (Some (js "way")) 0.85%float]
          [mkMatchRow 8 6 7 0.85%float None (Some 0%Z)]
          [mkTranslationRow 9 6 [36947%Z] (js "The way") 0.88%float]
          [mkVersion 10 6 1%Z [] 0.8%float (js "gemini-grm")]
          11)
    0.

(** User 9 asks for the six uploads. *)
Definition sixRequested : BatchRequest :=
  mkRequest (Some 9) (Some [1; 2; 3; 4; 5; 6]) true true 2%Z.

Definition sixRequestedOutcome : BatchReply * World :=
  match POST policy services turnsTaken 6 sixRequested sharedStore with
  | Some outcome => outcome
  | None => (mkBatchReply 0%Z 0 0 [] [], sharedStore)
  end.

(** A response with an error and a blank text, and one with a caption. *)
Definition hfErrorResponse : JsAny :=
  AObject false AUndefined (AString [32%Z]) AUndefined (AString (js "Model is loading")).

Definition hfCaptionResponse : JsAny :=
  AObject false AUndefined ANull (AString (js " a stone tablet ")) (AString (js "ignored")).

(** A text that cannot be converted: an object with a property of its
    own named [toString]. *)
Definition hfUnconvertibleResponse : JsAny :=
  AObject false (AObject true AUndefined AUndefined AUndefined AUndefined)
    AUndefined AUndefined AUndefined.

(** No API key, with the development fallback switched on. *)
Definition offlineDevelopment : Env :=
  mkEnv None None (Some (js "development")) (Some (js "true"))
    (fun _ => inr (js "aW1hZ2U="))
    (fun _ _ => Rejects (js "getaddrinfo ENOTFOUND")) identity
    (fun _ => NoJsonObject) (fun _ => None).

(** The pipeline reads two faint glyphs; the reconstruction service
    restores them with different confidences. *)
Definition restoringTwo : Oracle :=
  mkOracle
    (fun _ _ =>
       inr (mkProcessing [36947%Z; 27861%Z]
              [mkGlyphMatch [36947%Z] 0.60%float 0%Z (Some (placeBox 0%Z)) (Some sentinelMeaning);
               mkGlyphMatch [27861%Z] 0.65%float 1%Z (Some (placeBox 1%Z)) (Some sentinelMeaning)]
              (Some (js "Traditional Chinese")) 0.70%float (js "gemini")))
    (fun _ _ candidates _ =>
       inr (map (fun c => mkReconstruction (candidate_symbol c)
                            (if str_eqb (candidate_symbol c) [36947%Z]
                             then 0.5%float else 0.75%float)
                            (js "restored"))
                candidates)).

(** Upload 1 of [processedBefore] with its stored match flagged again. *)
Definition faintStore : World :=
  mkWorld
    (mkDB [mkUpload 1 9 (js "uploads/1.jpg") COMPLETED None]
          [mkScript 3 (js "Traditional Chinese")]
          [mkGlyph 4 3 [36947%Z] (Some [36947%Z]) (Some (js "way, path")) 0.85%float;
           mkGlyph 5 3 [27861%Z] (Some [27861%Z]) (Some (js "law")) 0.85%float]
          [mkMatchRow 6 1 4 0.6%float None (Some 0%Z);
           mkMatchRow 7 1 5 0.65%float None (Some 1%Z)]
          [] [] 10)
    0.

End FurtherExamples.

(** ** The tiers of the matcher, in the words of the specification *)

Module Tiers.

Import Pipeline Spec.

Open Scope float_scope.

(** *** The store *)

(** The claim's words: the character exists in the glyph store, that is,
    the store holds a glyph with that symbol. *)
Definition exactEntry (dbGlyphs : list Glyph) (char : jsstring) : option Glyph :=
  find (fun g => str_eqb (glyph_symbol g) char) dbGlyphs.

(** The symbol of the glyph starts with the UTF-16 code unit the
    character starts with. *)
Definition sameFirstUnit (char : jsstring) (g : Glyph) : bool :=
  match glyph_symbol g, char with
  | x :: _, y :: _ => Z.eqb x y
  | _, _ => false
  end.

(** The name of the glyph mentions the character, letter case apart. *)
Definition nameMentions (env : Env) (char : jsstring) (g : Glyph) : bool :=
  match glyph_name g with
  | Some name => truthy name && includes (toLowerCase env name) (toLowerCase env char)
  | None => false
  end.

(** The store entry of a character, as amended: the first glyph with that
    symbol; failing that, the first glyph that starts with the same code
    unit or whose name mentions the character. *)
Definition storeEntry (env : Env) (dbGlyphs : list Glyph) (char : jsstring) : option Glyph :=
  match exactEntry dbGlyphs char with
  | Some g => Some g
  | None =>
      match char with
      | [] => None
      | _ :: _ => find (fun g => sameFirstUnit char g || nameMentions env char g) dbGlyphs
      end
  end.

(** *** The semantic service *)

Definition keyOf (env : Env) : jsstring := or_str (GOOGLE_GEMINI_API_KEY env) [].

(** The text of an answer: the candidate text of an ok response whose
    body can be read; a rejected request, another status or an unreadable
    body give none. *)
Definition answeredText (o : HttpOutcome) : option jsstring :=
  match o with
  | Responds st (BodyJson b) =>
      if ((200 <=? st) && (st <? 300))%Z then Some (or_str (candidateText b) []) else None
  | _ => None
  end.

(** The meanings a text states, in order: the entries of its JSON object
    whose value is a string that is not blank, trimmed; when the JSON
    cannot be parsed, what its lines state. *)
Definition statedIn (env : Env) (responseText : jsstring) : list (jsstring * jsstring) :=
  match parseMeanings env responseText with
  | NoJsonObject => []
  | JsonObject entries =>
      flat_map (fun entry =>
                  match snd entry with
                  | JString meaning =>
                      if truthy (trim meaning) then [(fst entry, trim meaning)] else []
                  | JNotString => []
                  end) entries
  | JsonSyntaxError =>
      flat_map (fun line =>
                  match matchMeaningLine env line with
                  | Some (k, v) => [(k, trim v)]
                  | None => []
                  end) (split_lines responseText)
  end.

(** A key a meaning can be recorded under: every key but [__proto__]. *)
Definition recordable (stated : jsstring * jsstring) : bool :=
  negb (str_eqb (fst stated) (js "__proto__")).

(** The meanings an answer gives. *)
Definition givenBy (env : Env) (o : HttpOutcome) : list (jsstring * jsstring) :=
  match answeredText o with
  | Some responseText => filter recordable (statedIn env responseText)
  | None => []
  end.

(** Of the meanings given for a character, the last one counts. *)
Definition lastGiven (given : list (jsstring * jsstring)) (char : jsstring)
  : option jsstring :=
  option_map snd (find (fun stated => str_eqb char (fst stated)) (rev given)).

(** The translation context quoted in the request, [None] when reading it
    fails. *)
Definition quotedContext (translationContext : option JsVal) : option (option jsstring) :=
  match translationContext with
  | None => Some None
  | Some (VString s) => Some (if truthy s then Some (substring0 500 s) else None)
  | Some (VInherited _) => None
  end.

(** The request for the meanings of all the characters at once. *)
Definition allAtOnce (env : Env) (uniqueChars : list jsstring) (context : option jsstring)
  : Request :=
  GeminiMeanings (keyOf env) uniqueChars
    (Z.min (Z.max 800 (Z.of_nat (length uniqueChars) * 60)) 8000) context.

(** The characters in runs of [size]. *)
Fixpoint runsOf {A} (fuel size : nat) (l : list A) : list (list A) :=
  match fuel with
  | O => []
  | S fuel' =>
      match l with
      | [] => []
      | _ :: _ => firstn size l :: runsOf fuel' size (skipn size l)
      end
  end.

Definition batchRequest (env : Env) (batch : list jsstring) : Request :=
  GeminiBatchMeanings (keyOf env) (join batch).

(** The meanings the answers to the batch requests give, the first of
    them being request number [n]. *)
Fixpoint givenByBatches (env : Env) (batches : list (list jsstring)) (n : nat)
  : list (jsstring * jsstring) :=
  match batches with
  | [] => []
  | batch :: batches' =>
      givenBy env (network env n (batchRequest env batch))
      ++ givenByBatches env batches' (S n)
  end.

(** What the semantic service is asked about a text, [n] requests having
    been issued before, and the meanings it gives: with an API key and a
    text that has CJK characters, one request for all the characters at
    once, and when its answer gives no meaning, one request per run of 20
    characters. *)
Definition consulted (env : Env) (extractedText : jsstring)
    (translationContext : option JsVal) (n : nat)
  : list (jsstring * jsstring) * list Request :=
  let uniqueChars := uniqueCharsOf extractedText in
  if truthy (keyOf env) then
    match uniqueChars with
    | [] => ([], [])
    | _ :: _ =>
        let first :=
          match quotedContext translationContext with
          | Some context =>
              (givenBy env (network env n (allAtOnce env uniqueChars context)),
               [allAtOnce env uniqueChars context])
          | None => ([], [])
          end in
        match fst first with
        | _ :: _ => first
        | [] =>
            let batches := runsOf (length uniqueChars) 20 uniqueChars in
            (givenByBatches env batches (n + length (snd first)),
             snd first ++ map (batchRequest env) batches)
        end
    end
  else ([], []).

(** A fresh meaning of the semantic service is available for the
    character: the last meaning given for it, when it is not empty. *)
Definition freshMeaning (env : Env) (extractedText : jsstring)
    (translationContext : option JsVal) (n : nat) (char : jsstring) : option jsstring :=
  match lastGiven (fst (consulted env extractedText translationContext n)) char with
  | Some meaning => if truthy meaning then Some meaning else None
  | None => None
  end.

(** *** The last resort *)

Definition lookupRequest (env : Env) (char : jsstring) : Request :=
  GeminiSingleMeaning (keyOf env) char.

(** What the last-resort lookup of a character finds when it is request
    number [n]: with an API key, the text of the answer, trimmed, when it
    is not blank. *)
Definition lookupAnswer (env : Env) (char : jsstring) (n : nat) : option jsstring :=
  if truthy (keyOf env) then
    match answeredText (network env n (lookupRequest env char)) with
    | Some responseText =>
        if truthy (trim responseText) then Some (trim responseText) else None
    | None => None
    end
  else None.

(** The lookup is made for a character with no fresh meaning and no store
    entry, with an API key. *)
Definition lookupRequests (env : Env) (fresh : option jsstring) (stored : option Glyph)
    (char : jsstring) : list Request :=
  match fresh, stored with
  | None, None => if truthy (keyOf env) then [lookupRequest env char] else []
  | _, _ => []
  end.

(** *** The tiers *)

(** The matches of the tiered rule for the characters from position [i]
    on, given the fresh meanings and the store; [l] is the log of requests
    when the first character is met, [l'] the log at the end. *)
Inductive TierRule (env : Env) (fresh : jsstring -> option jsstring) (dbGlyphs : list Glyph)
  : Z -> list jsstring -> Log -> list GlyphMatch -> Log -> Prop :=
| tier_done : forall i l,
    TierRule env fresh dbGlyphs i [] l [] l
| tier_skip : forall i char chars l gs l',
    qualifying char = false ->
    TierRule env fresh dbGlyphs (i + 1) chars l gs l' ->
    TierRule env fresh dbGlyphs i (char :: chars) l gs l'
| tier_emit : forall i char chars l g gs l',
    qualifying char = true ->
    gm_symbol g = char ->
    gm_position g = i ->
    gm_confidence g =
      tiered_confidence (fresh char) (storeEntry env dbGlyphs char)
        (lookupAnswer env char (length l)) ->
    (forall m, fresh char = Some m -> gm_meaning g = Some m) ->
    gm_meaning g <> None ->
    TierRule env fresh dbGlyphs (i + 1) chars
      (l ++ lookupRequests env (fresh char) (storeEntry env dbGlyphs char) char) gs l' ->
    TierRule env fresh dbGlyphs i (char :: chars) l (g :: gs) l'.

(** The meanings recorded one after the other. *)
Definition recordAll (meanings : dict) (given : list (jsstring * jsstring)) : dict :=
  fold_left (fun m stated => dict_set m (fst stated) (snd stated)) given meanings.

(** *** An input on which the tiers as first stated fail *)

(** A store that holds U+20000 only; the text is U+20001, which starts
    with the same UTF-16 code unit. *)
Definition lookalikeStore : DB :=
  mkDB [] [mkScript 1%nat (js "Seal Script")]
       [mkGlyph 2%nat 1%nat [55360%Z; 56320%Z] None (Some (js "one")) 0.9]
       [] [] [] 3%nat.

Definition lookalikeText : jsstring := [55360%Z; 56321%Z].


End Tiers.

(* ================================================================= *)
(** * Properties *)

Import Pipeline Spec Batch BatchSpec.

Open Scope float_scope.
Unset Implicit Arguments.

(** ** The monad *)

Lemma bind_inr {A B} (c : M A) (k : A -> M B) l a l' :
  c l = (inr a, l') -> bind c k l = k a l'.
Proof. intros H. unfold bind. now rewrite H. Qed.

Lemma returns_ret {A} (a : A) : returns (ret a).
Proof. intros l. now exists a, l. Qed.

Lemma returns_bind {A B} (c : M A) (k : A -> M B) :
  returns c -> (forall a, returns (k a)) -> returns (bind c k).
Proof.
  intros Hc Hk l. destruct (Hc l) as (a & l' & E).
  rewrite (bind_inr c k l a l' E). apply Hk.
Qed.

(** A [try] whose [catch] branch returns always returns. *)
Lemma returns_try_catch {A} (c : M A) h :
  (forall e, returns (h e)) -> returns (try_catch c h).
Proof.
  intros Hh l. unfold try_catch.
  destruct (c l) as [[e | a] l'].
  - apply Hh.
  - now exists a, l'.
Qed.

(** ** Strings *)

Lemma str_eqb_refl s : str_eqb s s = true.
Proof. induction s as [| c s IH]; simpl; [reflexivity |]. now rewrite Z.eqb_refl. Qed.

Lemma Array_from_cons c s :
  Array_from (c :: s) =
  match s with
  | d :: s' =>
      if isHighSurrogate c && isLowSurrogate d
      then [c; d] :: Array_from s'
      else [c] :: Array_from s
  | [] => [[c]]
  end.
Proof. reflexivity. Qed.

(** Every element [Array.from] yields is a non-empty run of code units of
    the string. *)
Lemma Array_from_elements_bounded n : forall s,
  (length s <= n)%nat ->
  forall ch, In ch (Array_from s) -> ch <> [] /\ incl ch s.
Proof.
  induction n as [| n IH]; intros s Hlen ch Hin.
  - destruct s; [contradiction | simpl in Hlen; lia].
  - destruct s as [| c s]; [contradiction |].
    rewrite Array_from_cons in Hin.
    destruct s as [| d s'].
    + destruct Hin as [<- | []]. split; [discriminate | apply incl_refl].
    + destruct (isHighSurrogate c && isLowSurrogate d).
      * destruct Hin as [<- | Hin].
        -- split; [discriminate |]. intros x [<- | [<- | []]]; simpl; auto.
        -- destruct (IH s') with (ch := ch) as [Hne Hincl]; auto.
           { simpl in Hlen. lia. }
           split; auto. intros x Hx. right. right. now apply Hincl.
      * destruct Hin as [<- | Hin].
        -- split; [discriminate |]. intros x [<- | []]. now left.
        -- destruct (IH (d :: s')) with (ch := ch) as [Hne Hincl]; auto.
           { simpl in *. lia. }
           split; auto. intros x Hx. right. now apply Hincl.
Qed.

Lemma Array_from_elements s ch :
  In ch (Array_from s) -> ch <> [] /\ incl ch s.
Proof. apply (Array_from_elements_bounded (length s)). lia. Qed.

Lemma dedupe_into_incl seen l x : In x (dedupe_into seen l) -> In x l.
Proof.
  revert seen. induction l as [| y l IH]; intros seen; simpl; [tauto |].
  destruct (existsb (str_eqb y) seen).
  - intros H. right. eapply IH, H.
  - intros [<- | H]; [now left | right; eapply IH, H].
Qed.

Lemma filter_none {A} (f : A -> bool) l :
  (forall x, In x l -> f x = false) -> filter f l = [].
Proof.
  induction l as [| x l IH]; intros H; simpl; [reflexivity |].
  rewrite (H x (or_introl eq_refl)). apply IH. intros y Hy. apply H. now right.
Qed.

Lemma punctuation_is_not_CJK c : isPunctuation c = true -> isCJK c = false.
Proof.
  unfold isPunctuation. intros H. apply existsb_exists in H as (p & Hp & E).
  apply Z.eqb_eq in E. subst p. simpl in Hp.
  repeat (destruct Hp as [<- | Hp]; [reflexivity |]). contradiction.
Qed.

Lemma existsb_of_all {A} (f : A -> bool) l :
  l <> [] -> (forall x, In x l -> f x = true) -> existsb f l = true.
Proof.
  destruct l as [| x l]; [congruence |]. intros _ H. simpl.
  now rewrite (H x (or_introl eq_refl)).
Qed.

Lemma existsb_none {A} (f : A -> bool) l :
  (forall x, In x l -> f x = false) -> existsb f l = false.
Proof.
  induction l as [| x l IH]; intros H; simpl; [reflexivity |].
  rewrite (H x (or_introl eq_refl)). apply IH. intros y Hy. apply H. now right.
Qed.

(** The characters of a text made of white space and excluded
    punctuation only. *)
Lemma blank_text_characters text :
  forallb (fun c => isWhiteSpace c || isPunctuation c) text = true ->
  forall ch, In ch (Array_from (stripWhiteSpace text)) ->
             existsb isPunctuation ch = true /\ existsb isCJK ch = false.
Proof.
  intros Hall ch Hin. rewrite forallb_forall in Hall.
  apply Array_from_elements in Hin as [Hne Hincl].
  assert (Hp : forall x, In x ch -> isPunctuation x = true).
  { intros x Hx. apply Hincl in Hx. unfold stripWhiteSpace in Hx.
    apply filter_In in Hx as [Hx Hws]. specialize (Hall x Hx).
    destruct (isWhiteSpace x); [discriminate | exact Hall]. }
  split.
  - now apply existsb_of_all.
  - apply existsb_none. intros x Hx. now apply punctuation_is_not_CJK, Hp.
Qed.

Lemma uniqueCharsOf_blank text :
  forallb (fun c => isWhiteSpace c || isPunctuation c) text = true ->
  uniqueCharsOf text = [].
Proof.
  intros Hall. unfold uniqueCharsOf. apply filter_none. intros ch Hin.
  apply dedupe_into_incl in Hin. now apply (blank_text_characters _ Hall).
Qed.

Lemma matchLoop_all_skipped env ai db chars : forall i l,
  (forall ch, In ch chars -> existsb isPunctuation ch = true) ->
  matchLoop env ai db i chars l = (inr [], l).
Proof.
  induction chars as [| ch chars IH]; intros i l H; [reflexivity |].
  simpl. unfold matchCharacter. rewrite (H ch (or_introl eq_refl)).
  unfold bind at 1. unfold ret at 1.
  unfold bind. rewrite IH; [reflexivity |]. intros c Hc. apply H. now right.
Qed.

(** C10. On a text that is empty or made only of white space and of
    characters of the punctuation exclusion set, [matchGlyphs] returns the
    empty list: it does not throw, and the log of outbound requests is the
    one it was called with, so no external service was contacted. *)
Theorem matchGlyphs_blank_text :
  forall env text db translationContext log,
    forallb (fun c => isWhiteSpace c || isPunctuation c) text = true ->
    matchGlyphs env text db translationContext log = (inr [], log).
Proof.
  intros env text db ctx log Hall. unfold matchGlyphs.
  destruct (truthy text) eqn:Ht; [| reflexivity]. cbn [negb].
  assert (Hm : getCharacterMeanings env text ctx log = (inr [], log)).
  { unfold getCharacterMeanings. rewrite Ht. cbn [negb].
    now rewrite (uniqueCharsOf_blank _ Hall). }
  unfold bind. cbv beta. rewrite Hm.
  apply matchLoop_all_skipped. intros ch Hin.
  now apply (blank_text_characters _ Hall).
Qed.

Lemma matchGlyphs_blank_text_witness :
  matchGlyphs
    (mkEnv (Some (js "key")) None None None (fun _ => inr [])
       (fun _ _ => Rejects (js "network down")) (fun s => s)
       (fun _ => NoJsonObject) (fun _ => None))
    (js " (..., ?!) ") (mkDB [] [] [] [] [] [] 0%nat) None [] = (inr [], []).
Proof. apply matchGlyphs_blank_text. reflexivity. Defined.

(** ** Numbers *)

Lemma is_zero_inv s : PrimFloat.is_zero s = true -> exists b, Prim2SF s = S754_zero b.
Proof.
  unfold PrimFloat.is_zero. rewrite FloatAxioms.eqb_spec.
  destruct (Prim2SF s) as [b | b | | b m e]; intros H.
  - now exists b.
  - destruct b; vm_compute in H; discriminate.
  - vm_compute in H. discriminate.
  - destruct b; vm_compute in H; discriminate.
Qed.

(** [Math.max(c || 0.75, 0.75)] is [Math.max(c, 0.75)] for every number
    [c] that is not [NaN]. *)
Lemma Math_max_or_num s :
  PrimFloat.is_nan s = false ->
  Math_max (or_num s 0.75) 0.75 = Math_max s 0.75.
Proof.
  intros Hnan. unfold or_num, truthy_num. rewrite Hnan, orb_false_r.
  destruct (PrimFloat.is_zero s) eqn:Hz; cbn [negb]; [| reflexivity].
  apply is_zero_inv in Hz as [b Hs].
  unfold Math_max at 2. rewrite Hnan. cbn [orb].
  replace (PrimFloat.is_nan 0.75) with false by reflexivity.
  rewrite ltb_spec, Hs.
  replace (SFltb (S754_zero b) (Prim2SF 0.75)) with true by (now destruct b).
  reflexivity.
Qed.

(** ** getCharacterMeanings and matchGlyphs return *)

Lemma meaningsFallbackLoop_returns env apiKey batches :
  forall meanings, returns (meaningsFallbackLoop env apiKey batches meanings).
Proof.
  induction batches as [| batch batches IH]; intros meanings; simpl.
  - apply returns_ret.
  - apply returns_bind; [| intros a; apply IH].
    apply returns_try_catch. intros e. apply returns_ret.
Qed.

Lemma getCharacterMeanings_returns env text ctx :
  returns (getCharacterMeanings env text ctx).
Proof.
  unfold getCharacterMeanings.
  destruct (negb (truthy text)); [apply returns_ret |].
  destruct (length (uniqueCharsOf text) =? 0)%nat; [apply returns_ret |].
  apply returns_bind.
  - destruct (truthy (or_str (GOOGLE_GEMINI_API_KEY env) [])).
    + apply returns_try_catch. intros e. apply returns_ret.
    + apply returns_ret.
  - intros meanings.
    destruct ((length meanings =? 0)%nat && (0 <? length (uniqueCharsOf text))%nat
              && truthy (or_str (GOOGLE_GEMINI_API_KEY env) [])).
    + apply meaningsFallbackLoop_returns.
    + apply returns_ret.
Qed.

Lemma nonempty_truthy (s : jsstring) : (0 <? length s)%nat = true -> truthy s = true.
Proof. destruct s; [discriminate | reflexivity]. Qed.

(** The last-resort lookup returns, and what it finds is not empty. *)
Lemma singleCharacterLookup_result env char l :
  exists r l', singleCharacterLookup env char l = (inr r, l')
               /\ truthy_opt r = match r with Some _ => true | None => false end.
Proof.
  unfold singleCharacterLookup.
  destruct (truthy (or_str (GOOGLE_GEMINI_API_KEY env) [])); [| now exists None, l].
  unfold try_catch, bind, httpsRequest.
  destruct (network env (length l) _) as [m | st body].
  { now eexists None, _. }
  destruct (response_ok (mkResponse st body)); [| now eexists None, _].
  unfold response_json. cbn [response_body].
  destruct body as [m | b]; [now eexists None, _ |].
  unfold ret.
  destruct (0 <? length (trim (or_str (candidateText b) [])))%nat eqn:Hlen.
  - eexists (Some _), _. split; [reflexivity |]. cbn [truthy_opt].
    now apply nonempty_truthy.
  - now eexists None, _.
Qed.

Lemma findMatchedGlyph_in env dbGlyphs char g :
  findMatchedGlyph env dbGlyphs char = Some g -> In g dbGlyphs.
Proof.
  unfold findMatchedGlyph.
  destruct (find _ dbGlyphs) as [g' |] eqn:E.
  - intros [= <-]. now apply find_some in E.
  - destruct (0 <? length char)%nat; [| discriminate].
    intros H. now apply find_some in H.
Qed.

(** ** The tiers of matchGlyphs *)

Import Tiers.

Lemma str_eqb_eq a : forall b, str_eqb a b = true -> a = b.
Proof.
  induction a as [| x a IH]; intros [| y b] H; try discriminate; [reflexivity |].
  cbn in H. apply andb_true_iff in H as [Hx Hs]. apply Z.eqb_eq in Hx.
  f_equal; auto.
Qed.

Lemma find_agree {A} (f g : A -> bool) l :
  (forall x, In x l -> f x = g x) -> find f l = find g l.
Proof.
  induction l as [| a l IH]; cbn; intros H; [reflexivity |].
  rewrite (H a) by now left. destruct (g a); [reflexivity |].
  apply IH. intros x Hx. apply H. now right.
Qed.

Lemma find_over_app {A} (f : A -> bool) a b :
  find f (a ++ b) = match find f a with Some x => Some x | None => find f b end.
Proof.
  induction a as [| x a IH]; cbn; [reflexivity |]. now destruct (f x).
Qed.

(** The glyph the matcher finds is the store entry of the character. *)
Lemma findMatchedGlyph_storeEntry env dbGlyphs char :
  findMatchedGlyph env dbGlyphs char = storeEntry env dbGlyphs char.
Proof.
  unfold findMatchedGlyph, storeEntry, exactEntry.
  destruct (find (fun g => str_eqb (glyph_symbol g) char) dbGlyphs) eqn:E; [reflexivity |].
  destruct char as [| c char]; [reflexivity |].
  change (0 <? length (c :: char))%nat with true. cbv iota.
  apply find_agree. intros g Hg.
  pose proof (find_none _ _ E g Hg) as Hne. cbn beta in Hne. rewrite Hne.
  rewrite orb_false_r.
  unfold sameFirstUnit, nameMentions, charCodeAt0, code_eqb.
  now destruct (glyph_symbol g).
Qed.

Lemma truthy_nonempty (s : jsstring) : (0 <? length s)%nat = truthy s.
Proof. now destruct s. Qed.

(** The last-resort lookup returns what the answer to its request holds. *)
Lemma singleCharacterLookup_lookupAnswer env char l :
  singleCharacterLookup env char l =
  (inr (lookupAnswer env char (length l)),
   l ++ (if truthy (keyOf env) then [lookupRequest env char] else [])).
Proof.
  unfold singleCharacterLookup, lookupAnswer, lookupRequest, keyOf.
  destruct (truthy (or_str (GOOGLE_GEMINI_API_KEY env) []));
    [| unfold ret; now rewrite app_nil_r].
  unfold try_catch, bind, httpsRequest, answeredText.
  destruct (network env (length l) _) as [m | st body]; [reflexivity |].
  unfold response_ok. cbn [response_status].
  destruct ((200 <=? st) && (st <? 300))%Z; [| now destruct body].
  unfold response_json. cbn [response_body]. destruct body as [m | b]; [reflexivity |].
  unfold ret. rewrite truthy_nonempty. now destruct (truthy _).
Qed.

Lemma lookupAnswer_truthy env char n :
  truthy_opt (lookupAnswer env char n) =
  match lookupAnswer env char n with Some _ => true | None => false end.
Proof.
  unfold lookupAnswer. destruct (truthy (keyOf env)); [| reflexivity].
  destruct (answeredText _) as [t |]; [| reflexivity].
  destruct (truthy (trim t)) eqn:Ht; [| reflexivity]. exact Ht.
Qed.

(** *** Recording meanings *)

Lemma dict_get_put d k v c :
  dict_get (dict_put d k v) c = if str_eqb c k then Some v else dict_get d c.
Proof.
  induction d as [| [k' v'] d IH]; cbn [dict_put dict_get]; [reflexivity |].
  destruct (str_eqb k k') eqn:E.
  - apply str_eqb_eq in E. subst k'. cbn [dict_get]. now destruct (str_eqb c k).
  - cbn [dict_get]. rewrite IH.
    destruct (str_eqb c k') eqn:E1, (str_eqb c k) eqn:E2; try reflexivity.
    apply str_eqb_eq in E1, E2. subst. now rewrite str_eqb_refl in E.
Qed.

Lemma lastGiven_cons x given c :
  lastGiven (x :: given) c =
  match lastGiven given c with
  | Some v => Some v
  | None => if str_eqb c (fst x) then Some (snd x) else None
  end.
Proof.
  unfold lastGiven. cbn [rev]. rewrite find_over_app.
  destruct (find _ (rev given)); [reflexivity |]. cbn [find].
  now destruct (str_eqb c (fst x)).
Qed.

Lemma recordAll_app d a b : recordAll d (a ++ b) = recordAll (recordAll d a) b.
Proof. unfold recordAll. apply fold_left_app. Qed.

Lemma recordAll_filter given : forall d,
  recordAll d (filter recordable given) = recordAll d given.
Proof.
  induction given as [| [k v] given IH]; intros d; [reflexivity |].
  cbn [filter]. unfold recordable at 1. cbn [fst].
  destruct (str_eqb k (js "__proto__")) eqn:E; cbn [negb].
  - rewrite IH. unfold recordAll at 2. cbn [fold_left fst snd].
    unfold dict_set. now rewrite E.
  - unfold recordAll at 1 2. cbn [fold_left fst snd]. apply IH.
Qed.

(** Looking a character up among recorded meanings gives the last one. *)
Lemma dict_get_recordAll given : forall d c,
  dict_get (recordAll d given) c =
  match lastGiven (filter recordable given) c with
  | Some v => Some v
  | None => dict_get d c
  end.
Proof.
  induction given as [| [k v] given IH]; intros d c; [reflexivity |].
  change (recordAll d ((k, v) :: given)) with (recordAll (dict_set d k v) given).
  rewrite IH. cbn [filter]. unfold recordable at 2, dict_set. cbn [fst].
  destruct (str_eqb k (js "__proto__")); cbn [negb]; [reflexivity |].
  rewrite lastGiven_cons. cbn [fst snd].
  destruct (lastGiven (filter recordable given) c); [reflexivity |].
  rewrite dict_get_put. now destruct (str_eqb c k).
Qed.

Lemma dict_put_nonempty d k v : dict_put d k v <> [].
Proof. destruct d as [| [k' v'] d]; cbn; [| destruct (str_eqb k k')]; discriminate. Qed.

Lemma recordAll_nonempty given : forall d, d <> [] -> recordAll d given <> [].
Proof.
  induction given as [| [k v] given IH]; intros d Hd; [exact Hd |].
  change (recordAll d ((k, v) :: given)) with (recordAll (dict_set d k v) given).
  apply IH. unfold dict_set. destruct (str_eqb k (js "__proto__")); [exact Hd |].
  apply dict_put_nonempty.
Qed.

(** Nothing is recorded exactly when no recordable meaning is given. *)
Lemma recordAll_empty given :
  (length (recordAll [] (filter recordable given)) =? 0)%nat =
  match filter recordable given with [] => true | _ :: _ => false end.
Proof.
  induction given as [| [k v] given IH]; [reflexivity |].
  cbn [filter]. destruct (recordable (k, v)) eqn:E; [| exact IH].
  change (recordAll [] ((k, v) :: filter recordable given))
    with (recordAll (dict_set [] k v) (filter recordable given)).
  unfold recordable in E. cbn [fst] in E. apply negb_true_iff in E.
  unfold dict_set. rewrite E. cbn [dict_put].
  pose proof (recordAll_nonempty (filter recordable given) [(k, v)]) as Hne.
  destruct (recordAll [(k, v)] (filter recordable given)); [| reflexivity].
  now exfalso; apply Hne.
Qed.

Lemma filter_twice {A} (f : A -> bool) l : filter f (filter f l) = filter f l.
Proof.
  induction l as [| a l IH]; [reflexivity |]. cbn [filter].
  destruct (f a) eqn:E; [| exact IH]. cbn [filter]. now rewrite E, IH.
Qed.

Lemma givenBy_recordable env o : filter recordable (givenBy env o) = givenBy env o.
Proof.
  unfold givenBy. destruct (answeredText o); [apply filter_twice | reflexivity].
Qed.

Lemma givenByBatches_recordable env batches : forall n,
  filter recordable (givenByBatches env batches n) = givenByBatches env batches n.
Proof.
  induction batches as [| b bs IH]; intros n; [reflexivity |].
  cbn [givenByBatches]. now rewrite filter_app, givenBy_recordable, IH.
Qed.

(** What the code absorbs from a text is what the text states. *)
Lemma absorbResponseText_recordAll env d responseText :
  absorbResponseText env d responseText = recordAll d (statedIn env responseText).
Proof.
  unfold absorbResponseText, statedIn.
  destruct (parseMeanings env responseText) as [| entries |]; [reflexivity | |].
  - unfold addParsedEntries. revert d.
    induction entries as [| [k [m |]] entries IH]; intros d; [reflexivity | |].
    + cbn [fold_left flat_map fst snd]. rewrite truthy_nonempty, IH.
      destruct (truthy (trim m)); [| reflexivity].
      now rewrite recordAll_app.
    + cbn [fold_left flat_map fst snd]. now rewrite IH.
  - unfold addLineMatches. revert d.
    induction (split_lines responseText) as [| line lines IH]; intros d; [reflexivity |].
    cbn [fold_left flat_map]. rewrite IH.
    destruct (matchMeaningLine env line) as [[k v] |]; [| reflexivity].
    now rewrite recordAll_app.
Qed.

(** One request for meanings: its answer's meanings are recorded, and a
    failure leaves the record as it was. *)
Lemma meaningsRequest_given env req d l :
  try_catch
    (response <- httpsRequest env req ;;
     if response_ok response then
       data <- response_json response ;;
       ret (absorbResponseText env d (or_str (candidateText data) []))
     else ret d)
    (fun _ => ret d) l
  = (inr (recordAll d (givenBy env (network env (length l) req))), l ++ [req]).
Proof.
  unfold try_catch, bind, httpsRequest, givenBy, answeredText.
  destruct (network env (length l) req) as [m | st body]; [reflexivity |].
  unfold response_ok. cbn [response_status].
  destruct ((200 <=? st) && (st <? 300))%Z; [| now destruct body].
  unfold response_json. cbn [response_body]. destruct body as [m | b]; [reflexivity |].
  unfold ret. now rewrite absorbResponseText_recordAll, recordAll_filter.
Qed.

Lemma meaningsFallbackLoop_given env batches : forall d l,
  meaningsFallbackLoop env (keyOf env) batches d l =
  (inr (recordAll d (givenByBatches env batches (length l))),
   l ++ map (batchRequest env) batches).
Proof.
  induction batches as [| b bs IH]; intros d l.
  - cbn. unfold ret. now rewrite app_nil_r.
  - cbn [meaningsFallbackLoop givenByBatches map].
    rewrite (bind_inr _ _ l _ _ (meaningsRequest_given env _ d l)).
    rewrite IH, length_app, recordAll_app, <- app_assoc. cbn [length app].
    now rewrite Nat.add_1_r.
Qed.

Lemma skipn_nonempty {A} i (l : list A) :
  (i <? length l)%nat = match skipn i l with [] => false | _ :: _ => true end.
Proof.
  revert l. induction i as [| i IH]; intros [| a l]; try reflexivity.
  cbn [skipn length]. rewrite <- IH. reflexivity.
Qed.

(** The loop over the unique characters takes them in runs. *)
Lemma batchesFrom_runsOf n (l : list jsstring) : forall turns i,
  batchesFrom turns i (S n) l = runsOf turns (S n) (skipn i l).
Proof.
  induction turns as [| turns IH]; intros i; [reflexivity |].
  cbn [batchesFrom runsOf]. rewrite skipn_nonempty.
  destruct (skipn i l) as [| a rest] eqn:E; [reflexivity |].
  rewrite IH. unfold slice. rewrite E. f_equal. f_equal.
  rewrite <- E, skipn_skipn. f_equal. lia.
Qed.

(** The dictionary of meanings holds, for every character, the last
    meaning the service's answers give it, and the requests issued are the
    ones of [consulted]. *)
Lemma getCharacterMeanings_given env text ctx l :
  exists meanings,
    getCharacterMeanings env text ctx l =
    (inr meanings, l ++ snd (consulted env text ctx (length l)))
    /\ forall char,
         dict_get meanings char = lastGiven (fst (consulted env text ctx (length l))) char.
Proof.
  unfold getCharacterMeanings, consulted.
  destruct text as [| c text].
  { exists []. cbn. destruct (truthy (keyOf env)); cbn; rewrite app_nil_r; now split. }
  cbn [truthy negb].
  destruct (uniqueCharsOf (c :: text)) as [| u us] eqn:Hu.
  { exists []. cbn. destruct (truthy (keyOf env)); cbn; rewrite app_nil_r; now split. }
  rewrite <- Hu.
  replace (length (uniqueCharsOf (c :: text)) =? 0)%nat with false by now rewrite Hu.
  replace (0 <? length (uniqueCharsOf (c :: text)))%nat with true by now rewrite Hu.
  fold (keyOf env).
  destruct (truthy (keyOf env)) eqn:Hkey.
  2:{ exists []. unfold bind, ret. cbn. rewrite app_nil_r. now split. }
  pose (uniq := uniqueCharsOf (c :: text)).
  assert (Hfallback : forall l1,
             meaningsFallbackLoop env (keyOf env)
               (batchesFrom (length uniq) 0 20 uniq) [] l1 =
             (inr (recordAll [] (givenByBatches env (runsOf (length uniq) 20 uniq) (length l1))),
              l1 ++ map (batchRequest env) (runsOf (length uniq) 20 uniq))).
  { intros l1. rewrite meaningsFallbackLoop_given.
    now rewrite (batchesFrom_runsOf 19 uniq (length uniq) 0). }
  assert (Hlooked : forall given char,
             filter recordable given = given ->
             dict_get (recordAll [] given) char = lastGiven given char).
  { intros given char Hg. rewrite dict_get_recordAll, Hg.
    now destruct (lastGiven given char). }
  fold uniq in Hfallback |- *.
  destruct (quotedContext ctx) as [context |] eqn:Hctx.
  - assert (Hfirst :
      (if true then
         try_catch
           (let estimatedTokens := Z.min (Z.max 800 (Z.of_nat (length uniq) * 60)) 8000 in
            context <-
              match ctx with
              | None => ret None
              | Some (VString s) => ret (if truthy s then Some (substring0 500 s) else None)
              | Some (VInherited _) =>
                  throw (js "translationContext.substring is not a function")
              end ;;
            response <- httpsRequest env
                          (GeminiMeanings (keyOf env) uniq estimatedTokens context) ;;
            if response_ok response then
              data <- response_json response ;;
              ret (absorbResponseText env [] (or_str (candidateText data) []))
            else ret [])
           (fun _ => ret [])
       else ret []) l =
      (inr (recordAll [] (givenBy env (network env (length l) (allAtOnce env uniq context)))),
       l ++ [allAtOnce env uniq context])).
    { destruct ctx as [[s | x] |]; cbn in Hctx; try discriminate;
        injection Hctx as <-;
        exact (meaningsRequest_given env (allAtOnce env uniq _) [] l). }
    rewrite (bind_inr _ _ l _ _ Hfirst). cbn [fst snd]. rewrite !andb_true_r.
    rewrite <- (givenBy_recordable env (network env (length l) (allAtOnce env uniq context))).
    rewrite recordAll_empty.
    rewrite !givenBy_recordable.
    destruct (givenBy env (network env (length l) (allAtOnce env uniq context)))
      as [| g gs] eqn:Hg.
    + rewrite Hfallback. eexists. split.
      * rewrite <- app_assoc. rewrite length_app. cbn [length snd]. reflexivity.
      * intros char. cbn [fst snd length]. apply Hlooked.
        apply givenByBatches_recordable.
    + eexists. split; [reflexivity |].
      intros char. cbn [fst]. apply Hlooked. rewrite <- Hg. apply givenBy_recordable.
  - destruct ctx as [[s | x] |]; cbn in Hctx; try discriminate.
    unfold bind at 1, try_catch at 1. cbn [throw bind ret].
    cbn [length Nat.eqb fst snd app andb]. rewrite Hfallback.
    eexists. split; [reflexivity |].
    intros char. rewrite Nat.add_0_r. apply Hlooked. apply givenByBatches_recordable.
Qed.

(** One turn of the loop follows the tiered rule. *)
Lemma matchCharacter_tier env aiMeanings fresh dbGlyphs i char l :
  (forall c, aiMeaningOf aiMeanings c = fresh c) ->
  forallb (fun g => negb (PrimFloat.is_nan (glyph_confidence g))) dbGlyphs = true ->
  qualifying char = true ->
  exists g,
    matchCharacter env aiMeanings dbGlyphs i char l =
    (inr (Some g),
     l ++ lookupRequests env (fresh char) (storeEntry env dbGlyphs char) char)
    /\ gm_symbol g = char
    /\ gm_position g = i
    /\ gm_confidence g =
         tiered_confidence (fresh char) (storeEntry env dbGlyphs char)
           (lookupAnswer env char (length l))
    /\ (forall m, fresh char = Some m -> gm_meaning g = Some m)
    /\ gm_meaning g <> None.
Proof.
  intros Hai Hnum Hq. unfold qualifying in Hq. apply negb_true_iff in Hq.
  pose proof (findMatchedGlyph_in env dbGlyphs char) as Hin.
  unfold matchCharacter. rewrite Hq.
  rewrite findMatchedGlyph_storeEntry in Hin |- *. rewrite !Hai.
  destruct (storeEntry env dbGlyphs char) as [matched |] eqn:Hfind;
    destruct (fresh char) as [m |] eqn:Hf.
  - eexists. split; [unfold ret; cbn [lookupRequests]; now rewrite app_nil_r |].
    cbn [gm_symbol gm_position gm_confidence gm_meaning].
    split; [reflexivity |]. split; [reflexivity |]. split; [reflexivity |].
    split; [now intros m' [= <-] | discriminate].
  - specialize (Hin matched eq_refl).
    rewrite forallb_forall in Hnum. specialize (Hnum _ Hin).
    apply negb_true_iff in Hnum.
    eexists. split; [unfold ret; cbn [lookupRequests]; now rewrite app_nil_r |].
    cbn [gm_symbol gm_position gm_confidence gm_meaning].
    split; [reflexivity |]. split; [reflexivity |]. split.
    + unfold tiered_confidence, hasStoredMeaning.
      destruct (truthy_opt (dbMeaningOf matched)
                && negb (isPlaceholderMeaning (dbMeaningOf matched)));
        [now apply Math_max_or_num | reflexivity].
    + split; [discriminate | discriminate].
  - eexists. split; [unfold ret; cbn [lookupRequests]; now rewrite app_nil_r |].
    cbn [gm_symbol gm_position gm_confidence gm_meaning].
    split; [reflexivity |]. split; [reflexivity |]. split; [reflexivity |].
    split; [now intros m' [= <-] | discriminate].
  - rewrite (bind_inr _ _ l _ _ (singleCharacterLookup_lookupAnswer env char l)).
    eexists. split; [reflexivity |].
    cbn [gm_symbol gm_position gm_confidence gm_meaning].
    split; [reflexivity |]. split; [reflexivity |]. split.
    + unfold tiered_confidence. rewrite lookupAnswer_truthy.
      now destruct (lookupAnswer env char (length l)).
    + split; [discriminate | discriminate].
Qed.

Lemma matchLoop_tier env aiMeanings fresh dbGlyphs chars :
  (forall c, aiMeaningOf aiMeanings c = fresh c) ->
  forallb (fun g => negb (PrimFloat.is_nan (glyph_confidence g))) dbGlyphs = true ->
  forall i l, exists gs l',
    matchLoop env aiMeanings dbGlyphs i chars l = (inr gs, l')
    /\ TierRule env fresh dbGlyphs i chars l gs l'.
Proof.
  intros Hai Hnum. induction chars as [| char chars IH]; intros i l.
  - exists [], l. split; [reflexivity | constructor].
  - cbn [matchLoop]. destruct (qualifying char) eqn:Hq.
    + destruct (matchCharacter_tier env aiMeanings fresh dbGlyphs i char l Hai Hnum Hq)
        as (g & E & Hs & Hp & Hc & Hm & Hne).
      destruct (IH (i + 1)%Z
                  (l ++ lookupRequests env (fresh char) (storeEntry env dbGlyphs char) char))
        as (gs & l' & E' & HT).
      exists (g :: gs), l'. split.
      * unfold bind. rewrite E, E'. reflexivity.
      * now apply tier_emit.
    + destruct (IH (i + 1)%Z l) as (gs & l' & E' & HT).
      exists gs, l'. split.
      * unfold bind, matchCharacter. unfold qualifying in Hq.
        apply negb_false_iff in Hq. rewrite Hq. unfold ret. now rewrite E'.
      * now apply tier_skip.
Qed.

(** C1, as amended. Every call of [matchGlyphs] returns, and the matches
    it emits are those of the tiered rule: one per qualifying character, in
    order, each with its position, with confidence 0.85 when the semantic
    service gave the character a meaning (the last non-empty one its
    answers give, [freshMeaning]); else max(stored confidence, 0.75) when
    the character has a store entry with a non-placeholder meaning, the
    store entry being the first glyph with that symbol or, failing that,
    the first glyph that starts with the same UTF-16 code unit or whose
    name mentions the character ([storeEntry]); else 0.70 when there is no
    store entry and the last-resort lookup gives a text that is not blank
    ([lookupAnswer]); else 0.60.  The meaning of the match is the fresh
    meaning whenever there is one.  The requests issued are those to the
    semantic service, then one last-resort lookup per character with no
    fresh meaning and no store entry.  The stored confidences are numbers
    (not NaN). *)
Theorem matchGlyphs_tiered_confidence :
  forall env text db translationContext log,
    storedNumbersAreNumbers db = true ->
    exists glyphs log',
      matchGlyphs env text db translationContext log = (inr glyphs, log')
      /\ TierRule env (freshMeaning env text translationContext (length log))
           (Store.glyphs db) 0 (Array_from (stripWhiteSpace text))
           (log ++ snd (consulted env text translationContext (length log)))
           glyphs log'.
Proof.
  intros env text db ctx log Hnum.
  unfold matchGlyphs. destruct (truthy text) eqn:Ht; cbn [negb].
  - destruct (getCharacterMeanings_given env text ctx log) as (ai & Eai & Hget).
    rewrite (bind_inr _ _ log _ _ Eai).
    apply matchLoop_tier; [| exact Hnum].
    intros c. unfold aiMeaningOf, freshMeaning. now rewrite Hget.
  - destruct text; [| discriminate].
    exists [], log. split; [reflexivity |].
    replace (snd (consulted env [] ctx (length log))) with (@nil Request)
      by (unfold consulted; now destruct (truthy (keyOf env))).
    rewrite app_nil_r. constructor.
Qed.

(** ** extractTextWithGemini and extractTextFromImage *)

(** One configuration: it yields its text, or the loop goes on with the
    error it captured, if any.  Either way exactly one request is issued. *)
Lemma geminiAttempt_outcome env apiKey base64Image config lastError l :
  geminiAttempt env apiKey base64Image config lastError l =
  (inr match yieldsText (network env (length l) (GeminiOCR apiKey config base64Image)) with
       | Some t => inr (mkOCR (trim t) 0.90 gemini None)
       | None =>
           inl (nextError lastError
                  (network env (length l) (GeminiOCR apiKey config base64Image)))
       end,
   l ++ [GeminiOCR apiKey config base64Image]).
Proof.
  unfold geminiAttempt, try_catch, bind, httpsRequest, nextError, yieldsText, capturedError.
  destruct (network env (length l) _) as [m | st body]; [reflexivity |].
  cbn [response_status].
  destruct (st =? 404)%Z; [reflexivity |].
  destruct (st =? 429)%Z; [reflexivity |]. cbn [orb].
  destruct (response_ok (mkResponse st body)); cbn [negb].
  - unfold response_json. cbn [response_body].
    destruct body as [m | b]; [reflexivity |]. unfold ret.
    now destruct (truthy (or_str (candidateText b) [])).
  - unfold response_json. cbn [response_body].
    now destruct body as [m | b].
Qed.

(** The loop over the configurations, in closed form. *)
Lemma geminiLoop_outcome env apiKey base64Image configs :
  forall lastError l,
    geminiLoop env apiKey base64Image configs lastError l =
    match firstYield (outcomesFrom env (length l) (ocrRequestsOf apiKey base64Image configs)) with
    | Some (k, t) =>
        (inr (mkOCR (trim t) 0.90 gemini None),
         l ++ firstn (S k) (ocrRequestsOf apiKey base64Image configs))
    | None =>
        (inr (mkOCR [] 0 gemini
                (Some (or_str
                         (fold_left nextError
                            (outcomesFrom env (length l)
                               (ocrRequestsOf apiKey base64Image configs))
                            lastError)
                         (js "Unknown Gemini API error")))),
         l ++ ocrRequestsOf apiKey base64Image configs)
    end.
Proof.
  induction configs as [| config configs IH]; intros lastError l.
  - cbn. now rewrite app_nil_r.
  - cbn [geminiLoop ocrRequestsOf map outcomesFrom firstYield fold_left].
    unfold bind. rewrite geminiAttempt_outcome.
    destruct (yieldsText (network env (length l) _)) as [t |] eqn:Hy.
    + reflexivity.
    + rewrite IH. rewrite length_app. cbn [length]. rewrite Nat.add_1_r.
      fold (ocrRequestsOf apiKey base64Image configs).
      destruct (firstYield _) as [[k t] |].
      * cbn [firstn]. now rewrite <- app_assoc.
      * now rewrite <- app_assoc.
Qed.

Lemma firstn_min_length {A} n (l : list A) : firstn (Nat.min n (length l)) l = firstn n l.
Proof.
  destruct (Nat.le_ge_cases n (length l)) as [H | H].
  - now rewrite Nat.min_l.
  - rewrite Nat.min_r by assumption. rewrite firstn_all.
    symmetry. now apply firstn_all2.
Qed.

(** The verification pass issues one request and returns the text it was
    given, whatever the response. *)
Lemma postProcess_returns_its_input env text l :
  truthy text = true ->
  postProcessWithAncientChineseModels env text l = (inr text, l ++ [verifyRequest env text]).
Proof.
  intros Ht. unfold postProcessWithAncientChineseModels, verifyRequest, substring0.
  rewrite Ht. cbn [negb]. rewrite firstn_min_length.
  unfold bind, try_catch, httpsRequest.
  destruct (network env (length l) _) as [m | st body]; [reflexivity |].
  destruct (response_ok (mkResponse st body)); [| reflexivity].
  unfold response_json. cbn [response_body]. now destruct body.
Qed.

Lemma applyPostProcessing_same_text result :
  applyPostProcessing result (ocr_text result) = result.
Proof.
  unfold applyPostProcessing. rewrite str_eqb_refl. cbn [negb].
  now rewrite andb_false_r.
Qed.

(** [extractTextFromImage] in terms of what [extractTextWithGemini] does. *)
Lemma extractTextFromImage_with_key env imagePath l :
  truthy_opt (GOOGLE_GEMINI_API_KEY env) = true ->
  extractTextFromImage env imagePath l =
  match extractTextWithGemini env imagePath l with
  | (inr result, l1) =>
      if truthy (ocr_text result)
      then (inr result, l1 ++ [verifyRequest env (ocr_text result)])
      else (inr allMethodsFailed, l1)
  | (inl _, l1) => (inr allMethodsFailed, l1)
  end.
Proof.
  intros Hkey. unfold extractTextFromImage, ocrMethods. rewrite Hkey.
  cbn [tryMethods method_fn]. unfold bind at 1. unfold try_catch at 1. unfold bind at 1.
  destruct (extractTextWithGemini env imagePath l) as [[e | result] l1]; [reflexivity |].
  destruct (truthy (ocr_text result)) eqn:Ht; [| reflexivity].
  unfold bind, try_catch.
  rewrite (postProcess_returns_its_input env _ l1 Ht).
  unfold ret. now rewrite applyPostProcessing_same_text.
Qed.

Lemma extractTextFromImage_without_key env imagePath l :
  truthy_opt (GOOGLE_GEMINI_API_KEY env) = false ->
  extractTextFromImage env imagePath l = (inr allMethodsFailed, l).
Proof.
  intros Hkey. unfold extractTextFromImage, ocrMethods. now rewrite Hkey.
Qed.

Lemma extractTextWithGemini_with_key env imagePath apiKey base64Image l :
  GOOGLE_GEMINI_API_KEY env = Some apiKey ->
  truthy apiKey = true ->
  readFile env imagePath = inr base64Image ->
  extractTextWithGemini env imagePath l =
  geminiLoop env apiKey base64Image apiConfigs None l.
Proof.
  intros Hk Ht Hr. unfold extractTextWithGemini. now rewrite Hk, Ht, Hr.
Qed.

(** C2, as amended. With an API key and a readable image, the
    configurations are tried in order, each at most once.  At the first one
    that yields text which is not blank, [extractTextFromImage] returns
    that text, trimmed, with confidence 0.90, and no later configuration is
    requested: the log holds the requests of the configurations up to that
    one, then the verification request.  When the first configuration
    that yields text yields white space only, the search ends there too:
    [extractTextWithGemini] returns the trimmed, empty text and
    [extractTextFromImage] gives its failure result at once, with no later
    configuration and no verification requested.  When no configuration
    yields text, [extractTextWithGemini] gives empty text, confidence 0
    and the last captured error message (a default one when none was
    captured), and [extractTextFromImage] gives empty text, confidence 0
    and its own fixed message, each configuration having been requested
    exactly once. *)
Theorem extractTextFromImage_first_success_or_failure :
  forall env imagePath log apiKey base64Image,
    GOOGLE_GEMINI_API_KEY env = Some apiKey ->
    truthy apiKey = true ->
    readFile env imagePath = inr base64Image ->
    (forall k t,
        firstYield (outcomesFrom env (length log) (ocrRequests apiKey base64Image))
          = Some (k, t) ->
        truthy (trim t) = true ->
        extractTextFromImage env imagePath log =
        (inr (mkOCR (trim t) 0.90 gemini None),
         log ++ firstn (S k) (ocrRequests apiKey base64Image)
             ++ [verifyRequest env (trim t)]))
    /\ (forall k t,
          firstYield (outcomesFrom env (length log) (ocrRequests apiKey base64Image))
            = Some (k, t) ->
          truthy (trim t) = false ->
          extractTextWithGemini env imagePath log =
          (inr (mkOCR [] 0.90 gemini None),
           log ++ firstn (S k) (ocrRequests apiKey base64Image))
          /\ extractTextFromImage env imagePath log =
             (inr (mkOCR [] 0 fallback
                     (Some (js "All OCR methods failed. Please ensure the image is clear and contains readable text."))),
              log ++ firstn (S k) (ocrRequests apiKey base64Image)))
    /\ (firstYield (outcomesFrom env (length log) (ocrRequests apiKey base64Image)) = None ->
        extractTextWithGemini env imagePath log =
        (inr (mkOCR [] 0 gemini
                (Some (or_str
                         (lastCaptured
                            (outcomesFrom env (length log) (ocrRequests apiKey base64Image)))
                         (js "Unknown Gemini API error")))),
         log ++ ocrRequests apiKey base64Image)
        /\ extractTextFromImage env imagePath log =
           (inr (mkOCR [] 0 fallback
                   (Some (js "All OCR methods failed. Please ensure the image is clear and contains readable text."))),
            log ++ ocrRequests apiKey base64Image)).
Proof.
  intros env imagePath log apiKey base64Image Hk Ht Hr.
  assert (Hkey : truthy_opt (GOOGLE_GEMINI_API_KEY env) = true) by now rewrite Hk.
  pose proof (extractTextWithGemini_with_key env imagePath apiKey base64Image log Hk Ht Hr) as HG.
  rewrite geminiLoop_outcome in HG.
  change (ocrRequestsOf apiKey base64Image apiConfigs)
    with (ocrRequests apiKey base64Image) in HG.
  split; [| split].
  - intros k t Hy Htrim. rewrite Hy in HG.
    rewrite (extractTextFromImage_with_key env imagePath log Hkey), HG.
    cbn [ocr_text]. rewrite Htrim. now rewrite <- app_assoc.
  - intros k t Hy Htrim. rewrite Hy in HG.
    assert (Hblank : trim t = []) by (destruct (trim t); [reflexivity | discriminate]).
    rewrite Hblank in HG. split; [exact HG |].
    rewrite (extractTextFromImage_with_key env imagePath log Hkey), HG.
    reflexivity.
  - intros Hy. rewrite Hy in HG. split; [exact HG |].
    rewrite (extractTextFromImage_with_key env imagePath log Hkey), HG.
    reflexivity.
Qed.

Lemma geminiLoop_result_shape env apiKey base64Image configs lastError l result l1 :
  geminiLoop env apiKey base64Image configs lastError l = (inr result, l1) ->
  truthy (ocr_text result) = true ->
  ocr_confidence result = 0.90.
Proof.
  rewrite geminiLoop_outcome.
  destruct (firstYield _) as [[k t] |]; intros [= <- <-]; [reflexivity | discriminate].
Qed.

Lemma extractTextWithGemini_result_shape env imagePath l result l1 :
  extractTextWithGemini env imagePath l = (inr result, l1) ->
  truthy (ocr_text result) = true ->
  ocr_confidence result = 0.90.
Proof.
  unfold extractTextWithGemini.
  destruct (GOOGLE_GEMINI_API_KEY env) as [apiKey |]; [| discriminate].
  destruct (truthy apiKey); [| discriminate].
  destruct (readFile env imagePath) as [e | base64Image]; [discriminate |].
  apply geminiLoop_result_shape.
Qed.

(** A successful extraction is the OCR method's result, untouched. *)
Lemma extractTextFromImage_success env imagePath l result l' :
  extractTextFromImage env imagePath l = (inr result, l') ->
  truthy (ocr_text result) = true ->
  exists l1, extractTextWithGemini env imagePath l = (inr result, l1).
Proof.
  destruct (truthy_opt (GOOGLE_GEMINI_API_KEY env)) eqn:Hkey.
  - rewrite (extractTextFromImage_with_key env imagePath l Hkey).
    destruct (extractTextWithGemini env imagePath l) as [[e | r] l1].
    + intros [= <- <-]. discriminate.
    + destruct (truthy (ocr_text r)) eqn:Hr.
      * intros [= <- <-] _. now exists l1.
      * intros [= <- <-]. discriminate.
  - rewrite (extractTextFromImage_without_key env imagePath l Hkey).
    intros [= <- <-]. discriminate.
Qed.

(** C8. After a successful extraction the verification pass leaves the
    result as the OCR method produced it: same text, same confidence
    (0.90).  And the adjustment step of the pass, whatever text it were
    given, never lowers that confidence, raises it by at most 0.05, and
    never takes it above 0.95. *)
Theorem verification_pass_never_lowers_confidence :
  forall env imagePath log result log',
    extractTextFromImage env imagePath log = (inr result, log') ->
    truthy (ocr_text result) = true ->
    (exists l1, extractTextWithGemini env imagePath log = (inr result, l1))
    /\ ocr_confidence result = 0.90
    /\ forall improvedText,
         PrimFloat.leb (ocr_confidence result)
           (ocr_confidence (applyPostProcessing result improvedText)) = true
         /\ PrimFloat.leb
              (ocr_confidence (applyPostProcessing result improvedText)
               - ocr_confidence result) 0.05 = true
         /\ PrimFloat.leb (ocr_confidence (applyPostProcessing result improvedText)) 0.95
            = true
         /\ (ocr_text (applyPostProcessing result improvedText) = ocr_text result
             \/ ocr_text (applyPostProcessing result improvedText) = improvedText).
Proof.
  intros env imagePath log result log' HE Ht.
  destruct (extractTextFromImage_success env imagePath log result log' HE Ht) as [l1 HG].
  pose proof (extractTextWithGemini_result_shape env imagePath log result l1 HG Ht) as Hc.
  split; [now exists l1 |]. split; [exact Hc |].
  intros improvedText. unfold applyPostProcessing.
  destruct (truthy improvedText && negb (str_eqb improvedText (ocr_text result)));
    cbn [ocr_confidence ocr_text]; rewrite Hc; repeat split; auto.
Qed.

(** ** No stage after the extraction throws *)

Lemma extractTextFromImage_returns env imagePath : returns (extractTextFromImage env imagePath).
Proof.
  intros l. destruct (truthy_opt (GOOGLE_GEMINI_API_KEY env)) eqn:Hkey.
  - rewrite (extractTextFromImage_with_key env imagePath l Hkey).
    destruct (extractTextWithGemini env imagePath l) as [[e | r] l1]; [now eexists _, _ |].
    destruct (truthy (ocr_text r)); now eexists _, _.
  - rewrite (extractTextFromImage_without_key env imagePath l Hkey). now eexists _, _.
Qed.

Lemma translateLoop_returns env apiKey text glyphs configs :
  returns (translateLoop env apiKey text glyphs configs).
Proof.
  induction configs as [| config configs IH]; simpl.
  - apply returns_ret.
  - apply returns_bind.
    + apply returns_try_catch. intros e. apply returns_ret.
    + intros [r |]; [apply returns_ret | apply IH].
Qed.

Lemma generateTranslation_returns env text glyphs :
  returns (generateTranslation env text glyphs).
Proof.
  unfold generateTranslation.
  destruct (negb (truthy text)); [apply returns_ret |].
  destruct (truthy (or_str (GOOGLE_GEMINI_API_KEY env) []));
    [apply translateLoop_returns | apply returns_ret].
Qed.

Lemma matchCharacter_returns env aiMeanings dbGlyphs i char :
  returns (matchCharacter env aiMeanings dbGlyphs i char).
Proof.
  unfold matchCharacter.
  destruct (existsb isPunctuation char); [apply returns_ret |].
  destruct (findMatchedGlyph env dbGlyphs char); [apply returns_ret |].
  destruct (aiMeaningOf aiMeanings char); [apply returns_ret |].
  apply returns_bind; [| intros a; apply returns_ret].
  intros l. destruct (singleCharacterLookup_result env char l) as (r & l1 & E & _).
  now exists r, l1.
Qed.

Lemma matchLoop_returns env aiMeanings dbGlyphs chars :
  forall i, returns (matchLoop env aiMeanings dbGlyphs i chars).
Proof.
  induction chars as [| char chars IH]; intros i; simpl.
  - apply returns_ret.
  - apply returns_bind; [apply matchCharacter_returns |].
    intros g. apply returns_bind; [apply IH | intros gs; apply returns_ret].
Qed.

Lemma matchGlyphs_returns env text db ctx : returns (matchGlyphs env text db ctx).
Proof.
  unfold matchGlyphs. destruct (negb (truthy text)); [apply returns_ret |].
  apply returns_bind; [apply getCharacterMeanings_returns |].
  intros ai. apply matchLoop_returns.
Qed.

(** [processAncientText] throws exactly when the extraction gave no text
    and the development fallback is off. *)
Lemma processAncientText_throws_iff env imagePath db l ocr l1 :
  extractTextFromImage env imagePath l = (inr ocr, l1) ->
  (exists e l', processAncientText env imagePath db l = (inl e, l'))
  <-> (truthy (ocr_text ocr) = false /\ devFallbackEnabled env = false).
Proof.
  intros HE. unfold processAncientText. unfold bind at 1. rewrite HE.
  destruct (truthy (ocr_text ocr)) eqn:Ht; cbn [negb].
  - split; [| intros [? _]; discriminate].
    intros (e & l' & H). exfalso. revert H.
    destruct (generateTranslation_returns env (ocr_text ocr) [] l1) as (tr & l2 & E2).
    unfold bind at 1. rewrite E2.
    destruct (matchGlyphs_returns env (ocr_text ocr) db (Some (translation tr)) l2)
      as (gs & l3 & E3).
    unfold bind. rewrite E3. discriminate.
  - destruct (devFallbackEnabled env).
    + split; [intros (e & l' & H); discriminate | intros [_ ?]; discriminate].
    + split; [auto |]. intros _. now eexists _, _.
Qed.

(** ** The POST handler of the process route *)

Lemma find_upload_map i j s us :
  find (fun u => Nat.eqb (upload_id u) j)
       (map (fun u => if Nat.eqb (upload_id u) i then withStatus u s else u) us)
  = option_map (fun u => if Nat.eqb (upload_id u) i then withStatus u s else u)
      (find (fun u => Nat.eqb (upload_id u) j) us).
Proof.
  induction us as [| u us IH]; [reflexivity |]. cbn [map find].
  replace (upload_id (if Nat.eqb (upload_id u) i then withStatus u s else u))
    with (upload_id u) by now destruct (Nat.eqb (upload_id u) i).
  destruct (Nat.eqb (upload_id u) j); [reflexivity | exact IH].
Qed.

Lemma statusOf_updateUploadStatus db i s u :
  findUpload db i = Some u ->
  ProcessRoute.statusOf (updateUploadStatus db i s) i = Some s.
Proof.
  intros H. unfold ProcessRoute.statusOf, findUpload, updateUploadStatus.
  cbn [uploads set_uploads]. unfold findUpload in H.
  change (fun u0 => if Nat.eqb (upload_id u0) i
                    then mkUpload (upload_id u0) (upload_userId u0) (upload_filePath u0) s
                           (upload_scriptType u0)
                    else u0)
    with (fun u0 => if Nat.eqb (upload_id u0) i then withStatus u0 s else u0).
  rewrite find_upload_map, H. cbn [option_map].
  apply find_some in H as [_ H]. now rewrite H.
Qed.

Lemma persistGlyph_uploads uploadId scriptRecord db g :
  uploads (ProcessRoute.persistGlyph uploadId scriptRecord db g) = uploads db.
Proof.
  unfold ProcessRoute.persistGlyph.
  destruct (find _ (glyphs db)) as [glyphRecord |]; [| reflexivity].
  now destruct (ProcessRoute.meaningIsReal (gm_meaning g)
                && ProcessRoute.currentIsPlaceholder (glyph_description glyphRecord)).
Qed.

Lemma persistGlyphs_uploads uploadId scriptRecord gs :
  forall db, uploads (fold_left (ProcessRoute.persistGlyph uploadId scriptRecord) gs db)
             = uploads db.
Proof.
  induction gs as [| g gs IH]; intros db; [reflexivity |].
  cbn [fold_left]. rewrite IH. apply persistGlyph_uploads.
Qed.

(** A translation that is not a string comes from a text that names a
    member of [Object.prototype]. *)
Lemma staticTranslation_inherited text glyphs name :
  translation (staticTranslation text glyphs) = VInherited name -> inherited text = true.
Proof.
  unfold staticTranslation, lookupCommonTranslation.
  destruct (dict_get commonTranslations text) as [t |].
  - cbn [truthy_val]. destruct (truthy t); discriminate.
  - destruct (inherited text); [reflexivity | discriminate].
Qed.

Lemma translateLoop_inherited env apiKey text glyphs configs : forall l r l' name,
  translateLoop env apiKey text glyphs configs l = (inr r, l') ->
  translation r = VInherited name -> inherited text = true.
Proof.
  induction configs as [| config configs IH]; intros l r l' name; simpl.
  - unfold ret. intros [= <- <-]. apply staticTranslation_inherited.
  - unfold bind at 1. unfold translateAttempt, try_catch, bind, httpsRequest.
    destruct (network env (length l) _) as [m | st body].
    + apply IH.
    + destruct (response_ok (mkResponse st body)).
      * unfold response_json. cbn [response_body].
        destruct body as [m | b]; [apply IH |]. unfold ret.
        destruct (truthy (or_str (candidateText b) [])); [| apply IH].
        intros [= <- <-]. discriminate.
      * cbn [response_status]. destruct (st =? 404)%Z; apply IH.
Qed.

Lemma generateTranslation_inherited env text glyphs l r l' name :
  generateTranslation env text glyphs l = (inr r, l') ->
  translation r = VInherited name -> inherited text = true.
Proof.
  unfold generateTranslation.
  destruct (negb (truthy text)); [intros [= <- <-]; discriminate |].
  destruct (truthy (or_str (GOOGLE_GEMINI_API_KEY env) [])).
  - apply translateLoop_inherited.
  - unfold ret. intros [= <- <-]. apply staticTranslation_inherited.
Qed.

Lemma findUpload_ext d1 d2 i : uploads d1 = uploads d2 -> findUpload d1 i = findUpload d2 i.
Proof. unfold findUpload. now intros ->. Qed.

Lemma statusOf_ext d1 d2 i :
  uploads d1 = uploads d2 -> ProcessRoute.statusOf d1 i = ProcessRoute.statusOf d2 i.
Proof. intros H. unfold ProcessRoute.statusOf. now rewrite (findUpload_ext d1 d2 i H). Qed.

(** The status the handler leaves behind: FAILED when [processAncientText]
    threw, and otherwise COMPLETED, unless the text names a member of
    [Object.prototype]. *)
Lemma POST_status env uploadId upload db log reply db' log' :
  findUpload db uploadId = Some upload ->
  ProcessRoute.POST env (Some uploadId) db log = ((reply, db'), log') ->
  match processAncientText env (upload_filePath upload)
          (deletePreviousResults (updateUploadStatus db uploadId PROCESSING) uploadId) log with
  | (inl _, _) =>
      ProcessRoute.statusOf db' uploadId = Some FAILED
      /\ ProcessRoute.reply_status reply = 500%Z
  | (inr result, _) =>
      ProcessRoute.statusOf db' uploadId <> Some FAILED
      /\ (inherited (extractedText result) = false ->
          ProcessRoute.statusOf db' uploadId = Some COMPLETED
          /\ ProcessRoute.reply_status reply = 200%Z)
  end.
Proof.
  intros Hfind. unfold ProcessRoute.POST. rewrite Hfind.
  set (db0 := deletePreviousResults (updateUploadStatus db uploadId PROCESSING) uploadId).
  assert (Hst0 : ProcessRoute.statusOf db0 uploadId = Some PROCESSING).
  { rewrite (statusOf_ext db0 (updateUploadStatus db uploadId PROCESSING) uploadId eq_refl).
    now apply statusOf_updateUploadStatus with (u := upload). }
  assert (Hfind0 : exists u0, findUpload db0 uploadId = Some u0).
  { unfold ProcessRoute.statusOf in Hst0.
    destruct (findUpload db0 uploadId) as [u0 |]; [now exists u0 | discriminate]. }
  destruct Hfind0 as [u0 Hfind0].
  destruct (processAncientText env (upload_filePath upload) db0 log) as [[e | result] l1].
  - intros [= <- <- <-]. split; [| reflexivity].
    now apply statusOf_updateUploadStatus with (u := u0).
  - set (name := or_str (scriptType result) (js "Traditional Chinese")).
    set (withScript :=
           match find (fun s => str_eqb (script_name s) name) (ancientScripts db0) with
           | Some s => (s, db0)
           | None => createScript db0 name
           end).
    assert (Hscript : uploads (snd withScript) = uploads db0).
    { unfold withScript. now destruct (find _ (ancientScripts db0)). }
    destruct withScript as [scriptRecord db1]. cbn [snd] in Hscript.
    set (db2 := fold_left (ProcessRoute.persistGlyph uploadId scriptRecord)
                  (pr_glyphs result) db1).
    assert (Hup2 : uploads db2 = uploads db0).
    { unfold db2. now rewrite persistGlyphs_uploads. }
    destruct (generateTranslation_returns env (extractedText result) (pr_glyphs result) l1)
      as (tr & l2 & Etr).
    rewrite Etr.
    destruct (translation tr) as [translated | inheritedName] eqn:Htr.
    + intros [= <- <- <-].
      assert (HC : ProcessRoute.statusOf
                     (updateUploadStatus
                        (createTranslation db2 uploadId (extractedText result) translated
                           (tr_confidence tr)) uploadId COMPLETED) uploadId
                   = Some COMPLETED).
      { apply statusOf_updateUploadStatus with (u := u0).
        now rewrite (findUpload_ext
                       (createTranslation db2 uploadId (extractedText result) translated
                          (tr_confidence tr)) db0 uploadId Hup2). }
      rewrite HC. split; [discriminate | auto].
    + intros [= <- <- <-].
      rewrite (statusOf_ext db2 db0 uploadId Hup2), Hst0.
      split; [discriminate |]. intros Hinh.
      rewrite (generateTranslation_inherited env _ _ l1 tr l2 inheritedName Etr Htr) in Hinh.
      discriminate.
Qed.

(** C4, as amended. [processAncientText] throws if and only if the
    extraction yields empty text and the development fallback is off, and
    the POST handler then persists FAILED.  [generateTranslation] and
    [matchGlyphs] return whatever the external services do, so a failure
    of theirs never throws; the handler then completes the run (persisted
    status COMPLETED, reply 200) unless the text names a member of
    [Object.prototype], and never persists FAILED. *)
Theorem processAncientText_throws_only_on_empty_extraction :
  forall env uploadId upload db log reply db' log',
    findUpload db uploadId = Some upload ->
    ProcessRoute.POST env (Some uploadId) db log = ((reply, db'), log') ->
    (forall imagePath store l,
        exists ocr l1,
          extractTextFromImage env imagePath l = (inr ocr, l1)
          /\ ((exists e l', processAncientText env imagePath store l = (inl e, l'))
              <-> truthy (ocr_text ocr) = false /\ devFallbackEnabled env = false))
    /\ (forall text glyphs l,
           exists r l', generateTranslation env text glyphs l = (inr r, l'))
    /\ (forall text store translationContext l,
           exists gs l', matchGlyphs env text store translationContext l = (inr gs, l'))
    /\ match processAncientText env (upload_filePath upload)
               (deletePreviousResults (updateUploadStatus db uploadId PROCESSING) uploadId)
               log with
       | (inl _, _) =>
           ProcessRoute.statusOf db' uploadId = Some FAILED
           /\ ProcessRoute.reply_status reply = 500%Z
       | (inr result, _) =>
           ProcessRoute.statusOf db' uploadId <> Some FAILED
           /\ (inherited (extractedText result) = false ->
               ProcessRoute.statusOf db' uploadId = Some COMPLETED
               /\ ProcessRoute.reply_status reply = 200%Z)
       end.
Proof.
  intros env uploadId upload db log reply db' log' Hfind HPOST.
  split; [| split; [| split]].
  - intros imagePath store l.
    destruct (extractTextFromImage_returns env imagePath l) as (ocr & l1 & HE).
    exists ocr, l1. split; [exact HE |].
    now apply processAncientText_throws_iff with (l1 := l1).
  - intros text glyphs l. apply generateTranslation_returns.
  - intros text store ctx l. apply matchGlyphs_returns.
  - now apply POST_status with (log' := log').
Qed.

(** ** generateTranslation without an API key *)

Lemma noApiKey_or_str env : noApiKey env = true -> truthy (or_str (GOOGLE_GEMINI_API_KEY env) []) = false.
Proof.
  unfold noApiKey. intros H. apply negb_true_iff in H.
  destruct (GOOGLE_GEMINI_API_KEY env) as [k |]; [| reflexivity].
  cbn in *. now rewrite H.
Qed.

Lemma commonTranslations_truthy text phrase :
  dict_get commonTranslations text = Some phrase -> truthy phrase = true.
Proof.
  unfold commonTranslations. cbn [dict_get].
  repeat (destruct (str_eqb text _); [now intros [= <-] |]). discriminate.
Qed.

Lemma truthy_description (a b : jsstring) : truthy (a ++ js " (" ++ b) = true.
Proof. now destruct a. Qed.

Lemma filter_truthy_descriptions (glyphs : list GlyphMatch) :
  filter truthy
    (map (fun g => gm_symbol g ++ js " (" ++ or_str (gm_meaning g) (js "unknown") ++ js ")")
         glyphs)
  = map (fun g => gm_symbol g ++ js " (" ++ or_str (gm_meaning g) (js "unknown") ++ js ")")
        glyphs.
Proof.
  induction glyphs as [| g glyphs IH]; [reflexivity |]. cbn [map filter].
  now rewrite truthy_description, IH.
Qed.

Lemma fold_left_add_map {A} (f : A -> number) l : forall acc,
  fold_left (fun sum x => sum + f x) l acc = fold_left PrimFloat.add (map f l) acc.
Proof. induction l as [| x l IH]; intros acc; [reflexivity | apply IH]. Qed.

Lemma length_num_map {A B} (f : A -> B) l : length_num (map f l) = length_num l.
Proof. unfold length_num. now rewrite length_map. Qed.

Lemma genericTranslation_spec text glyphs :
  genericTranslation text glyphs =
  mkTranslation (VString (templatedText text glyphs))
    (Math_min match glyphs with
              | [] => 0.70
              | _ :: _ => arithmetic_mean (map gm_confidence glyphs)
              end 0.85).
Proof.
  unfold genericTranslation, templatedText, arithmetic_mean.
  rewrite filter_truthy_descriptions, fold_left_add_map, length_num_map.
  now destruct glyphs.
Qed.

Lemma generateTranslation_without_key env text glyphs log :
  noApiKey env = true ->
  truthy text = true ->
  generateTranslation env text glyphs log = (inr (staticTranslation text glyphs), log).
Proof.
  intros Hkey Ht. unfold generateTranslation.
  now rewrite (noApiKey_or_str env Hkey), Ht.
Qed.

(** C9, as amended. Without an API key [generateTranslation] issues no
    request (the log is left as it was) and its result depends on the text
    and the glyphs only: for an empty text, the apology at confidence 0; on
    an exact phrase-table key, the table's string at confidence 0.90;
    otherwise the templated per-glyph composition at confidence
    min(mean of the glyph confidences, 0.85), the mean defaulting to 0.70
    for an empty glyph list.  Texts that name a member of
    [Object.prototype] are left aside. *)
Theorem generateTranslation_offline_deterministic :
  forall env text glyphs log,
    noApiKey env = true ->
    inherited text = false ->
    generateTranslation env text glyphs log = (inr (offlineTranslation text glyphs), log)
    /\ forall env' log',
         noApiKey env' = true ->
         fst (generateTranslation env' text glyphs log')
         = fst (generateTranslation env text glyphs log).
Proof.
  intros env text glyphs log Hkey Hinh.
  assert (H : forall e l, noApiKey e = true ->
                generateTranslation e text glyphs l = (inr (offlineTranslation text glyphs), l)).
  { intros e l He. unfold offlineTranslation.
    destruct (truthy text) eqn:Ht.
    - rewrite (generateTranslation_without_key e text glyphs l He Ht).
      unfold staticTranslation, lookupCommonTranslation. rewrite Hinh.
      destruct (dict_get commonTranslations text) as [phrase |] eqn:Hd.
      + cbn [truthy_val]. now rewrite (commonTranslations_truthy _ _ Hd).
      + cbn [truthy_val]. now rewrite genericTranslation_spec.
    - unfold generateTranslation. now rewrite Ht. }
  split; [now apply H |].
  intros env' log' Hkey'. now rewrite (H env' log' Hkey'), (H env log Hkey).
Qed.

(** ** The scenario of the four unknown characters *)

Lemma getCharacterMeanings_without_key env text ctx l :
  noApiKey env = true -> getCharacterMeanings env text ctx l = (inr [], l).
Proof.
  intros Hkey. unfold getCharacterMeanings.
  destruct (negb (truthy text)); [reflexivity |].
  destruct (length (uniqueCharsOf text) =? 0)%nat; [reflexivity |].
  rewrite (noApiKey_or_str env Hkey). unfold bind, ret.
  now rewrite andb_false_r.
Qed.

Lemma singleCharacterLookup_without_key env char l :
  noApiKey env = true -> singleCharacterLookup env char l = (inr None, l).
Proof.
  intros Hkey. unfold singleCharacterLookup. now rewrite (noApiKey_or_str env Hkey).
Qed.

Lemma matchCharacter_unknown env dbGlyphs i char l :
  noApiKey env = true ->
  existsb isPunctuation char = false ->
  findMatchedGlyph env dbGlyphs char = None ->
  matchCharacter env [] dbGlyphs i char l = (inr (Some (unknownMatch i char)), l).
Proof.
  intros Hkey Hp Hf. unfold matchCharacter. rewrite Hp, Hf. cbn [aiMeaningOf dict_get].
  unfold bind. now rewrite (singleCharacterLookup_without_key env char l Hkey).
Qed.

(** C3, as amended. The text is 道法自然, no API key is configured and the
    store's lookup (exact, then relaxed) finds none of its four characters.
    Then [matchGlyphs] emits exactly four matches, each with confidence 0.60
    and the sentinel meaning; [generateTranslation] on that text and those
    glyphs returns the phrase-table string with confidence 0.90, the text
    being a key of the table; and the templated translation over those four
    glyphs, which a text outside the table gets, has confidence
    min(mean(0.60, 0.60, 0.60, 0.60), 0.85) = 0.60. *)
Theorem dao_fa_zi_ran_unknown_glyphs :
  forall env db translationContext log,
    noApiKey env = true ->
    absentFromStore env db (Array_from text_dao_fa_zi_ran) = true ->
    matchGlyphs env text_dao_fa_zi_ran db translationContext log
      = (inr unknown_dao_fa_zi_ran, log)
    /\ Forall (fun g => gm_confidence g = 0.60 /\ gm_meaning g = Some sentinelMeaning)
         unknown_dao_fa_zi_ran
    /\ length unknown_dao_fa_zi_ran = 4%nat
    /\ generateTranslation env text_dao_fa_zi_ran unknown_dao_fa_zi_ran log
       = (inr (mkTranslation (VString phrase_dao_fa_zi_ran) 0.90), log)
    /\ (forall text,
           tr_confidence (genericTranslation text unknown_dao_fa_zi_ran)
           = Math_min (arithmetic_mean [0.60; 0.60; 0.60; 0.60]) 0.85)
    /\ Math_min (arithmetic_mean [0.60; 0.60; 0.60; 0.60]) 0.85 = 0.60.
Proof.
  intros env db ctx log Hkey Habs.
  unfold absentFromStore in Habs.
  change (Array_from text_dao_fa_zi_ran)
    with [[36947%Z]; [27861%Z]; [33258%Z]; [28982%Z]] in Habs.
  cbn [forallb] in Habs.
  destruct (findMatchedGlyph env (glyphs db) [36947%Z]) eqn:H0; [discriminate |].
  destruct (findMatchedGlyph env (glyphs db) [27861%Z]) eqn:H1; [discriminate |].
  destruct (findMatchedGlyph env (glyphs db) [33258%Z]) eqn:H2; [discriminate |].
  destruct (findMatchedGlyph env (glyphs db) [28982%Z]) eqn:H3; [discriminate |].
  split; [| split; [| split; [| split; [| split]]]].
  - unfold matchGlyphs.
    change (negb (truthy text_dao_fa_zi_ran)) with false. cbv iota.
    unfold bind at 1. rewrite (getCharacterMeanings_without_key env _ ctx log Hkey).
    change (Array_from (stripWhiteSpace text_dao_fa_zi_ran))
      with [[36947%Z]; [27861%Z]; [33258%Z]; [28982%Z]].
    cbn [matchLoop]. unfold bind.
    rewrite (matchCharacter_unknown env _ 0 [36947%Z] log Hkey eq_refl H0).
    rewrite (matchCharacter_unknown env _ (0 + 1) [27861%Z] log Hkey eq_refl H1).
    rewrite (matchCharacter_unknown env _ (0 + 1 + 1) [33258%Z] log Hkey eq_refl H2).
    rewrite (matchCharacter_unknown env _ (0 + 1 + 1 + 1) [28982%Z] log Hkey eq_refl H3).
    reflexivity.
  - repeat constructor.
  - reflexivity.
  - now rewrite (generateTranslation_without_key env text_dao_fa_zi_ran
                   unknown_dao_fa_zi_ran log Hkey eq_refl).
  - intros text. now rewrite genericTranslation_spec.
  - reflexivity.
Qed.

(** ** The batch endpoint: what a run can do *)

Lemma Sound_pbind PC {A B} (PR : B -> Prop) (p : Prog A) (f : A -> Prog B) :
  Sound PC (fun _ => True) p ->
  (forall a, Sound PC PR (f a)) ->
  Sound PC PR (pbind p f).
Proof.
  intros HS Hf. induction HS as [a Ha | e | X c k Hc Hk IH]; cbn [pbind].
  - apply Hf.
  - apply sound_throw.
  - apply sound_await; [exact Hc | exact IH].
Qed.

Lemma Sound_ptry PC {A} (PR : A -> Prop) (p : Prog A) handler :
  Sound PC PR p ->
  (forall e, Sound PC PR (handler e)) ->
  Sound PC PR (ptry p handler).
Proof.
  intros HS Hh. induction HS as [a Ha | e | X c k Hc Hk IH]; cbn [ptry].
  - now apply sound_ret.
  - apply Hh.
  - apply sound_await; [exact Hc | exact IH].
Qed.

Lemma Sound_call PC {X} (c : Cmd X) : PC X c -> Sound PC (fun _ => True) (call c).
Proof.
  intros Hc. unfold call. apply sound_await; [exact Hc |].
  intros [e | x]; [apply sound_throw | now apply sound_ret].
Qed.

Lemma reconstructionConfidence_mean rs :
  reconstructionConfidence rs = arithmetic_mean (map reconstruction_confidence rs).
Proof.
  unfold reconstructionConfidence, arithmetic_mean.
  now rewrite fold_left_add_map, length_num_map.
Qed.

Lemma saveGlyphs_sound uploadId st glyphs : forall n,
  Sound (@createsMeanVersion) (fun _ => True) (saveGlyphs uploadId st glyphs n).
Proof.
  induction glyphs as [| g glyphs IH]; intros n; cbn [saveGlyphs].
  - now apply sound_ret.
  - apply Sound_pbind; [apply Sound_call; exact I | intros found].
    apply Sound_pbind.
    + destruct found as [dbGlyph |]; [now apply sound_ret |].
      apply Sound_pbind; [apply Sound_call; exact I | intros existing].
      apply Sound_pbind; [| intros script; apply Sound_call; exact I].
      destruct existing; [now apply sound_ret | apply Sound_call; exact I].
    + intros dbGlyph.
      apply Sound_pbind; [apply Sound_call; exact I | intros _; apply IH].
Qed.

(** Whatever the store and the services answer, [processUpload] creates
    versions with the mean of their members only, and what it returns is a
    success entry for its upload. *)
Lemma processUpload_sound grm uploadId enable :
  Sound (@createsMeanVersion) (successFor uploadId) (processUpload grm uploadId enable).
Proof.
  unfold processUpload.
  apply Sound_pbind; [apply Sound_call; exact I | intros found].
  destruct found as [[upload uploadGlyphs] |]; [| apply sound_throw].
  destruct (status_eqb (upload_status upload) COMPLETED).
  - destruct (enable && _).
    + apply Sound_pbind; [apply Sound_call; exact I | intros rs].
      apply Sound_pbind; [apply Sound_call; exact I | intros count].
      apply Sound_pbind; [apply Sound_call; apply reconstructionConfidence_mean | intros _].
      apply sound_ret. now split.
    + apply sound_ret. now split.
  - apply Sound_pbind; [apply Sound_call; exact I | intros _].
    apply Sound_ptry.
    + apply Sound_pbind; [apply Sound_call; exact I | intros result].
      apply Sound_pbind; [apply Sound_call; exact I | intros _].
      apply Sound_pbind; [apply saveGlyphs_sound | intros glyphsProcessed].
      apply Sound_pbind.
      * destruct (enable && _); [| now apply sound_ret].
        apply Sound_pbind; [apply Sound_call; exact I | intros rs].
        apply Sound_pbind; [apply Sound_call; apply reconstructionConfidence_mean | intros _].
        now apply sound_ret.
      * intros reconstructions. apply sound_ret. now split.
    + intros error.
      apply Sound_pbind; [apply Sound_call; exact I | intros _; apply sound_throw].
Qed.

Lemma addsMeanVersions_refl w : addsMeanVersions w w.
Proof. exists []. split; [now rewrite app_nil_r | constructor]. Qed.

Lemma addsMeanVersions_trans w1 w2 w3 :
  addsMeanVersions w1 w2 -> addsMeanVersions w2 w3 -> addsMeanVersions w1 w3.
Proof.
  intros (c1 & E1 & F1) (c2 & E2 & F2). exists (c1 ++ c2). split.
  - now rewrite E2, E1, app_assoc.
  - apply Forall_app. now split.
Qed.

Lemma addsMeanVersions_same_versions w w' :
  reconstructionVersions (world_db w') = reconstructionVersions (world_db w) ->
  addsMeanVersions w w'.
Proof. intros H. exists []. split; [now rewrite app_nil_r | constructor]. Qed.

(** One awaited call. *)
Lemma handle_addsMeanVersions oracle {X} (c : Cmd X) w :
  createsMeanVersion c -> addsMeanVersions w (snd (handle oracle c w)).
Proof.
  intros Hc. destruct c; cbn [handle snd];
    try (apply addsMeanVersions_same_versions; reflexivity).
  eexists. split; [cbn; reflexivity |]. constructor; [exact Hc | constructor].
Qed.

Lemma runToEnd_sound oracle {A} (PR : A -> Prop) (p : Prog A) :
  Sound (@createsMeanVersion) PR p ->
  forall w,
    addsMeanVersions w (snd (runToEnd oracle p w))
    /\ match fst (runToEnd oracle p w) with
       | Fulfilled a => PR a
       | Rejected _ => True
       end.
Proof.
  intros HS. induction HS as [a Ha | e | X c k Hc Hk IH]; intros w; cbn [runToEnd].
  - split; [apply addsMeanVersions_refl | exact Ha].
  - split; [apply addsMeanVersions_refl | exact I].
  - pose proof (handle_addsMeanVersions oracle c w Hc) as Hh.
    destruct (handle oracle c w) as [r w1]. cbn [snd] in Hh.
    destruct (IH r w1) as [H1 H2]. split; [| exact H2].
    now apply addsMeanVersions_trans with (w2 := w1).
Qed.

(** ** The batch endpoint: runs that interleave *)

Lemma stepTask_sound oracle {A} (PR : A -> Prop) (p : Prog A) w :
  Sound (@createsMeanVersion) PR p ->
  Sound (@createsMeanVersion) PR (fst (stepTask oracle p w))
  /\ addsMeanVersions w (snd (stepTask oracle p w)).
Proof.
  intros HS. destruct HS as [a Ha | e | X c k Hc Hk]; cbn [stepTask fst snd].
  - split; [now apply sound_ret | apply addsMeanVersions_refl].
  - split; [apply sound_throw | apply addsMeanVersions_refl].
  - pose proof (handle_addsMeanVersions oracle c w Hc) as Hh.
    destruct (handle oracle c w) as [r w1]. cbn [fst snd] in *. split; [apply Hk | exact Hh].
Qed.

Lemma Forall2_replaceAt {A B} (R : A -> B -> Prop) xs ys :
  Forall2 R xs ys ->
  forall i y y',
    nth_error ys i = Some y ->
    (forall x, R x y -> R x y') ->
    Forall2 R xs (replaceAt i y' ys).
Proof.
  induction 1 as [| x y0 xs ys Hxy HF IH]; intros i y y' Hnth Hy.
  - destruct i; discriminate.
  - destruct i as [| i]; cbn [replaceAt].
    + injection Hnth as ->. constructor; [now apply Hy | exact HF].
    + constructor; [exact Hxy |]. now apply IH with (y := y).
Qed.

Lemma interleave_sound oracle schedule : forall ids tasks w,
  Forall2 soundFor ids tasks ->
  Forall2 soundFor ids (fst (interleave oracle schedule tasks w))
  /\ addsMeanVersions w (snd (interleave oracle schedule tasks w)).
Proof.
  induction schedule as [| i schedule IH]; intros ids tasks w HF; cbn [interleave].
  - split; [exact HF | apply addsMeanVersions_refl].
  - destruct (nth_error tasks i) as [p |] eqn:Hnth; [| now apply IH].
    assert (Hstep : forall uploadId, soundFor uploadId p ->
                      soundFor uploadId (fst (stepTask oracle p w))).
    { intros uploadId Hp.
      exact (proj1 (stepTask_sound oracle (successFor uploadId) p w Hp)). }
    assert (Hw : addsMeanVersions w (snd (stepTask oracle p w))).
    { pose proof (Forall2_length HF) as Hlen.
      assert (Hi : (i < length ids)%nat).
      { rewrite Hlen. apply nth_error_Some. now rewrite Hnth. }
      destruct (nth_error ids i) as [uploadId |] eqn:Hid;
        [| apply nth_error_None in Hid; lia].
      assert (Hp : soundFor uploadId p).
      { clear - HF Hnth Hid. revert i Hnth Hid.
        induction HF as [| x y xs ys Hxy HF IH]; intros [| i] Hn Hi; try discriminate.
        - injection Hn as <-. injection Hi as <-. exact Hxy.
        - now apply IH with (i := i). }
      exact (proj2 (stepTask_sound oracle (successFor uploadId) p w Hp)). }
    destruct (stepTask oracle p w) as [p' w1]. cbn [fst snd] in *.
    destruct (IH ids (replaceAt i p' tasks) w1) as [H1 H2].
    { now apply Forall2_replaceAt with (y := p). }
    split; [exact H1 | now apply addsMeanVersions_trans with (w2 := w1)].
Qed.

Lemma finishAll_sound oracle ids tasks :
  Forall2 soundFor ids tasks ->
  forall w,
    Forall2 settlesFor ids (fst (finishAll oracle tasks w))
    /\ addsMeanVersions w (snd (finishAll oracle tasks w)).
Proof.
  induction 1 as [| uploadId p ids tasks Hp HF IH]; intros w; cbn [finishAll].
  - split; [constructor | apply addsMeanVersions_refl].
  - destruct (runToEnd_sound oracle (successFor uploadId) p Hp w) as [Hw Hs].
    destruct (runToEnd oracle p w) as [s w1]. cbn [fst snd] in *.
    destruct (IH w1) as [H1 H2].
    destruct (finishAll oracle tasks w1) as [ss w2]. cbn [fst snd] in *.
    split; [now constructor | now apply addsMeanVersions_trans with (w2 := w1)].
Qed.

(** [Promise.allSettled] settles every task, in order. *)
Lemma allSettled_sound oracle schedule ids tasks w :
  Forall2 soundFor ids tasks ->
  Forall2 settlesFor ids (fst (allSettled oracle schedule tasks w))
  /\ addsMeanVersions w (snd (allSettled oracle schedule tasks w)).
Proof.
  intros HF. unfold allSettled.
  destruct (interleave_sound oracle schedule ids tasks w HF) as [H1 H2].
  destruct (interleave oracle schedule tasks w) as [tasks' w1]. cbn [fst snd] in *.
  destruct (finishAll_sound oracle ids tasks' H1 w1) as [H3 H4].
  split; [exact H3 | now apply addsMeanVersions_trans with (w2 := w1)].
Qed.

Lemma tasks_soundFor grm enable batch :
  Forall2 soundFor batch (map (fun uploadId => processUpload grm uploadId enable) batch).
Proof.
  induction batch as [| uploadId batch IH]; cbn [map]; constructor; [| exact IH].
  apply processUpload_sound.
Qed.

(** ** The batch endpoint: the aggregate result list *)

Lemma Reported_app ids1 es1 ss1 ids2 es2 ss2 :
  Reported ids1 es1 ss1 -> Reported ids2 es2 ss2 ->
  Reported (ids1 ++ ids2) (es1 ++ es2) (ss1 ++ ss2).
Proof.
  induction 1 as [| i e s ids es ss Hr HR IH]; intros H2; cbn [app]; [exact H2 |].
  constructor; [exact Hr | now apply IH].
Qed.

Lemma reportedAs_settled uploadId s :
  settlesFor uploadId s -> reportedAs uploadId (entryOfSettled uploadId s) s.
Proof.
  destruct s as [value | reason]; cbn.
  - intros [Hid Hst]. now repeat split.
  - intros _. now split.
Qed.

Lemma reportedAs_attempt uploadId s :
  settlesFor uploadId s -> reportedAs uploadId (entryOfAttempt uploadId s) s.
Proof.
  destruct s as [value | reason]; cbn.
  - intros [Hid Hst]. now repeat split.
  - intros _. now split.
Qed.

Lemma Reported_batch batch ss :
  Forall2 settlesFor batch ss ->
  Reported batch (map (fun ir => entryOfSettled (fst ir) (snd ir)) (combine batch ss)) ss.
Proof.
  induction 1 as [| uploadId s batch ss Hs HF IH]; cbn [combine map]; constructor.
  - now apply reportedAs_settled.
  - exact IH.
Qed.

Lemma runBatches_sound grm oracle enable batches : forall schedules st ids,
  Reported ids (results st) (settled st) ->
  Reported (ids ++ concat batches)
    (results (runBatches grm oracle enable schedules batches st))
    (settled (runBatches grm oracle enable schedules batches st))
  /\ addsMeanVersions (world st)
       (world (runBatches grm oracle enable schedules batches st)).
Proof.
  induction batches as [| batch batches IH]; intros schedules st ids HR; cbn [runBatches concat].
  - rewrite app_nil_r. split; [exact HR | apply addsMeanVersions_refl].
  - destruct (allSettled_sound oracle (hd [] schedules) batch
                (map (fun uploadId => processUpload grm uploadId enable) batch)
                (world st) (tasks_soundFor grm enable batch)) as [H1 H2].
    destruct (allSettled oracle (hd [] schedules) _ (world st)) as [batchResults w1].
    cbn [fst snd] in *.
    destruct (IH (tl schedules)
                (mkProgress
                   (results st ++ map (fun ir => entryOfSettled (fst ir) (snd ir))
                                      (combine batch batchResults))
                   (settled st ++ batchResults) w1)
                (ids ++ batch)) as [H3 H4].
    { cbn [results settled]. apply Reported_app; [exact HR | now apply Reported_batch]. }
    rewrite <- app_assoc in H3. split; [exact H3 |].
    cbn [world] in H4. now apply addsMeanVersions_trans with (w2 := w1).
Qed.

Lemma runSequential_sound grm oracle enable uploads : forall st ids,
  Reported ids (results st) (settled st) ->
  Reported (ids ++ map upload_id uploads)
    (results (runSequential grm oracle enable uploads st))
    (settled (runSequential grm oracle enable uploads st))
  /\ addsMeanVersions (world st) (world (runSequential grm oracle enable uploads st)).
Proof.
  induction uploads as [| upload uploads IH]; intros st ids HR; cbn [runSequential map].
  - rewrite app_nil_r. split; [exact HR | apply addsMeanVersions_refl].
  - destruct (runToEnd_sound oracle (successFor (upload_id upload))
                (processUpload grm (upload_id upload) enable)
                (processUpload_sound grm (upload_id upload) enable) (world st)) as [H1 H2].
    destruct (runToEnd oracle _ (world st)) as [result w1]. cbn [fst snd] in *.
    destruct (IH (mkProgress (results st ++ [entryOfAttempt (upload_id upload) result])
                             (settled st ++ [result]) w1)
                (ids ++ [upload_id upload])) as [H3 H4].
    { cbn [results settled]. apply Reported_app; [exact HR |].
      constructor; [now apply reportedAs_attempt | constructor]. }
    rewrite <- app_assoc in H3. split; [exact H3 |].
    cbn [world] in H4. now apply addsMeanVersions_trans with (w2 := w1).
Qed.

Lemma js_slice_then_rest {A} (l : list A) i n :
  (0 <= i)%Z -> (i < Z.of_nat (length l))%Z -> (1 <= n)%Z ->
  js_slice i (i + n) l ++ skipn (Z.to_nat (i + n)) l = skipn (Z.to_nat i) l.
Proof.
  intros Hi Hlen Hn. unfold js_slice.
  destruct (Z.ltb_spec i 0); [lia |]. destruct (Z.ltb_spec (i + n) 0); [lia |].
  rewrite (Z.min_l i) by lia. rewrite Z.max_l by lia.
  destruct (Z.le_gt_cases (i + n) (Z.of_nat (length l))) as [Hle | Hgt].
  - rewrite Z.min_l by lia.
    replace (Z.to_nat (i + n - i)) with (Z.to_nat n) by lia.
    replace (Z.to_nat (i + n)) with (Z.to_nat n + Z.to_nat i)%nat by lia.
    rewrite <- skipn_skipn. apply firstn_skipn.
  - rewrite Z.min_r by lia.
    rewrite (@skipn_all2 _ (Z.to_nat (i + n)) l) by lia. rewrite app_nil_r.
    apply firstn_all2. rewrite length_skipn. lia.
Qed.

(** With a positive [maxConcurrent] the loop that builds the batches ends,
    and the batches are the uploads, in order. *)
Lemma makeBatches_total maxConcurrent uploads turns : forall i,
  (1 <= maxConcurrent)%Z -> (0 <= i)%Z ->
  (Z.of_nat (length uploads) - i <= Z.of_nat turns)%Z ->
  exists batches,
    makeBatches turns i maxConcurrent uploads = Some batches
    /\ concat batches = map upload_id (skipn (Z.to_nat i) uploads).
Proof.
  induction turns as [| turns IH]; intros i Hn Hi Hlen; cbn [makeBatches].
  - destruct (Z.ltb_spec i (Z.of_nat (length uploads))); [lia |].
    exists []. split; [reflexivity |]. now rewrite skipn_all2 by lia.
  - destruct (Z.ltb_spec i (Z.of_nat (length uploads))) as [Hlt | Hge].
    + destruct (IH (i + maxConcurrent)%Z) as (batches & E & Hc); try lia.
      rewrite E. eexists. split; [reflexivity |]. cbn [concat].
      rewrite Hc, <- map_app. now rewrite js_slice_then_rest.
    + exists []. split; [reflexivity |]. now rewrite skipn_all2 by lia.
Qed.




(** With a [maxConcurrent] of 0 or less the loop that builds the batches
    never ends. *)
Lemma makeBatches_never_ends maxConcurrent uploads turns : forall i,
  (maxConcurrent <= 0)%Z -> (i <= 0)%Z -> uploads <> [] ->
  makeBatches turns i maxConcurrent uploads = None.
Proof.
  induction turns as [| turns IH]; intros i Hn Hi Hne; cbn [makeBatches];
    destruct (Z.ltb_spec i (Z.of_nat (length uploads))) as [Hlt | Hge];
    try reflexivity; try (destruct uploads; [congruence | cbn [length] in Hge; lia]).
  now rewrite (IH (i + maxConcurrent)%Z Hn ltac:(lia) Hne).
Qed.

(** The path of an upload that is already COMPLETED numbers the version
    it creates with the count of the versions of the upload plus 1. *)
Lemma processUpload_completed_version_number grm oracle w uploadId upload enable :
  findUpload (world_db w) uploadId = Some upload ->
  upload_status upload = COMPLETED ->
  reconstructionVersions
    (world_db (snd (runToEnd oracle (processUpload grm uploadId enable) w)))
  = reconstructionVersions (world_db w)
  \/ exists v,
       reconstructionVersions
         (world_db (snd (runToEnd oracle (processUpload grm uploadId enable) w)))
       = reconstructionVersions (world_db w) ++ [v]
       /\ version_uploadId v = upload_id upload
       /\ versionNumber v = (countVersions (world_db w) (upload_id upload) + 1)%Z.
Proof.
  intros Hfind Hst. unfold processUpload.
  cbn [pbind call runToEnd handle]. rewrite Hfind. cbn [option_map pbind].
  rewrite Hst. cbn [status_eqb].
  destruct (enable && _); [| now left].
  cbn [pbind call runToEnd handle].
  destruct (batchReconstructGlyphs_outcome oracle _ _ _ _) as [e | rs]; [now left |].
  cbn [pbind runToEnd handle world_db snd]. right.
  eexists. split; [reflexivity |]. now split.
Qed.



(* ================================================================= *)
(** * The properties at concrete inputs *)

Import Examples.

Open Scope float_scope.

(** ** Glyph matching *)

Lemma matchGlyphs_tiered_confidence_witness :
  storedNumbersAreNumbers store = true
  /\ exists glyphs log',
       matchGlyphs online text_dao_fa_zi_ran store None [] = (inr glyphs, log')
       /\ TierRule online (freshMeaning online text_dao_fa_zi_ran None 0)
            (Store.glyphs store) 0 (Array_from (stripWhiteSpace text_dao_fa_zi_ran))
            ([] ++ snd (consulted online text_dao_fa_zi_ran None 0)) glyphs log'.
Proof.
  split; [reflexivity |].
  apply (matchGlyphs_tiered_confidence online text_dao_fa_zi_ran store None []).
  reflexivity.
Defined.

(** What the rule reads on that text: the service gives the first
    character a meaning, the store has the second and the third, the
    lookup finds the fourth; one request to the service and one lookup. *)
Example tiers_online :
  map (freshMeaning online text_dao_fa_zi_ran None 0)
    (Array_from text_dao_fa_zi_ran) = [Some (js "way, path"); None; None; None]
  /\ map (fun char => option_map glyph_id (storeEntry online (Store.glyphs store) char))
       (Array_from text_dao_fa_zi_ran) = [None; Some 3%nat; Some 4%nat; None]
  /\ lookupAnswer online [28982%Z] 1 = Some (js "so, thus")
  /\ length (snd (consulted online text_dao_fa_zi_ran None 0)) = 1%nat.
Proof. vm_compute. repeat split. Qed.

(** C1 as stated fails: the store holds U+20000 only and the text is
    U+20001.  No glyph has that symbol, there is no API key, so no AI
    meaning and no last-resort answer: the tiers as stated give 0.60.  The
    matcher takes the glyph of U+20000, whose symbol starts with the same
    UTF-16 code unit, and emits its confidence 0.9 and its meaning. *)
Lemma matchGlyphs_lookalike_counts_as_stored :
  storedNumbersAreNumbers lookalikeStore = true
  /\ freshMeaning offline lookalikeText None 0 lookalikeText = None
  /\ exactEntry (Store.glyphs lookalikeStore) lookalikeText = None
  /\ lookupAnswer offline lookalikeText 0 = None
  /\ tiered_confidence (freshMeaning offline lookalikeText None 0 lookalikeText)
       (exactEntry (Store.glyphs lookalikeStore) lookalikeText)
       (lookupAnswer offline lookalikeText 0) = 0.60
  /\ matchGlyphs offline lookalikeText lookalikeStore None [] =
     (inr [mkGlyphMatch lookalikeText 0.9 0%Z (Some (placeBox 0%Z)) (Some (js "one"))], [])
  /\ PrimFloat.eqb 0.9 0.60 = false.
Proof. vm_compute. repeat split. Qed.

(** The four tiers on one text: an AI meaning, a stored meaning, a stored
    placeholder, a last-resort meaning. *)
Example matchGlyphs_online_confidences :
  exists glyphs log',
    matchGlyphs online text_dao_fa_zi_ran store None [] = (inr glyphs, log')
    /\ map gm_confidence glyphs = [0.85; 0.9; 0.60; 0.70]
    /\ length log' = 2%nat.
Proof. eexists _, _. split; [vm_compute; reflexivity |]. now split. Qed.

(** C3 as stated fails: on 道法自然 and the four unknown glyphs the
    translation is the phrase-table string with confidence 0.90, not a
    templated translation with confidence 0.60. *)
Lemma dao_fa_zi_ran_translation_is_not_templated :
  matchGlyphs offline text_dao_fa_zi_ran emptyStore None [] = (inr unknown_dao_fa_zi_ran, [])
  /\ exists r,
       generateTranslation offline text_dao_fa_zi_ran unknown_dao_fa_zi_ran [] = (inr r, [])
       /\ translation r = VString phrase_dao_fa_zi_ran
       /\ translation r <> VString (templatedText text_dao_fa_zi_ran unknown_dao_fa_zi_ran)
       /\ tr_confidence r = 0.90
       /\ PrimFloat.eqb (tr_confidence r) 0.60 = false.
Proof.
  split; [vm_compute; reflexivity |].
  eexists. split; [vm_compute; reflexivity |].
  cbn [translation tr_confidence]. repeat split. vm_compute. discriminate.
Qed.

Lemma dao_fa_zi_ran_unknown_glyphs_witness :
  matchGlyphs offline text_dao_fa_zi_ran emptyStore None [] = (inr unknown_dao_fa_zi_ran, [])
  /\ generateTranslation offline text_dao_fa_zi_ran unknown_dao_fa_zi_ran []
     = (inr (mkTranslation (VString phrase_dao_fa_zi_ran) 0.90), []).
Proof.
  destruct (dao_fa_zi_ran_unknown_glyphs offline emptyStore None [] eq_refl eq_refl)
    as (H1 & _ & _ & H4 & _).
  split; assumption.
Defined.

(** ** Text extraction *)

Lemma extractTextFromImage_first_success_or_failure_witness :
  extractTextFromImage online (js "uploads/1.jpg") []
  = (inr (mkOCR text_dao_fa_zi_ran 0.90 gemini None),
     firstn 3 (ocrRequests (js "key") (js "aW1hZ2U="))
       ++ [verifyRequest online text_dao_fa_zi_ran]).
Proof.
  apply (proj1 (extractTextFromImage_first_success_or_failure online (js "uploads/1.jpg") []
                  (js "key") (js "aW1hZ2U=") eq_refl eq_refl eq_refl)
           2%nat (32%Z :: text_dao_fa_zi_ran ++ [10%Z]));
    reflexivity.
Defined.

(** C2 as stated fails: with every configuration exhausted, the error
    message of the failure result is the fixed one of
    [extractTextFromImage], not the last captured error message. *)
Lemma extractTextFromImage_does_not_report_last_error :
  firstYield (outcomesFrom quotaExceeded 0 (ocrRequests (js "key") (js "aW1hZ2U="))) = None
  /\ lastCaptured (outcomesFrom quotaExceeded 0 (ocrRequests (js "key") (js "aW1hZ2U=")))
     = Some (js "Gemini API error: quota exceeded")
  /\ exists result log',
       extractTextFromImage quotaExceeded (js "uploads/1.jpg") [] = (inr result, log')
       /\ ocr_text result = []
       /\ ocr_confidence result = 0
       /\ ocr_error result <> Some (js "Gemini API error: quota exceeded").
Proof.
  split; [reflexivity |]. split; [reflexivity |].
  eexists _, _. split; [vm_compute; reflexivity |].
  cbn [ocr_text ocr_confidence ocr_error]. repeat split. vm_compute. discriminate.
Qed.

Lemma verification_pass_never_lowers_confidence_witness :
  PrimFloat.leb 0.90
    (ocr_confidence
       (applyPostProcessing (mkOCR text_dao_fa_zi_ran 0.90 gemini None) (js "corrected")))
  = true.
Proof.
  destruct (verification_pass_never_lowers_confidence online (js "uploads/1.jpg") []
              (mkOCR text_dao_fa_zi_ran 0.90 gemini None)
              (snd (extractTextFromImage online (js "uploads/1.jpg") []))
              eq_refl eq_refl) as (_ & _ & H).
  exact (proj1 (H (js "corrected"))).
Defined.

(** ** Translation *)

(** C9 as stated fails on the empty text: the result is neither a
    phrase-table string nor the templated composition with its default
    confidence 0.70, but the apology with confidence 0. *)
Lemma generateTranslation_empty_text_is_apology :
  dict_get commonTranslations [] = None
  /\ exists r,
       generateTranslation offline [] [] [] = (inr r, [])
       /\ translation r = VString apologyText
       /\ translation r <> VString (templatedText [] [])
       /\ tr_confidence r = 0
       /\ PrimFloat.eqb (tr_confidence r) 0.70 = false.
Proof.
  split; [reflexivity |]. eexists. split; [reflexivity |].
  cbn [translation tr_confidence]. repeat split. vm_compute. discriminate.
Qed.

Lemma generateTranslation_offline_deterministic_witness :
  generateTranslation offline (js "unknown text") someGlyphs []
  = (inr (offlineTranslation (js "unknown text") someGlyphs), []).
Proof.
  exact (proj1 (generateTranslation_offline_deterministic offline (js "unknown text")
                  someGlyphs [] eq_refl eq_refl)).
Defined.

(** ** The pipeline *)

(** C4 as stated fails in its last part: when the translation stage fails
    on 道法自然 (every configuration answers with an error) the fallback
    result has confidence 0.90, which is not lower than the 0.88 of a
    translation the backend delivers. *)
Lemma failed_translation_is_not_less_confident :
  exists failedResult okResult l1 l2,
    generateTranslation quotaExceeded text_dao_fa_zi_ran [] [] = (inr failedResult, l1)
    /\ length l1 = 4%nat
    /\ generateTranslation translating text_dao_fa_zi_ran [] [] = (inr okResult, l2)
    /\ tr_confidence okResult = 0.88
    /\ tr_confidence failedResult = 0.90
    /\ PrimFloat.ltb (tr_confidence failedResult) (tr_confidence okResult) = false.
Proof.
  eexists _, _, _, _. split; [vm_compute; reflexivity |].
  split; [reflexivity |]. split; [vm_compute; reflexivity |].
  cbn [tr_confidence]. now repeat split.
Qed.

Lemma processAncientText_throws_only_on_empty_extraction_witness :
  ProcessRoute.statusOf (snd (fst (ProcessRoute.POST online (Some 1%nat) store []))) 1%nat
  = Some COMPLETED
  /\ ProcessRoute.reply_status (fst (fst (ProcessRoute.POST online (Some 1%nat) store [])))
     = 200%Z.
Proof.
  assert (HX : ProcessRoute.POST online (Some 1%nat) store []
               = ((fst (fst (ProcessRoute.POST online (Some 1%nat) store [])),
                   snd (fst (ProcessRoute.POST online (Some 1%nat) store []))),
                  snd (ProcessRoute.POST online (Some 1%nat) store []))).
  { vm_compute. reflexivity. }
  destruct (processAncientText_throws_only_on_empty_extraction online 1%nat
              (mkUpload 1%nat 9%nat (js "uploads/1.jpg") PENDING None) store [] _ _ _ eq_refl HX)
    as (_ & _ & _ & H).
  vm_compute in H. vm_compute. exact (proj2 H eq_refl).
Defined.

(** ** The batch endpoint *)

(** C5 fails on the code: an upload that is processed again after a
    failure, and that already has one version, gets a second version
    numbered 1, where the count of existing versions plus 1 is 2. *)
Theorem reprocessed_upload_gets_version_one_again :
  countVersions (world_db reprocessed) 1%nat = 1%Z
  /\ isFulfilled (fst (runToEnd services (processUpload policy 1%nat true) reprocessed)) = true
  /\ map versionNumber
       (reconstructionVersions
          (world_db (snd (runToEnd services (processUpload policy 1%nat true) reprocessed))))
     = [1; 1]%Z.
Proof. vm_compute. now repeat split. Qed.



(* ================================================================= *)
(** * Further properties of the code *)

(** ** Order of numbers *)

Lemma SFcompare_antisym x y :
  SFcompare y x = option_map CompOpp (SFcompare x y).
Proof.
  destruct x as [sx | sx | | sx mx ex], y as [sy | sy | | sy my ey]; cbn;
    try reflexivity; try (now destruct sx); try (now destruct sy);
    try (now destruct sx, sy).
  destruct sx, sy; try reflexivity; f_equal;
    rewrite (Z.compare_antisym ex ey); destruct (ex ?= ey)%Z; cbn; try reflexivity;
    now rewrite (Pos.compare_cont_antisym mx my Eq).
Qed.

Lemma SFcompare_refl x : x <> S754_nan -> SFcompare x x = Some Eq.
Proof.
  destruct x as [s | s | | s m e]; cbn; try congruence; intros _.
  - now destruct s.
  - rewrite Z.compare_refl, Pos.compare_cont_refl. now destruct s.
Qed.

Lemma not_nan_SF x : PrimFloat.is_nan x = false -> Prim2SF x <> S754_nan.
Proof.
  unfold PrimFloat.is_nan. rewrite FloatAxioms.eqb_spec. intros H E.
  rewrite E in H. discriminate.
Qed.

Lemma leb_refl x : PrimFloat.is_nan x = false -> PrimFloat.leb x x = true.
Proof.
  intros H. rewrite leb_spec. unfold SFleb.
  now rewrite (SFcompare_refl _ (not_nan_SF x H)).
Qed.

Lemma ltb_leb x y : PrimFloat.ltb x y = true -> PrimFloat.leb x y = true.
Proof.
  rewrite ltb_spec, leb_spec. unfold SFltb, SFleb.
  now destruct (SFcompare (Prim2SF x) (Prim2SF y)) as [[| |] |].
Qed.

(** Two numbers, neither below the other, are each at most the other. *)
Lemma not_ltb_leb x y :
  PrimFloat.is_nan x = false -> PrimFloat.is_nan y = false ->
  PrimFloat.ltb x y = false -> PrimFloat.ltb y x = false ->
  PrimFloat.leb x y = true.
Proof.
  intros Hx Hy. rewrite !ltb_spec, leb_spec. unfold SFltb, SFleb.
  rewrite (SFcompare_antisym (Prim2SF x) (Prim2SF y)).
  apply not_nan_SF in Hx, Hy.
  destruct (Prim2SF x) as [sx | sx | | sx mx ex] eqn:Ex; try congruence;
    destruct (Prim2SF y) as [sy | sy | | sy my ey] eqn:Ey; try congruence;
    match goal with
    | |- context [SFcompare ?a ?b] => destruct (SFcompare a b) as [[| |] |] eqn:Ec
    end; cbn; try congruence; cbn in Ec; try discriminate;
    try (destruct sx; discriminate); try (destruct sy; discriminate);
    try (destruct sx, sy; discriminate).
Qed.

Lemma Math_max_bounds a b :
  PrimFloat.is_nan a = false -> PrimFloat.is_nan b = false ->
  PrimFloat.leb a (Math_max a b) = true /\ PrimFloat.leb b (Math_max a b) = true.
Proof.
  intros Ha Hb. unfold Math_max. rewrite Ha, Hb. cbn [orb].
  destruct (PrimFloat.ltb a b) eqn:Hab.
  - split; [now apply ltb_leb | now apply leb_refl].
  - destruct (PrimFloat.ltb b a) eqn:Hba.
    + split; [now apply leb_refl | now apply ltb_leb].
    + destruct (PrimFloat.get_sign a).
      * split; [now apply not_ltb_leb | now apply leb_refl].
      * split; [now apply leb_refl | now apply not_ltb_leb].
Qed.

Lemma Math_min_bounds a b :
  PrimFloat.is_nan a = false -> PrimFloat.is_nan b = false ->
  PrimFloat.leb (Math_min a b) a = true /\ PrimFloat.leb (Math_min a b) b = true.
Proof.
  intros Ha Hb. unfold Math_min. rewrite Ha, Hb. cbn [orb].
  destruct (PrimFloat.ltb a b) eqn:Hab.
  - split; [now apply leb_refl | now apply ltb_leb].
  - destruct (PrimFloat.ltb b a) eqn:Hba.
    + split; [now apply ltb_leb | now apply leb_refl].
    + destruct (PrimFloat.get_sign a).
      * split; [now apply leb_refl | now apply not_ltb_leb].
      * split; [now apply not_ltb_leb | now apply leb_refl].
Qed.

(** ** Trimming *)

Lemma trimStart_idempotent s : trimStart (trimStart s) = trimStart s.
Proof.
  induction s as [| c s IH]; [reflexivity |]. cbn [trimStart].
  destruct (isWhiteSpace c) eqn:Hc; [exact IH |]. cbn [trimStart]. now rewrite Hc.
Qed.

Lemma trimStart_head s : trimStart s = [] \/ exists c t, trimStart s = c :: t /\ isWhiteSpace c = false.
Proof.
  induction s as [| c s IH]; [now left |]. cbn [trimStart].
  destruct (isWhiteSpace c) eqn:Hc; [exact IH |]. right. now exists c, s.
Qed.

Lemma trimStart_keeps_last s c :
  isWhiteSpace c = false -> exists u, trimStart (s ++ [c]) = u ++ [c].
Proof.
  intros Hc. induction s as [| d s IH]; cbn [app trimStart].
  - rewrite Hc. now exists [].
  - destruct (isWhiteSpace d); [exact IH |]. now exists (d :: s).
Qed.

Lemma trimStart_trimEnd s :
  trimStart (trimEnd (trimStart s)) = trimEnd (trimStart s).
Proof.
  destruct (trimStart_head s) as [-> | (c & t & -> & Hc)]; [reflexivity |].
  unfold trimEnd. cbn [rev].
  destruct (trimStart_keeps_last (rev t) c Hc) as [u ->].
  rewrite rev_app_distr. cbn [rev app trimStart]. now rewrite Hc.
Qed.

(** [s.trim().trim()] is [s.trim()]. *)
Lemma trim_idempotent s : trim (trim s) = trim s.
Proof.
  unfold trim. rewrite trimStart_trimEnd. unfold trimEnd.
  now rewrite rev_involutive, trimStart_idempotent.
Qed.

Import Further.

(** ** Text extraction, in closed form *)

(** [extractTextWithGemini] throws before it issues any request, or not at
    all. *)
Lemma extractTextWithGemini_throws_early env imagePath l e l1 :
  extractTextWithGemini env imagePath l = (inl e, l1) -> l1 = l.
Proof.
  unfold extractTextWithGemini.
  destruct (GOOGLE_GEMINI_API_KEY env) as [apiKey |]; [| now intros [= _ <-]].
  destruct (truthy apiKey); [| now intros [= _ <-]].
  destruct (readFile env imagePath) as [err | base64Image]; [now intros [= _ <-] |].
  rewrite geminiLoop_outcome. destruct (firstYield _) as [[k t] |]; discriminate.
Qed.

Lemma extractTextFromImage_closed_form env imagePath log apiKey base64Image :
  GOOGLE_GEMINI_API_KEY env = Some apiKey ->
  truthy apiKey = true ->
  readFile env imagePath = inr base64Image ->
  extractTextFromImage env imagePath log =
  match firstYield (outcomesFrom env (length log) (ocrRequests apiKey base64Image)) with
  | Some (k, t) =>
      if truthy (trim t)
      then (inr (mkOCR (trim t) 0.90 gemini None),
            log ++ firstn (S k) (ocrRequests apiKey base64Image)
                ++ [verifyRequest env (trim t)])
      else (inr allMethodsFailed, log ++ firstn (S k) (ocrRequests apiKey base64Image))
  | None => (inr allMethodsFailed, log ++ ocrRequests apiKey base64Image)
  end.
Proof.
  intros Hk Ht Hr.
  assert (Hkey : truthy_opt (GOOGLE_GEMINI_API_KEY env) = true) by now rewrite Hk.
  rewrite (extractTextFromImage_with_key env imagePath log Hkey).
  rewrite (extractTextWithGemini_with_key env imagePath apiKey base64Image log Hk Ht Hr).
  rewrite geminiLoop_outcome.
  change (ocrRequestsOf apiKey base64Image apiConfigs) with (ocrRequests apiKey base64Image).
  destruct (firstYield _) as [[k t] |]; [| reflexivity].
  cbn [ocr_text]. destruct (truthy (trim t)); [| reflexivity].
  now rewrite <- app_assoc.
Qed.

Lemma extractTextFromImage_unreadable env imagePath log apiKey e :
  GOOGLE_GEMINI_API_KEY env = Some apiKey ->
  truthy apiKey = true ->
  readFile env imagePath = inl e ->
  extractTextFromImage env imagePath log = (inr allMethodsFailed, log).
Proof.
  intros Hk Ht Hr.
  assert (Hkey : truthy_opt (GOOGLE_GEMINI_API_KEY env) = true) by now rewrite Hk.
  rewrite (extractTextFromImage_with_key env imagePath log Hkey).
  unfold extractTextWithGemini. now rewrite Hk, Ht, Hr.
Qed.

(** The three ways a call of [extractTextFromImage] ends. *)
Lemma extractTextFromImage_cases env imagePath log :
  extractTextFromImage env imagePath log = (inr allMethodsFailed, log)
  \/ (exists apiKey base64Image k,
         (k <= 4)%nat
         /\ extractTextFromImage env imagePath log
            = (inr allMethodsFailed, log ++ firstn k (ocrRequests apiKey base64Image)))
  \/ (exists apiKey base64Image k t,
         (k <= 4)%nat
         /\ truthy (trim t) = true
         /\ extractTextFromImage env imagePath log
            = (inr (mkOCR (trim t) 0.90 gemini None),
               log ++ firstn k (ocrRequests apiKey base64Image)
                   ++ [verifyRequest env (trim t)])).
Proof.
  destruct (GOOGLE_GEMINI_API_KEY env) as [apiKey |] eqn:Hk.
  2: { left. apply extractTextFromImage_without_key. now rewrite Hk. }
  destruct (truthy apiKey) eqn:Ht.
  2: { left. apply extractTextFromImage_without_key. rewrite Hk. exact Ht. }
  destruct (readFile env imagePath) as [e | base64Image] eqn:Hr.
  { left. now apply extractTextFromImage_unreadable with (apiKey := apiKey) (e := e). }
  rewrite (extractTextFromImage_closed_form env imagePath log apiKey base64Image Hk Ht Hr).
  assert (Hlen : forall k, (length (firstn k (ocrRequests apiKey base64Image)) <= 4)%nat).
  { intros k. rewrite length_firstn. cbn. lia. }
  destruct (firstYield _) as [[k t] |].
  - destruct (truthy (trim t)) eqn:Htrim.
    + right. right. exists apiKey, base64Image, (Nat.min (S k) 4), t.
      split; [lia |]. split; [exact Htrim |].
      replace (firstn (Nat.min (S k) 4) (ocrRequests apiKey base64Image))
        with (firstn (S k) (ocrRequests apiKey base64Image)); [reflexivity |].
      symmetry. apply (firstn_min_length (S k) (ocrRequests apiKey base64Image)).
    + right. left. exists apiKey, base64Image, (Nat.min (S k) 4). split; [lia |].
      replace (firstn (Nat.min (S k) 4) (ocrRequests apiKey base64Image))
        with (firstn (S k) (ocrRequests apiKey base64Image)); [reflexivity |].
      symmetry. apply (firstn_min_length (S k) (ocrRequests apiKey base64Image)).
  - right. left. exists apiKey, base64Image, 4%nat. split; [lia | reflexivity].
Qed.

(** X1. [extractTextFromImage] never throws and has two kinds of result
    only: the fixed failure (empty text, confidence 0, method [fallback],
    the fixed message), or a success of method [gemini] with confidence
    0.90, no error, and a text that is not empty and is trimmed. *)
Theorem extractTextFromImage_success_or_fixed_failure :
  forall env imagePath log,
    exists result log',
      extractTextFromImage env imagePath log = (inr result, log')
      /\ (result = allMethodsFailed
          \/ (ocr_confidence result = 0.90
              /\ ocr_method result = gemini
              /\ ocr_error result = None
              /\ truthy (ocr_text result) = true
              /\ trim (ocr_text result) = ocr_text result)).
Proof.
  intros env imagePath log.
  destruct (extractTextFromImage_cases env imagePath log)
    as [E | [(apiKey & b & k & _ & E) | (apiKey & b & k & t & _ & Ht & E)]];
    rewrite E; eexists _, _; (split; [reflexivity |]); [now left | now left |].
  right. cbn [ocr_confidence ocr_method ocr_error ocr_text].
  repeat split; [exact Ht | apply trim_idempotent].
Qed.

(** X2. A call of [extractTextFromImage] issues at most five requests: the
    OCR requests of the first configurations, in order and at most four,
    then at most one verification request.  Without an API key, or when
    the image cannot be read, it issues none. *)
Theorem extractTextFromImage_request_budget :
  forall env imagePath log,
    exists issued,
      snd (extractTextFromImage env imagePath log) = log ++ issued
      /\ (length issued <= 5)%nat
      /\ (noApiKey env = true -> issued = [])
      /\ (forall e, readFile env imagePath = inl e -> issued = []).
Proof.
  intros env imagePath log.
  assert (Hlen : forall apiKey b k,
             (length (firstn k (ocrRequests apiKey b)) <= 4)%nat).
  { intros apiKey b k. rewrite length_firstn. cbn. lia. }
  destruct (noApiKey env) eqn:Hno.
  { exists []. unfold noApiKey in Hno. apply negb_true_iff in Hno.
    rewrite (extractTextFromImage_without_key env imagePath log Hno).
    cbn [snd]. rewrite app_nil_r. repeat split; cbn; auto; lia. }
  unfold noApiKey in Hno. apply negb_false_iff in Hno.
  destruct (GOOGLE_GEMINI_API_KEY env) as [apiKey |] eqn:Hk; [| discriminate].
  cbn [truthy_opt] in Hno.
  destruct (readFile env imagePath) as [e | base64Image] eqn:Hr.
  { exists [].
    rewrite (extractTextFromImage_unreadable env imagePath log apiKey e Hk Hno Hr).
    cbn [snd]. rewrite app_nil_r. repeat split; cbn; auto; lia. }
  rewrite (extractTextFromImage_closed_form env imagePath log apiKey base64Image Hk Hno Hr).
  destruct (firstYield _) as [[k t] |]; [destruct (truthy (trim t)) |]; cbn [snd];
    eexists; (split; [reflexivity |]); (split; [| split; [discriminate | discriminate]]).
  - rewrite length_app. cbn [length]. specialize (Hlen apiKey base64Image (S k)). lia.
  - specialize (Hlen apiKey base64Image (S k)). lia.
  - cbn. lia.
Qed.

(** X3. When the first configuration that yields text yields blank text
    (white space only), [extractTextFromImage] stops there: it returns the
    fixed failure and requests no later configuration. *)
Theorem extractTextFromImage_blank_text_ends_the_search :
  forall env imagePath log apiKey base64Image k t,
    GOOGLE_GEMINI_API_KEY env = Some apiKey ->
    truthy apiKey = true ->
    readFile env imagePath = inr base64Image ->
    firstYield (outcomesFrom env (length log) (ocrRequests apiKey base64Image)) = Some (k, t) ->
    truthy (trim t) = false ->
    extractTextFromImage env imagePath log
    = (inr allMethodsFailed, log ++ firstn (S k) (ocrRequests apiKey base64Image)).
Proof.
  intros env imagePath log apiKey base64Image k t Hk Ht Hr Hy Hblank.
  rewrite (extractTextFromImage_closed_form env imagePath log apiKey base64Image Hk Ht Hr).
  now rewrite Hy, Hblank.
Qed.

(** ** Translation, in closed form *)

Lemma translateAttempt_outcome env apiKey text config l :
  translateAttempt env apiKey text config l =
  (inr (option_map (fun t => mkTranslation (VString (trim t)) 0.88)
          (deliversTranslation (network env (length l) (GeminiTranslate apiKey config text)))),
   l ++ [GeminiTranslate apiKey config text]).
Proof.
  unfold translateAttempt, try_catch, bind, httpsRequest, deliversTranslation.
  destruct (network env (length l) _) as [m | st body]; [reflexivity |].
  destruct (response_ok (mkResponse st body)).
  - unfold response_json. cbn [response_body].
    destruct body as [m | b]; [reflexivity |]. unfold ret.
    now destruct (truthy (or_str (candidateText b) [])).
  - cbn [response_status]. now destruct (st =? 404)%Z.
Qed.

Lemma translateLoop_outcome env apiKey text glyphs configs : forall l,
  translateLoop env apiKey text glyphs configs l =
  match firstDelivery
          (outcomesFrom env (length l)
             (map (fun config => GeminiTranslate apiKey config text) configs)) with
  | Some (k, t) =>
      (inr (mkTranslation (VString (trim t)) 0.88),
       l ++ firstn (S k) (map (fun config => GeminiTranslate apiKey config text) configs))
  | None =>
      (inr (staticTranslation text glyphs),
       l ++ map (fun config => GeminiTranslate apiKey config text) configs)
  end.
Proof.
  induction configs as [| config configs IH]; intros l.
  - cbn. now rewrite app_nil_r.
  - cbn [translateLoop map outcomesFrom firstDelivery].
    unfold bind. rewrite translateAttempt_outcome.
    destruct (deliversTranslation (network env (length l) _)) as [t |]; cbn [option_map].
    + reflexivity.
    + rewrite IH, length_app. cbn [length]. rewrite Nat.add_1_r.
      destruct (firstDelivery _) as [[k t] |]; cbn [firstn]; now rewrite <- app_assoc.
Qed.

(** X4. With an API key, [generateTranslation] on a text that is not
    empty asks the configurations in order and stops at the first that
    delivers a translation, which it returns trimmed with confidence 0.88;
    when none delivers, it has asked each of the four exactly once and
    returns what it returns without a key (phrase table, else template). *)
Theorem generateTranslation_backend_first :
  forall env apiKey text glyphs log,
    GOOGLE_GEMINI_API_KEY env = Some apiKey ->
    truthy apiKey = true ->
    truthy text = true ->
    generateTranslation env text glyphs log =
    match firstDelivery (outcomesFrom env (length log) (translateRequests apiKey text)) with
    | Some (k, t) =>
        (inr (mkTranslation (VString (trim t)) 0.88),
         log ++ firstn (S k) (translateRequests apiKey text))
    | None =>
        (inr (staticTranslation text glyphs), log ++ translateRequests apiKey text)
    end.
Proof.
  intros env apiKey text glyphs log Hk Hkey Ht. unfold generateTranslation.
  rewrite Ht, Hk. cbn [negb]. cbv zeta. unfold or_str. rewrite !Hkey.
  apply translateLoop_outcome.
Qed.

(** An empty text is never sent to the translation backend: the
    apology comes back with confidence 0 and no request is issued, with or
    without an API key. *)
Remark generateTranslation_empty_text_no_request :
  forall env glyphs log,
    generateTranslation env [] glyphs log
    = (inr (mkTranslation (VString apologyText) 0), log).
Proof. reflexivity. Qed.

Lemma staticTranslation_no_glyphs text :
  tr_confidence (staticTranslation text []) = 0.90
  \/ tr_confidence (staticTranslation text []) = 0.70.
Proof.
  unfold staticTranslation.
  destruct (truthy_val (lookupCommonTranslation text)); [| now right].
  destruct (lookupCommonTranslation text); [now left | now right].
Qed.

Lemma generateTranslation_first_pass env text l r l' :
  truthy text = true ->
  generateTranslation env text [] l = (inr r, l') ->
  tr_confidence r = 0.88 \/ tr_confidence r = 0.90 \/ tr_confidence r = 0.70.
Proof.
  intros Ht. unfold generateTranslation. rewrite Ht. cbn [negb].
  destruct (truthy (or_str (GOOGLE_GEMINI_API_KEY env) [])).
  - rewrite translateLoop_outcome.
    destruct (firstDelivery _) as [[k t] |]; intros [= <- _]; [now left |].
    right. apply staticTranslation_no_glyphs.
  - intros [= <- _]. right. apply staticTranslation_no_glyphs.
Qed.

(** ** The pipeline's result *)

Lemma extractTextFromImage_empty_text env imagePath l ocr l1 :
  extractTextFromImage env imagePath l = (inr ocr, l1) ->
  truthy (ocr_text ocr) = false ->
  ocr = allMethodsFailed.
Proof.
  destruct (extractTextFromImage_cases env imagePath l)
    as [E | [(apiKey & b & k & _ & E) | (apiKey & b & k & t & _ & Ht & E)]];
    rewrite E; intros [= <- _]; try reflexivity.
  cbn [ocr_text]. now rewrite Ht.
Qed.

(** X5. Whatever made the extraction fail, the error [processAncientText]
    throws carries one and the same message, which names no backend
    detail. *)
Theorem processAncientText_error_message :
  forall env imagePath db log e log',
    processAncientText env imagePath db log = (inl e, log') ->
    e = extractionFailureMessage.
Proof.
  intros env imagePath db log e log'. unfold processAncientText.
  destruct (extractTextFromImage_returns env imagePath log) as (ocr & l1 & HE).
  unfold bind at 1. rewrite HE.
  destruct (truthy (ocr_text ocr)) eqn:Ht; cbn [negb].
  - destruct (generateTranslation_returns env (ocr_text ocr) [] l1) as (tr & l2 & E2).
    unfold bind at 1. rewrite E2.
    destruct (matchGlyphs_returns env (ocr_text ocr) db (Some (translation tr)) l2)
      as (gs & l3 & E3).
    unfold bind. rewrite E3. discriminate.
  - destruct (devFallbackEnabled env); [discriminate |].
    rewrite (extractTextFromImage_empty_text env imagePath log ocr l1 HE Ht).
    now intros [= <- _].
Qed.

(** X6. A result of [processAncientText] is the development sample
    (method [fallback-dev], confidence 0.50, no glyphs, the fallback being
    enabled) or a result of method [gemini] whose text is not empty and is
    trimmed, and whose confidence is that of the first-pass translation,
    made without glyphs: 0.88, 0.90 or 0.70, whatever the glyphs'
    confidences. *)
Theorem processAncientText_result_kinds :
  forall env imagePath db log result log',
    processAncientText env imagePath db log = (inr result, log') ->
    (devFallbackEnabled env = true
     /\ result = mkProcessing text_dao_fa_zi_ran [] (Some (js "Traditional Chinese")) 0.50
                   (js "fallback-dev"))
    \/ (pr_method result = js "gemini"
        /\ truthy (extractedText result) = true
        /\ trim (extractedText result) = extractedText result
        /\ scriptType result <> None
        /\ (pr_confidence result = 0.88 \/ pr_confidence result = 0.90
            \/ pr_confidence result = 0.70)).
Proof.
  intros env imagePath db log result log'. unfold processAncientText.
  destruct (extractTextFromImage_returns env imagePath log) as (ocr & l1 & HE).
  unfold bind at 1. rewrite HE.
  destruct (truthy (ocr_text ocr)) eqn:Ht; cbn [negb].
  - assert (Hm : ocr_method ocr = gemini /\ trim (ocr_text ocr) = ocr_text ocr).
    { destruct (extractTextFromImage_cases env imagePath log)
        as [E | [(apiKey & b & k & _ & E) | (apiKey & b & k & t & _ & _ & E)]];
        rewrite E in HE; injection HE as <- _; try discriminate.
      split; [reflexivity | apply trim_idempotent]. }
    destruct Hm as [Hm Htrim].
    destruct (generateTranslation_returns env (ocr_text ocr) [] l1) as (tr & l2 & E2).
    unfold bind at 1. rewrite E2.
    destruct (matchGlyphs_returns env (ocr_text ocr) db (Some (translation tr)) l2)
      as (gs & l3 & E3).
    unfold bind. rewrite E3. unfold ret. intros [= <- _]. right.
    cbn [pr_method extractedText scriptType pr_confidence]. rewrite Hm.
    repeat split; auto; [discriminate |].
    now apply generateTranslation_first_pass with (env := env) (text := ocr_text ocr)
                                                  (l := l1) (l' := l2).
  - destruct (devFallbackEnabled env); [| discriminate].
    unfold ret. intros [= <- _]. now left.
Qed.

(** A number at least some positive constant is at least every smaller
    positive constant of the same binade. *)
Lemma leb_below a b c ma mb e :
  Prim2SF a = S754_finite false ma e ->
  Prim2SF b = S754_finite false mb e ->
  (ma <= mb)%positive ->
  PrimFloat.leb b c = true -> PrimFloat.leb a c = true.
Proof.
  intros Ha Hb Hm. rewrite !leb_spec. unfold SFleb. rewrite Ha, Hb.
  destruct (Prim2SF c) as [s | s | | s m e']; cbn [SFcompare]; try easy.
  destruct s; [easy |].
  destruct (e ?= e')%Z; try easy.
  change (Pos.compare_cont Eq mb m) with (Pos.compare mb m).
  change (Pos.compare_cont Eq ma m) with (Pos.compare ma m).
  destruct (Pos.compare_spec mb m), (Pos.compare_spec ma m); try easy; lia.
Qed.

(** ** The matches, one per character *)

Lemma or_num_not_nan x : PrimFloat.is_nan (or_num x 0.75) = false.
Proof.
  unfold or_num, truthy_num.
  destruct (PrimFloat.is_nan x) eqn:Hn; [now rewrite orb_true_r |].
  now destruct (PrimFloat.is_zero x).
Qed.

Lemma matchCharacter_shape env aiMeanings dbGlyphs i char l :
  exists g l1,
    matchCharacter env aiMeanings dbGlyphs i char l = (inr g, l1)
    /\ match g with
       | None => existsb isPunctuation char = true
       | Some m =>
           existsb isPunctuation char = false
           /\ gm_symbol m = char
           /\ gm_position m = i
           /\ gm_boundingBox m = Some (placeBox i)
           /\ matcherConfidence (gm_confidence m)
           /\ hasMeaning m
       end.
Proof.
  unfold matchCharacter, matcherConfidence, hasMeaning.
  destruct (existsb isPunctuation char) eqn:Hp; [now exists None, l |].
  destruct (findMatchedGlyph env dbGlyphs char) as [matched |].
  - eexists (Some _), l. split; [reflexivity |].
    cbn [gm_symbol gm_position gm_boundingBox gm_confidence gm_meaning truthy_opt].
    repeat split.
    + destruct (aiMeaningOf aiMeanings char); [now right; right; left |].
      destruct (truthy_opt (dbMeaningOf matched)
                && negb (isPlaceholderMeaning (dbMeaningOf matched))); [| now left].
      right. right. right.
      apply (Math_max_bounds (or_num (glyph_confidence matched) 0.75) 0.75);
        [apply or_num_not_nan | reflexivity].
    + unfold aiMeaningOf.
      destruct (dict_get aiMeanings char) as [m |].
      * destruct (truthy m) eqn:Hm; [exact Hm |].
        destruct (truthy_opt (dbMeaningOf matched)) eqn:Hd; cbn [andb]; [| reflexivity].
        destruct (negb _); [| reflexivity].
        unfold truthy_opt in Hd. unfold or_str.
        destruct (dbMeaningOf matched) as [d |]; [| discriminate]. now rewrite Hd.
      * destruct (truthy_opt (dbMeaningOf matched)) eqn:Hd; cbn [andb]; [| reflexivity].
        destruct (negb _); [| reflexivity].
        unfold truthy_opt in Hd. unfold or_str.
        destruct (dbMeaningOf matched) as [d |]; [| discriminate]. now rewrite Hd.
  - destruct (aiMeaningOf aiMeanings char) as [aiMeaning |] eqn:Hai.
    + eexists (Some _), l. split; [reflexivity |].
      cbn [gm_symbol gm_position gm_boundingBox gm_confidence gm_meaning truthy_opt].
      repeat split; [now right; right; left |].
      unfold aiMeaningOf in Hai. destruct (dict_get aiMeanings char) as [m |]; [| discriminate].
      destruct (truthy m) eqn:Hm; [| discriminate]. now injection Hai as <-.
    + destruct (singleCharacterLookup_result env char l) as (r & l1 & E & Hr).
      unfold bind. rewrite E. eexists (Some _), l1. split; [reflexivity |].
      cbn [gm_symbol gm_position gm_boundingBox gm_confidence gm_meaning truthy_opt].
      repeat split.
      * rewrite Hr. destruct r; [now right; left | now left].
      * unfold or_str. destruct r as [m |]; [| reflexivity].
        cbn [truthy_opt] in Hr. now rewrite Hr.
Qed.

Lemma matchLoop_shape env aiMeanings dbGlyphs chars :
  forall i l, exists gs l',
    matchLoop env aiMeanings dbGlyphs i chars l = (inr gs, l')
    /\ map gm_symbol gs = filter qualifying chars
    /\ Forall (sitsFrom i chars) gs
    /\ Forall (fun g => matcherConfidence (gm_confidence g) /\ hasMeaning g) gs
    /\ StronglySorted precedes gs.
Proof.
  induction chars as [| char chars IH]; intros i l.
  - exists [], l. repeat split; constructor.
  - cbn [matchLoop].
    destruct (matchCharacter_shape env aiMeanings dbGlyphs i char l) as (g & l1 & E & Hg).
    destruct (IH (i + 1)%Z l1) as (gs & l' & E' & Hsym & Hsit & Hconf & Hsort).
    unfold bind. rewrite E, E'. unfold ret.
    assert (Hshift : Forall (sitsFrom i (char :: chars)) gs).
    { eapply Forall_impl; [| exact Hsit].
      intros m (Hle & Hnth & Hbox & Hpunct). repeat split; try assumption; [lia |].
      replace (Z.to_nat (gm_position m - i))
        with (S (Z.to_nat (gm_position m - (i + 1)))) by lia.
      exact Hnth. }
    destruct g as [m |].
    + destruct Hg as (Hp & Hs & Hpos & Hbox & Hc & Hm).
      exists (m :: gs), l'. split; [reflexivity |].
      cbn [map filter]. unfold qualifying at 1. rewrite Hp. cbn [negb].
      repeat split.
      * now rewrite Hs, Hsym.
      * constructor; [| exact Hshift].
        repeat split; rewrite ?Hpos, ?Hs; try assumption; [lia |].
        now rewrite Z.sub_diag.
      * constructor; [now split | exact Hconf].
      * constructor; [exact Hsort |].
        eapply Forall_impl; [| exact Hsit].
        intros m' (Hle & _ & Hbox' & _). unfold precedes, leftOf.
        rewrite Hbox, Hbox', Hpos. cbn. lia.
    + exists gs, l'. split; [reflexivity |].
      cbn [filter]. unfold qualifying at 1. rewrite Hg. cbn [negb].
      repeat split; assumption.
Qed.

Lemma sitsFrom_zero characters g : sitsFrom 0 characters g -> sitsIn characters g.
Proof.
  intros (Hle & Hnth & Hbox & Hp). rewrite Z.sub_0_r in Hnth. now repeat split.
Qed.

Lemma matchGlyphs_shape env extractedText db translationContext log :
  exists glyphs log',
    matchGlyphs env extractedText db translationContext log = (inr glyphs, log')
    /\ map gm_symbol glyphs = filter qualifying (Array_from (stripWhiteSpace extractedText))
    /\ Forall (sitsIn (Array_from (stripWhiteSpace extractedText))) glyphs
    /\ Forall (fun g => matcherConfidence (gm_confidence g) /\ hasMeaning g) glyphs
    /\ StronglySorted precedes glyphs.
Proof.
  unfold matchGlyphs. destruct extractedText as [| c text].
  - exists [], log. repeat split; constructor.
  - cbn [truthy negb].
    destruct (getCharacterMeanings_returns env (c :: text) translationContext log)
      as (ai & l1 & E).
    unfold bind. rewrite E.
    destruct (matchLoop_shape env ai (glyphs db)
                (Array_from (stripWhiteSpace (c :: text))) 0%Z l1)
      as (gs & l' & E' & Hsym & Hsit & Hconf & Hsort).
    exists gs, l'. cbv zeta. split; [exact E' |]. repeat split; try assumption.
    eapply Forall_impl; [| exact Hsit]. intros g. apply sitsFrom_zero.
Qed.

(** X7. [matchGlyphs] returns one match for each character of the text
    that is neither white space nor punctuation, in the order of the text
    and whatever the store and the backend hold: the symbols of the matches
    are exactly those characters.  Each match sits at its character's
    index among the characters without white space, with the box placed
    there, so positions grow strictly and boxes never overlap. *)
Theorem matchGlyphs_one_match_per_character :
  forall env extractedText db translationContext log,
    exists glyphs log',
      matchGlyphs env extractedText db translationContext log = (inr glyphs, log')
      /\ map gm_symbol glyphs
         = filter qualifying (Array_from (stripWhiteSpace extractedText))
      /\ Forall (sitsIn (Array_from (stripWhiteSpace extractedText))) glyphs
      /\ StronglySorted precedes glyphs.
Proof.
  intros env extractedText db translationContext log.
  destruct (matchGlyphs_shape env extractedText db translationContext log)
    as (gs & l' & E & Hsym & Hsit & _ & Hsort).
  now exists gs, l'.
Qed.

(** X8. Every match of [matchGlyphs] has a meaning that is not empty and a
    confidence that is 0.60, 0.70, 0.85 or at least 0.75: never [NaN] and
    never below 0.60, whatever confidences the store holds. *)
Theorem matchGlyphs_confidence_floor :
  forall env extractedText db translationContext log,
    exists glyphs log',
      matchGlyphs env extractedText db translationContext log = (inr glyphs, log')
      /\ Forall (fun g => matcherConfidence (gm_confidence g)
                          /\ PrimFloat.leb 0.60 (gm_confidence g) = true
                          /\ hasMeaning g) glyphs.
Proof.
  intros env extractedText db translationContext log.
  destruct (matchGlyphs_shape env extractedText db translationContext log)
    as (gs & l' & E & _ & _ & Hconf & _).
  exists gs, l'. split; [exact E |].
  eapply Forall_impl; [| exact Hconf].
  intros g [Hc Hm]. repeat split; try assumption.
  destruct Hc as [-> | [-> | [-> | Hc]]]; try reflexivity.
  apply (leb_below 0.60 0.75 (gm_confidence g)
           5404319552844595 6755399441055744 (-53)); [reflexivity | reflexivity | lia | exact Hc].
Qed.

(** ** The requests for character meanings *)

Lemma batchesFrom_concat n l : (0 < n)%nat ->
  forall turns i, (length l - i <= turns)%nat ->
    concat (batchesFrom turns i n l) = skipn i l.
Proof.
  intros Hn. induction turns as [| turns IH]; intros i Hi.
  - cbn. symmetry. apply skipn_all2. lia.
  - cbn [batchesFrom]. destruct (i <? length l)%nat eqn:Hlt.
    + apply Nat.ltb_lt in Hlt. cbn [concat]. rewrite IH by lia. unfold slice.
      replace (skipn (i + n) l) with (skipn n (skipn i l))
        by (rewrite skipn_skipn; f_equal; lia).
      apply firstn_skipn.
    + apply Nat.ltb_ge in Hlt. cbn. symmetry. now apply skipn_all2.
Qed.

Lemma batchesFrom_sizes n l : (0 < n)%nat ->
  forall turns i,
    Forall (fun batch => (1 <= length batch <= n)%nat) (batchesFrom turns i n l).
Proof.
  intros Hn. induction turns as [| turns IH]; intros i; cbn [batchesFrom]; [constructor |].
  destruct (i <? length l)%nat eqn:Hlt; [| constructor].
  apply Nat.ltb_lt in Hlt. constructor; [| apply IH].
  unfold slice. rewrite length_firstn, length_skipn. lia.
Qed.

Lemma batchesFrom_count n l : (0 < n)%nat ->
  forall turns i, (i <= length l)%nat ->
    (n * length (batchesFrom turns i n l) < length l - i + n)%nat.
Proof.
  intros Hn. induction turns as [| turns IH]; intros i Hi; cbn [batchesFrom].
  - cbn. lia.
  - destruct (i <? length l)%nat eqn:Hlt; [| cbn; lia].
    apply Nat.ltb_lt in Hlt. cbn [length].
    destruct (Nat.le_gt_cases (i + n) (length l)) as [Hle | Hgt].
    + specialize (IH (i + n)%nat Hle). lia.
    + assert (Hnone : batchesFrom turns (i + n) n l = []).
      { destruct turns; [reflexivity |]. cbn [batchesFrom].
        replace (i + n <? length l)%nat with false; [reflexivity |].
        symmetry. apply Nat.ltb_ge. lia. }
      rewrite Hnone. cbn. lia.
Qed.

(** X9. The fallback of [getCharacterMeanings] cuts the characters into
    consecutive batches that lose, repeat and reorder nothing: put end to
    end the batches give the characters back, each batch holds between 1
    and 20 characters, and there are no more batches than needed. *)
Theorem meaning_batches_partition :
  forall uniqueChars : list jsstring,
    concat (batchesFrom (length uniqueChars) 0 20 uniqueChars) = uniqueChars
    /\ Forall (fun batch => (1 <= length batch <= 20)%nat)
         (batchesFrom (length uniqueChars) 0 20 uniqueChars)
    /\ (20 * length (batchesFrom (length uniqueChars) 0 20 uniqueChars)
        < length uniqueChars + 20)%nat.
Proof.
  intros uniqueChars. repeat split.
  - rewrite batchesFrom_concat by lia. reflexivity.
  - apply batchesFrom_sizes. lia.
  - pose proof (batchesFrom_count 20 uniqueChars ltac:(lia) (length uniqueChars) 0%nat
                  ltac:(lia)). lia.
Qed.

Lemma meaningsFallbackLoop_log env apiKey batches : forall meanings l,
  snd (meaningsFallbackLoop env apiKey batches meanings l)
  = l ++ map (fun batch => GeminiBatchMeanings apiKey (join batch)) batches.
Proof.
  induction batches as [| batch batches IH]; intros meanings l; cbn [meaningsFallbackLoop map].
  - cbn. now rewrite app_nil_r.
  - match goal with
    | |- snd (bind ?c ?k l) = _ =>
        assert (H : exists m, c l = (inr m, l ++ [GeminiBatchMeanings apiKey (join batch)]));
        [| destruct H as [m Hm]; rewrite (bind_inr c k l m _ Hm)]
    end.
    { unfold try_catch, bind, httpsRequest.
      destruct (network env (length l) _) as [m | st body]; [now eexists |].
      destruct (response_ok (mkResponse st body)); [| now eexists].
      unfold response_json. cbn [response_body].
      destruct body as [m | b]; now eexists. }
    rewrite IH, <- app_assoc. reflexivity.
Qed.

Lemma no_CJK_no_uniqueChars text :
  forallb (fun c => negb (isCJK c)) text = true -> uniqueCharsOf text = [].
Proof.
  intros Hall. rewrite forallb_forall in Hall.
  unfold uniqueCharsOf. apply filter_none. intros ch Hin.
  apply dedupe_into_incl in Hin. apply Array_from_elements in Hin as [_ Hincl].
  apply existsb_none. intros x Hx. apply Hincl in Hx.
  unfold stripWhiteSpace in Hx. apply filter_In in Hx as [Hx _].
  apply negb_true_iff. now apply Hall.
Qed.

(** X10. [getCharacterMeanings] never throws, and it asks the backend at
    most once for all characters together and then at most once per batch
    of 20 distinct CJK characters.  Without an API key, or for a text that
    holds no CJK character, it asks nothing and returns no meaning. *)
Theorem getCharacterMeanings_request_budget :
  forall env extractedText translationContext log,
    exists meanings issued,
      getCharacterMeanings env extractedText translationContext log
      = (inr meanings, log ++ issued)
      /\ (20 * length issued < length (uniqueCharsOf extractedText) + 40)%nat
      /\ (noApiKey env = true -> issued = [] /\ meanings = [])
      /\ (forallb (fun c => negb (isCJK c)) extractedText = true ->
          issued = [] /\ meanings = []).
Proof.
  intros env text ctx log. unfold getCharacterMeanings, noApiKey.
  assert (Hnil : exists (meanings : dict) (issued : Log),
             (inr (@nil (jsstring * jsstring)) : Err + dict, log)
             = (inr meanings, log ++ issued)
             /\ (20 * length issued < length (uniqueCharsOf text) + 40)%nat
             /\ (negb (truthy_opt (GOOGLE_GEMINI_API_KEY env)) = true ->
                 issued = [] /\ meanings = [])
             /\ (forallb (fun c => negb (isCJK c)) text = true ->
                 issued = [] /\ meanings = [])).
  { exists [], []. rewrite app_nil_r. cbn [length]. repeat split; lia. }
  destruct (negb (truthy text)); [exact Hnil |].
  destruct (length (uniqueCharsOf text) =? 0)%nat eqn:Hlen; [exact Hnil |].
  apply Nat.eqb_neq in Hlen. cbv zeta.
  assert (Hkey : truthy (or_str (GOOGLE_GEMINI_API_KEY env) [])
                 = truthy_opt (GOOGLE_GEMINI_API_KEY env)).
  { unfold or_str, truthy_opt. destruct (GOOGLE_GEMINI_API_KEY env) as [k |]; [| reflexivity].
    now destruct (truthy k) eqn:E. }
  rewrite Hkey.
  destruct (truthy_opt (GOOGLE_GEMINI_API_KEY env)) eqn:Hk.
  2: { unfold bind, ret. rewrite andb_false_r. exact Hnil. }
  set (apiKey := or_str (GOOGLE_GEMINI_API_KEY env) []).
  set (uniq := uniqueCharsOf text) in *.
  unfold bind at 1.
  match goal with
  | |- context [try_catch ?c ?h log] =>
      assert (Hfirst : exists m first,
                 try_catch c h log = (inr m, log ++ first) /\ (length first <= 1)%nat)
  end.
  { unfold try_catch, bind, ret, throw, httpsRequest, response_json.
    destruct ctx as [[s | x] |].
    2: { exists [], []. rewrite app_nil_r. split; [reflexivity | cbn; lia]. }
    all: destruct (network env (length log) _) as [m | st body];
      [eexists _, [_]; split; [reflexivity | cbn; lia] |].
    all: destruct (response_ok (mkResponse st body));
      [| eexists _, [_]; split; [reflexivity | cbn; lia]].
    all: cbn [response_body];
      destruct body as [m | b]; eexists _, [_]; (split; [reflexivity | cbn; lia]). }
  destruct Hfirst as (m & first & Hfirst & Hone). rewrite Hfirst.
  assert (Hno : forallb (fun c => negb (isCJK c)) text = true -> False).
  { intros H. apply no_CJK_no_uniqueChars in H. fold uniq in H. rewrite H in Hlen.
    now apply Hlen. }
  destruct ((length m =? 0)%nat && (0 <? length uniq)%nat && true) eqn:Hloop.
  - destruct (meaningsFallbackLoop_returns env apiKey
                (batchesFrom (length uniq) 0 20 uniq) m (log ++ first)) as (r & l' & E).
    pose proof (meaningsFallbackLoop_log env apiKey
                  (batchesFrom (length uniq) 0 20 uniq) m (log ++ first)) as Hlog.
    rewrite E in Hlog. cbn [snd] in Hlog. subst l'. rewrite E.
    eexists r, (first ++ _). rewrite app_assoc. split; [reflexivity |].
    split; [| split; [discriminate | intros H; now destruct (Hno H)]].
    rewrite length_app, length_map.
    pose proof (batchesFrom_count 20 uniq ltac:(lia) (length uniq) 0%nat ltac:(lia)). lia.
  - exists m, first. split; [reflexivity |].
    split; [lia | split; [discriminate | intros H; now destruct (Hno H)]].
Qed.

(** ** What the store holds for the other uploads *)

Lemma keepsOutside_refl touched db : keepsOutside touched db db.
Proof. now intros j _. Qed.

Lemma keepsOutside_trans touched db1 db2 db3 :
  keepsOutside touched db1 db2 -> keepsOutside touched db2 db3 ->
  keepsOutside touched db1 db3.
Proof. intros H12 H23 j Hj. now rewrite (H23 j Hj), (H12 j Hj). Qed.

Lemma keepsOutside_same_tables touched db db' :
  uploads db' = uploads db -> glyphMatches db' = glyphMatches db ->
  translations db' = translations db ->
  reconstructionVersions db' = reconstructionVersions db ->
  keepsOutside touched db db'.
Proof.
  intros Hu Hm Ht Hv j _.
  unfold holdingsOf, findUpload, matchesOf, translationsOf, versionsOf.
  now rewrite Hu, Hm, Ht, Hv.
Qed.

Lemma find_upload_other i j (f : Upload -> Upload) us :
  i <> j -> (forall u, upload_id (f u) = upload_id u) ->
  find (fun u => Nat.eqb (upload_id u) j)
       (map (fun u => if Nat.eqb (upload_id u) i then f u else u) us)
  = find (fun u => Nat.eqb (upload_id u) j) us.
Proof.
  intros Hij Hf. induction us as [| u us IH]; [reflexivity |]. cbn [map find].
  destruct (Nat.eqb (upload_id u) i) eqn:Hi.
  - rewrite Hf. apply Nat.eqb_eq in Hi.
    replace (Nat.eqb (upload_id u) j) with false; [exact IH |].
    symmetry. apply Nat.eqb_neq. congruence.
  - destruct (Nat.eqb (upload_id u) j); [reflexivity | exact IH].
Qed.

Lemma filter_app_other {A} (f : A -> bool) l x : f x = false -> filter f (l ++ [x]) = filter f l.
Proof. intros H. rewrite filter_app. cbn. rewrite H. apply app_nil_r. Qed.

Lemma filter_filter_other {A} (key : A -> id) i j l :
  i <> j ->
  filter (fun x => Nat.eqb (key x) j) (filter (fun x => negb (Nat.eqb (key x) i)) l)
  = filter (fun x => Nat.eqb (key x) j) l.
Proof.
  intros Hij. induction l as [| x l IH]; [reflexivity |]. cbn [filter].
  destruct (Nat.eqb (key x) i) eqn:Hi; cbn [negb filter].
  - apply Nat.eqb_eq in Hi.
    replace (Nat.eqb (key x) j) with false; [exact IH |].
    symmetry. apply Nat.eqb_neq. congruence.
  - destruct (Nat.eqb (key x) j); [now rewrite IH | exact IH].
Qed.

Lemma filter_filter_same {A} (key : A -> id) i l :
  filter (fun x => Nat.eqb (key x) i) (filter (fun x => negb (Nat.eqb (key x) i)) l) = [].
Proof.
  induction l as [| x l IH]; [reflexivity |]. cbn [filter].
  destruct (Nat.eqb (key x) i) eqn:Hi; cbn [negb filter]; [exact IH |].
  now rewrite Hi.
Qed.

Section Touched.

Variable touched : id -> Prop.
Variable i : id.
Hypothesis touched_i : touched i.

Lemma other_than_touched j : ~ touched j -> i <> j.
Proof. intros Hj E. apply Hj. now rewrite <- E. Qed.

Lemma keeps_updateUploadStatus db s : keepsOutside touched db (updateUploadStatus db i s).
Proof.
  intros j Hj. apply other_than_touched in Hj.
  unfold holdingsOf, findUpload, matchesOf, translationsOf, versionsOf, updateUploadStatus.
  cbn [uploads glyphMatches translations reconstructionVersions set_uploads].
  now rewrite (find_upload_other i j
                 (fun u => mkUpload (upload_id u) (upload_userId u) (upload_filePath u) s
                             (upload_scriptType u)) (uploads db) Hj (fun u => eq_refl)).
Qed.

Lemma keeps_updateUploadCompleted db st :
  keepsOutside touched db (updateUploadCompleted db i st).
Proof.
  intros j Hj. apply other_than_touched in Hj.
  unfold holdingsOf, findUpload, matchesOf, translationsOf, versionsOf, updateUploadCompleted.
  cbn [uploads glyphMatches translations reconstructionVersions set_uploads].
  now rewrite (find_upload_other i j
                 (fun u => mkUpload (upload_id u) (upload_userId u) (upload_filePath u)
                             COMPLETED st) (uploads db) Hj (fun u => eq_refl)).
Qed.

Lemma keeps_deletePreviousResults db : keepsOutside touched db (deletePreviousResults db i).
Proof.
  intros j Hj. apply other_than_touched in Hj.
  unfold holdingsOf, findUpload, matchesOf, translationsOf, versionsOf, deletePreviousResults.
  cbn [uploads glyphMatches translations reconstructionVersions].
  now rewrite (filter_filter_other match_uploadId i j (glyphMatches db) Hj),
              (filter_filter_other translation_uploadId i j (translations db) Hj).
Qed.

Lemma keeps_createGlyphMatch db glyphId c box position :
  keepsOutside touched db (createGlyphMatch db i glyphId c box position).
Proof.
  intros j Hj. apply other_than_touched in Hj.
  unfold holdingsOf, findUpload, matchesOf, translationsOf, versionsOf, createGlyphMatch.
  cbn [uploads glyphMatches translations reconstructionVersions].
  rewrite filter_app_other; [reflexivity |]. cbn. now apply Nat.eqb_neq.
Qed.

Lemma keeps_createTranslation db original translated c :
  keepsOutside touched db (createTranslation db i original translated c).
Proof.
  intros j Hj. apply other_than_touched in Hj.
  unfold holdingsOf, findUpload, matchesOf, translationsOf, versionsOf, createTranslation.
  cbn [uploads glyphMatches translations reconstructionVersions].
  rewrite filter_app_other; [reflexivity |]. cbn. now apply Nat.eqb_neq.
Qed.

Lemma keeps_createVersion db n rs c m :
  keepsOutside touched db (createVersion db i n rs c m).
Proof.
  intros j Hj. apply other_than_touched in Hj.
  unfold holdingsOf, findUpload, matchesOf, translationsOf, versionsOf, createVersion.
  cbn [uploads glyphMatches translations reconstructionVersions].
  rewrite filter_app_other; [reflexivity |]. cbn. now apply Nat.eqb_neq.
Qed.

Lemma keeps_persistGlyph scriptRecord db g :
  keepsOutside touched db (ProcessRoute.persistGlyph i scriptRecord db g).
Proof.
  unfold ProcessRoute.persistGlyph.
  destruct (find _ (glyphs db)) as [glyphRecord |].
  - destruct (ProcessRoute.meaningIsReal (gm_meaning g)
              && ProcessRoute.currentIsPlaceholder (glyph_description glyphRecord)).
    + eapply keepsOutside_trans; [| apply keeps_createGlyphMatch].
      now apply keepsOutside_same_tables.
    + apply keeps_createGlyphMatch.
  - eapply keepsOutside_trans; [| apply keeps_createGlyphMatch].
    now apply keepsOutside_same_tables.
Qed.

Lemma keeps_persistGlyphs scriptRecord gs : forall db,
  keepsOutside touched db (fold_left (ProcessRoute.persistGlyph i scriptRecord) gs db).
Proof.
  induction gs as [| g gs IH]; intros db; cbn [fold_left]; [apply keepsOutside_refl |].
  eapply keepsOutside_trans; [apply keeps_persistGlyph | apply IH].
Qed.

End Touched.

Lemma process_POST_keeps env uploadId db log :
  keepsOutside (fun j => uploadId = Some j) db
    (snd (fst (ProcessRoute.POST env uploadId db log))).
Proof.
  unfold ProcessRoute.POST.
  destruct uploadId as [i |]; [| apply keepsOutside_refl].
  destruct (findUpload db i) as [upload |]; [| apply keepsOutside_refl].
  set (touched := fun j => Some i = Some j).
  assert (Hi : touched i) by reflexivity.
  set (db0 := deletePreviousResults (updateUploadStatus db i PROCESSING) i).
  assert (H0 : keepsOutside touched db db0).
  { eapply keepsOutside_trans;
      [now apply keeps_updateUploadStatus | now apply keeps_deletePreviousResults]. }
  destruct (processAncientText env (upload_filePath upload) db0 log) as [[e | result] l1].
  - cbn [fst snd]. eapply keepsOutside_trans; [exact H0 | now apply keeps_updateUploadStatus].
  - set (name := or_str (scriptType result) (js "Traditional Chinese")).
    set (withScript :=
           match find (fun s => str_eqb (script_name s) name) (ancientScripts db0) with
           | Some s => (s, db0)
           | None => createScript db0 name
           end).
    assert (H1 : keepsOutside touched db (snd withScript)).
    { eapply keepsOutside_trans; [exact H0 |]. unfold withScript.
      destruct (find _ (ancientScripts db0)); [apply keepsOutside_refl |].
      now apply keepsOutside_same_tables. }
    destruct withScript as [scriptRecord db1]. cbn [snd] in H1.
    assert (H2 : keepsOutside touched db
                   (fold_left (ProcessRoute.persistGlyph i scriptRecord) (pr_glyphs result) db1)).
    { eapply keepsOutside_trans; [exact H1 | now apply keeps_persistGlyphs]. }
    destruct (generateTranslation env (extractedText result) (pr_glyphs result) l1)
      as [[e | tr] l2]; [exact H2 |].
    destruct (translation tr) as [translated | inheritedName]; [| exact H2].
    cbn [fst snd].
    eapply keepsOutside_trans; [exact H2 |].
    eapply keepsOutside_trans;
      [now apply keeps_createTranslation | now apply keeps_updateUploadStatus].
Qed.

(** X11. The POST handler of the process route leaves every other upload
    as it was: its record with its status, its match rows, its translation
    rows and its reconstruction versions are the same after the request,
    whatever the reply. *)
Theorem process_POST_keeps_other_uploads :
  forall env uploadId db log j,
    uploadId <> Some j ->
    holdingsOf (snd (fst (ProcessRoute.POST env uploadId db log))) j = holdingsOf db j.
Proof.
  intros env uploadId db log j Hj.
  now apply (process_POST_keeps env uploadId db log j).
Qed.

(** ** What the process route stores for its upload *)

Lemma glyphsKept_refl db : glyphsKept db db.
Proof. intros g Hg. now exists g. Qed.

Lemma glyphsKept_trans db1 db2 db3 :
  glyphsKept db1 db2 -> glyphsKept db2 db3 -> glyphsKept db1 db3.
Proof.
  intros H12 H23 g Hg. destruct (H12 g Hg) as (g2 & Hg2 & Hid2 & Hs2).
  destruct (H23 g2 Hg2) as (g3 & Hg3 & Hid3 & Hs3).
  exists g3. repeat split; congruence.
Qed.

Lemma glyphsKept_same_glyphs db db' : glyphs db' = glyphs db -> glyphsKept db db'.
Proof. intros H g Hg. exists g. now rewrite H. Qed.

Lemma glyphsKept_updateGlyph db gid description c :
  glyphsKept db (updateGlyph db gid description c).
Proof.
  intros g Hg. unfold updateGlyph. cbn [glyphs].
  eexists. split; [apply in_map, Hg |].
  now destruct (Nat.eqb (glyph_id g) gid).
Qed.

Lemma persistedAs_kept db db' row g :
  glyphsKept db db' -> persistedAs db row g -> persistedAs db' row g.
Proof.
  intros Hk (Hc & Hp & Hb & glyph & Hin & Hid & Hs).
  destruct (Hk glyph Hin) as (glyph' & Hin' & Hid' & Hs').
  repeat split; try assumption. exists glyph'. repeat split; congruence.
Qed.

(** One turn of the loop of the process route: one more match row, for
    the upload, that records the match. *)
Lemma persistGlyph_row uploadId scriptRecord db g :
  exists row,
    glyphMatches (ProcessRoute.persistGlyph uploadId scriptRecord db g)
    = glyphMatches db ++ [row]
    /\ match_uploadId row = uploadId
    /\ persistedAs (ProcessRoute.persistGlyph uploadId scriptRecord db g) row g
    /\ glyphsKept db (ProcessRoute.persistGlyph uploadId scriptRecord db g)
    /\ translations (ProcessRoute.persistGlyph uploadId scriptRecord db g) = translations db.
Proof.
  unfold ProcessRoute.persistGlyph.
  destruct (find _ (glyphs db)) as [glyphRecord |] eqn:Hfind.
  - apply find_some in Hfind as [Hin Hsym]. apply andb_prop in Hsym as [Hsym _].
    destruct (ProcessRoute.meaningIsReal (gm_meaning g)
              && ProcessRoute.currentIsPlaceholder (glyph_description glyphRecord)).
    + eexists. split; [reflexivity |]. split; [reflexivity |]. split; [| split].
      * repeat split. cbn [glyphs createGlyphMatch updateGlyph match_glyphId].
        eexists. split; [apply in_map, Hin |]. rewrite Nat.eqb_refl. now split.
      * apply (glyphsKept_updateGlyph db).
      * reflexivity.
    + eexists. split; [reflexivity |]. split; [reflexivity |]. split; [| split].
      * repeat split. exists glyphRecord. now repeat split.
      * now apply glyphsKept_same_glyphs.
      * reflexivity.
  - eexists. split; [reflexivity |]. split; [reflexivity |]. split; [| split].
    + repeat split. cbn [glyphs createGlyphMatch createGlyph fst snd match_glyphId].
      eexists. split; [apply in_or_app; right; now left |].
      split; [reflexivity | apply str_eqb_refl].
    + intros glyph Hg. exists glyph. cbn [glyphs createGlyphMatch createGlyph fst snd].
      split; [apply in_or_app; now left | now split].
    + reflexivity.
Qed.

Lemma persistGlyphs_rows uploadId scriptRecord gs : forall db,
  exists rows,
    glyphMatches (fold_left (ProcessRoute.persistGlyph uploadId scriptRecord) gs db)
    = glyphMatches db ++ rows
    /\ Forall (fun row => match_uploadId row = uploadId) rows
    /\ Forall2 (persistedAs (fold_left (ProcessRoute.persistGlyph uploadId scriptRecord) gs db))
         rows gs
    /\ glyphsKept db (fold_left (ProcessRoute.persistGlyph uploadId scriptRecord) gs db)
    /\ translations (fold_left (ProcessRoute.persistGlyph uploadId scriptRecord) gs db)
       = translations db.
Proof.
  induction gs as [| g gs IH]; intros db; cbn [fold_left].
  - exists []. rewrite app_nil_r. repeat split; try constructor. apply glyphsKept_refl.
  - destruct (persistGlyph_row uploadId scriptRecord db g)
      as (row & Hrow & Hid & Hper & Hkept & Htr).
    destruct (IH (ProcessRoute.persistGlyph uploadId scriptRecord db g))
      as (rows & Hrows & Hids & Hpers & Hkept' & Htr').
    exists (row :: rows). split; [| split; [| split; [| split]]].
    + rewrite Hrows, Hrow, <- app_assoc. reflexivity.
    + now constructor.
    + constructor; [| exact Hpers]. now apply (persistedAs_kept _ _ _ _ Hkept').
    + now apply (glyphsKept_trans _ _ _ Hkept).
    + now rewrite Htr'.
Qed.

Lemma filter_all {A} (f : A -> bool) l : Forall (fun x => f x = true) l -> filter f l = l.
Proof.
  induction 1 as [| x l Hx _ IH]; [reflexivity |]. cbn. now rewrite Hx, IH.
Qed.

Lemma matchesOf_cleared db i : matchesOf (clearedFor db i) i = [].
Proof. apply (filter_filter_same match_uploadId). Qed.

Lemma translationsOf_cleared db i : translationsOf (clearedFor db i) i = [].
Proof. apply (filter_filter_same translation_uploadId). Qed.

(** What a request that is replied 200 leaves in the store for its upload. *)
Lemma process_POST_stores :
  forall env uploadId upload db log reply db' log',
    findUpload db uploadId = Some upload ->
    ProcessRoute.POST env (Some uploadId) db log = ((reply, db'), log') ->
    ProcessRoute.reply_status reply = 200%Z ->
    exists result l1 tr row,
      processAncientText env (upload_filePath upload) (clearedFor db uploadId) log
      = (inr result, l1)
      /\ generateTranslation env (extractedText result) (pr_glyphs result) l1 = (inr tr, log')
      /\ Forall2 (persistedAs db') (matchesOf db' uploadId) (pr_glyphs result)
      /\ translationsOf db' uploadId = [row]
      /\ recordsTranslation row (extractedText result) tr.
Proof.
  intros env i upload db log reply db' log' Hfind. unfold ProcessRoute.POST. rewrite Hfind.
  fold (clearedFor db i). set (db0 := clearedFor db i).
  destruct (processAncientText env (upload_filePath upload) db0 log) as [[e | result] l1].
  { intros [= <- _ _]. discriminate. }
  set (name := or_str (scriptType result) (js "Traditional Chinese")).
  set (withScript :=
         match find (fun s => str_eqb (script_name s) name) (ancientScripts db0) with
         | Some s => (s, db0)
         | None => createScript db0 name
         end).
  assert (H1 : glyphMatches (snd withScript) = glyphMatches db0
               /\ translations (snd withScript) = translations db0).
  { unfold withScript. now destruct (find _ (ancientScripts db0)). }
  destruct withScript as [scriptRecord db1]. cbn [snd] in H1. destruct H1 as [Hm1 Ht1].
  destruct (persistGlyphs_rows i scriptRecord (pr_glyphs result) db1)
    as (rows & Hrows & Hids & Hpers & _ & Htr).
  set (db2 := fold_left (ProcessRoute.persistGlyph i scriptRecord) (pr_glyphs result) db1) in *.
  destruct (generateTranslation env (extractedText result) (pr_glyphs result) l1)
    as [[e | tr] l2] eqn:Hg.
  { intros [= <- _ _]. discriminate. }
  destruct (translation tr) as [translated | inheritedName] eqn:Htranslated.
  2: { intros [= <- _ _]. discriminate. }
  intros [= <- <- <-] _.
  exists result, l1, tr. eexists. split; [reflexivity |]. split; [exact Hg |].
  assert (Hmatches : matchesOf (updateUploadStatus
                        (createTranslation db2 i (extractedText result) translated
                           (tr_confidence tr)) i COMPLETED) i = rows).
  { unfold matchesOf. cbn [glyphMatches updateUploadStatus set_uploads createTranslation].
    rewrite Hrows, Hm1, filter_app.
    change (filter (fun m => Nat.eqb (match_uploadId m) i) (glyphMatches db0))
      with (matchesOf db0 i).
    unfold db0. rewrite matchesOf_cleared. cbn [app].
    apply filter_all. eapply Forall_impl; [| exact Hids].
    intros row Hrow. now apply Nat.eqb_eq. }
  rewrite Hmatches. split; [| split].
  - eapply Forall2_impl; [| exact Hpers].
    intros row g Hp. eapply persistedAs_kept; [| exact Hp].
    now apply glyphsKept_same_glyphs.
  - unfold translationsOf. cbn [translations updateUploadStatus set_uploads createTranslation].
    rewrite Htr, Ht1, filter_app.
    change (filter (fun t => Nat.eqb (translation_uploadId t) i) (translations db0))
      with (translationsOf db0 i).
    unfold db0. rewrite translationsOf_cleared. cbn. rewrite Nat.eqb_refl. reflexivity.
  - repeat split. exact Htranslated.
Qed.

(** X12. When the POST handler of the process route replies 200, what the
    store holds for the upload is the result of this run and nothing of
    an earlier one: one match row per glyph of the result, in order, each
    with the confidence, position and box of its glyph and pointing at a
    stored glyph of the same symbol, and exactly one translation row,
    which records the second translation, the one made with the glyphs. *)
Theorem process_POST_replaces_results :
  forall env uploadId upload db log reply db' log',
    findUpload db uploadId = Some upload ->
    ProcessRoute.POST env (Some uploadId) db log = ((reply, db'), log') ->
    ProcessRoute.reply_status reply = 200%Z ->
    exists result l1 tr row,
      processAncientText env (upload_filePath upload) (clearedFor db uploadId) log
      = (inr result, l1)
      /\ generateTranslation env (extractedText result) (pr_glyphs result) l1 = (inr tr, log')
      /\ Forall2 (persistedAs db') (matchesOf db' uploadId) (pr_glyphs result)
      /\ translationsOf db' uploadId = [row]
      /\ recordsTranslation row (extractedText result) tr.
Proof. exact process_POST_stores. Qed.

(** X13. When [processAncientText] throws, the POST handler of the process
    route replies 500 and marks the upload FAILED, and the results of an
    earlier run are gone: the store holds no match row and no translation
    row for the upload any more. *)
Theorem process_POST_failure_discards_results :
  forall env uploadId upload db log e log',
    findUpload db uploadId = Some upload ->
    processAncientText env (upload_filePath upload) (clearedFor db uploadId) log
    = (inl e, log') ->
    exists db',
      ProcessRoute.POST env (Some uploadId) db log = ((ProcessRoute.mkReply 500, db'), log')
      /\ ProcessRoute.statusOf db' uploadId = Some FAILED
      /\ matchesOf db' uploadId = []
      /\ translationsOf db' uploadId = []
      /\ glyphs db' = glyphs db.
Proof.
  intros env i upload db log e log' Hfind Hthrows.
  unfold ProcessRoute.POST. rewrite Hfind. fold (clearedFor db i). rewrite Hthrows.
  eexists. split; [reflexivity |].
  assert (Hfind0 : exists u0, findUpload (clearedFor db i) i = Some u0).
  { assert (Hst : ProcessRoute.statusOf (clearedFor db i) i = Some PROCESSING).
    { unfold clearedFor.
      rewrite (statusOf_ext
                 (deletePreviousResults (updateUploadStatus db i PROCESSING) i)
                 (updateUploadStatus db i PROCESSING) i eq_refl).
      now apply statusOf_updateUploadStatus with (u := upload). }
    unfold ProcessRoute.statusOf in Hst.
    destruct (findUpload (clearedFor db i) i) as [u0 |]; [now exists u0 | discriminate]. }
  destruct Hfind0 as [u0 Hfind0].
  split; [now apply statusOf_updateUploadStatus with (u := u0) |].
  split; [apply matchesOf_cleared |]. split; [apply translationsOf_cleared | reflexivity].
Qed.

(** ** Glyphs with a real description *)

Lemma NoDup_map_injective {A B} (f : A -> B) l a b :
  NoDup (map f l) -> In a l -> In b l -> f a = f b -> a = b.
Proof.
  induction l as [| x l IH]; intros Hnd Ha Hb E; [contradiction |].
  cbn [map] in Hnd. inversion Hnd as [| y ys Hnotin Hnd']; subst.
  destruct Ha as [-> | Ha], Hb as [-> | Hb]; try reflexivity.
  - exfalso. apply Hnotin. rewrite E. now apply in_map.
  - exfalso. apply Hnotin. rewrite <- E. now apply in_map.
  - now apply IH.
Qed.

Lemma glyphIdsDistinct_same_glyphs db db' :
  glyphs db' = glyphs db -> (nextId db <= nextId db')%nat ->
  glyphIdsDistinct db -> glyphIdsDistinct db'.
Proof.
  intros Hg Hn [Hnd Hlt]. unfold glyphIdsDistinct. rewrite Hg. split; [exact Hnd |].
  eapply Forall_impl; [| exact Hlt]. cbn. intros g H. lia.
Qed.

Lemma updateGlyph_ids db gid description c :
  map glyph_id (glyphs (updateGlyph db gid description c)) = map glyph_id (glyphs db).
Proof.
  unfold updateGlyph. cbn [glyphs]. rewrite map_map. apply map_ext.
  intros g. now destruct (Nat.eqb (glyph_id g) gid).
Qed.

Lemma glyphIdsDistinct_updateGlyph db gid description c :
  glyphIdsDistinct db -> glyphIdsDistinct (updateGlyph db gid description c).
Proof.
  intros [Hnd Hlt]. unfold glyphIdsDistinct. rewrite updateGlyph_ids. split; [exact Hnd |].
  unfold updateGlyph. cbn [glyphs nextId]. rewrite Forall_map.
  eapply Forall_impl; [| exact Hlt]. cbn. intros g H.
  now destruct (Nat.eqb (glyph_id g) gid).
Qed.

Lemma glyphIdsDistinct_createGlyph db scriptId symbol name description c :
  glyphIdsDistinct db ->
  glyphIdsDistinct (snd (createGlyph db scriptId symbol name description c)).
Proof.
  intros [Hnd Hlt]. unfold glyphIdsDistinct, createGlyph. cbn [snd glyphs nextId]. split.
  - rewrite map_app. cbn [map glyph_id]. apply NoDup_app; [exact Hnd | | ].
    + constructor; [intros [] | constructor].
    + intros x Hx [<- | []]. apply in_map_iff in Hx as (g & Hid & Hg).
      rewrite Forall_forall in Hlt. specialize (Hlt g Hg). lia.
  - apply Forall_app. split.
    + eapply Forall_impl; [| exact Hlt]. cbn. intros g H. lia.
    + constructor; [cbn; lia | constructor].
Qed.

Lemma persistGlyph_keeps_real uploadId scriptRecord db g :
  glyphIdsDistinct db ->
  glyphIdsDistinct (ProcessRoute.persistGlyph uploadId scriptRecord db g)
  /\ forall glyph, In glyph (glyphs db) -> hasRealDescription glyph ->
                   In glyph (glyphs (ProcessRoute.persistGlyph uploadId scriptRecord db g)).
Proof.
  intros Hwf. unfold ProcessRoute.persistGlyph.
  destruct (find _ (glyphs db)) as [glyphRecord |] eqn:Hfind.
  - apply find_some in Hfind as [Hin _].
    destruct (ProcessRoute.currentIsPlaceholder (glyph_description glyphRecord)) eqn:Hcur;
      [destruct (ProcessRoute.meaningIsReal (gm_meaning g)) |
       rewrite andb_false_r]; cbn [andb].
    + split.
      * apply (glyphIdsDistinct_same_glyphs
                 (updateGlyph db (glyph_id glyphRecord) (or_str (gm_meaning g) [])
                    (Math_max (or_num (glyph_confidence glyphRecord) 0) (gm_confidence g))));
          [reflexivity | cbn; lia | now apply glyphIdsDistinct_updateGlyph].
      * intros glyph Hg Hreal. cbn [glyphs createGlyphMatch updateGlyph].
        apply in_map_iff. exists glyph. split; [| exact Hg].
        destruct (Nat.eqb (glyph_id glyph) (glyph_id glyphRecord)) eqn:Hid; [| reflexivity].
        apply Nat.eqb_eq in Hid.
        rewrite (NoDup_map_injective glyph_id (glyphs db) glyph glyphRecord
                   (proj1 Hwf) Hg Hin Hid) in Hreal.
        unfold hasRealDescription in Hreal. congruence.
    + split; [| now intros glyph Hg _].
      apply (glyphIdsDistinct_same_glyphs db); [reflexivity | cbn; lia | exact Hwf].
    + split; [| now intros glyph Hg _].
      apply (glyphIdsDistinct_same_glyphs db); [reflexivity | cbn; lia | exact Hwf].
  - match goal with
    | |- context [createGlyph ?a ?b ?c ?d ?e ?f] =>
        pose proof (glyphIdsDistinct_createGlyph a b c d e f Hwf) as Hwf1
    end.
    unfold createGlyph in *. cbn [snd] in Hwf1. cbv beta iota zeta. split.
    + eapply glyphIdsDistinct_same_glyphs; [| | exact Hwf1]; [reflexivity | cbn; lia].
    + intros glyph Hg _. cbn [glyphs createGlyphMatch]. apply in_or_app. now left.
Qed.

Lemma persistGlyphs_keep_real uploadId scriptRecord gs : forall db,
  glyphIdsDistinct db ->
  glyphIdsDistinct (fold_left (ProcessRoute.persistGlyph uploadId scriptRecord) gs db)
  /\ forall glyph, In glyph (glyphs db) -> hasRealDescription glyph ->
       In glyph (glyphs (fold_left (ProcessRoute.persistGlyph uploadId scriptRecord) gs db)).
Proof.
  induction gs as [| g gs IH]; intros db Hwf; cbn [fold_left]; [now split |].
  destruct (persistGlyph_keeps_real uploadId scriptRecord db g Hwf) as [Hwf1 Hkeep1].
  destruct (IH _ Hwf1) as [Hwf2 Hkeep2].
  split; [exact Hwf2 |]. intros glyph Hg Hreal. apply Hkeep2; [| exact Hreal].
  now apply Hkeep1.
Qed.

(** The handler keeps the glyphs whose description is real, and the
    identifiers distinct. *)
Lemma process_POST_keeps_real env uploadId db log :
  glyphIdsDistinct db ->
  glyphIdsDistinct (snd (fst (ProcessRoute.POST env uploadId db log)))
  /\ forall glyph, In glyph (glyphs db) -> hasRealDescription glyph ->
       In glyph (glyphs (snd (fst (ProcessRoute.POST env uploadId db log)))).
Proof.
  intros Hwf. unfold ProcessRoute.POST.
  destruct uploadId as [i |]; [| now split].
  destruct (findUpload db i) as [upload |]; [| now split].
  set (db0 := deletePreviousResults (updateUploadStatus db i PROCESSING) i).
  destruct (processAncientText env (upload_filePath upload) db0 log) as [[e | result] l1].
  { cbn [fst snd]. split; [| now intros glyph Hin _].
    apply (glyphIdsDistinct_same_glyphs db); [reflexivity | cbn; lia | exact Hwf]. }
  set (name := or_str (scriptType result) (js "Traditional Chinese")).
  set (withScript :=
         match find (fun s => str_eqb (script_name s) name) (ancientScripts db0) with
         | Some s => (s, db0)
         | None => createScript db0 name
         end).
  assert (H1 : glyphs (snd withScript) = glyphs db /\ glyphIdsDistinct (snd withScript)).
  { unfold withScript. destruct (find _ (ancientScripts db0)).
    - split; [reflexivity |].
      apply (glyphIdsDistinct_same_glyphs db); [reflexivity | cbn; lia | exact Hwf].
    - split; [reflexivity |].
      apply (glyphIdsDistinct_same_glyphs db); [reflexivity | cbn; lia | exact Hwf]. }
  destruct withScript as [scriptRecord db1]. cbn [snd] in H1. destruct H1 as [Hg1 Hwf1].
  destruct (persistGlyphs_keep_real i scriptRecord (pr_glyphs result) db1 Hwf1)
    as [Hwf2 Hkeep].
  rewrite Hg1 in Hkeep.
  destruct (generateTranslation env (extractedText result) (pr_glyphs result) l1)
    as [[e | tr] l2]; [now split |].
  destruct (translation tr) as [translated | inheritedName]; [| now split].
  cbn [fst snd]. split; [| exact Hkeep].
  eapply glyphIdsDistinct_same_glyphs; [| | exact Hwf2]; [reflexivity | cbn; lia].
Qed.

(** X14. The POST handler of the process route never rewrites a glyph
    whose description is real: in a store whose glyph identifiers are
    distinct, every such glyph is in the store after the request as it
    was before, description and confidence included, and the identifiers
    are still distinct. *)
Theorem process_POST_keeps_real_descriptions :
  forall env uploadId db log glyph,
    glyphIdsDistinct db ->
    In glyph (glyphs db) ->
    hasRealDescription glyph ->
    In glyph (glyphs (snd (fst (ProcessRoute.POST env uploadId db log))))
    /\ glyphIdsDistinct (snd (fst (ProcessRoute.POST env uploadId db log))).
Proof.
  intros env uploadId db log glyph Hwf Hin Hreal.
  destruct (process_POST_keeps_real env uploadId db log Hwf) as [Hwf' Hkeep].
  split; [now apply Hkeep | exact Hwf'].
Qed.

(** ** The batch endpoint: what its runs preserve *)

Lemma handle_answers oracle {X} (c : Cmd X) w : answers c (fst (handle oracle c w)).
Proof.
  destruct c; cbn; try exact I.
  - destruct (findUpload (world_db w) uploadId) as [u |] eqn:Hfind; cbn; [| exact I].
    apply find_some in Hfind as [_ Hid]. now apply Nat.eqb_eq.
Qed.

Lemma Within_pbind PC {A B} (PA : A -> Prop) (PR : B -> Prop) (p : Prog A) (f : A -> Prog B) :
  Within PC PA p ->
  (forall a, PA a -> Within PC PR (f a)) ->
  Within PC PR (pbind p f).
Proof.
  intros HW Hf. induction HW as [a Ha | e | X c k Hc Hk IH]; cbn [pbind].
  - now apply Hf.
  - apply within_throw.
  - apply within_await; [exact Hc | exact IH].
Qed.

Lemma Within_ptry PC {A} (PR : A -> Prop) (p : Prog A) handler :
  Within PC PR p ->
  (forall e, Within PC PR (handler e)) ->
  Within PC PR (ptry p handler).
Proof.
  intros HW Hh. induction HW as [a Ha | e | X c k Hc Hk IH]; cbn [ptry].
  - now apply within_ret.
  - apply Hh.
  - apply within_await; [exact Hc | exact IH].
Qed.

Lemma Within_call PC {X} (c : Cmd X) :
  PC X c -> Within PC (fun x => answers c (inr x)) (call c).
Proof.
  intros Hc. unfold call. apply within_await; [exact Hc |].
  intros [e | x] Hr; [apply within_throw | now apply within_ret].
Qed.

Lemma Within_weaken PC {A} (PR PR' : A -> Prop) (p : Prog A) :
  (forall a, PR a -> PR' a) -> Within PC PR p -> Within PC PR' p.
Proof.
  intros Himp HW. induction HW as [a Ha | e | X c k Hc Hk IH].
  - apply within_ret. now apply Himp.
  - apply within_throw.
  - apply within_await; [exact Hc | exact IH].
Qed.

Lemma Within_any {A} (p : Prog A) : Within (fun _ _ => True) (fun _ => True) p.
Proof.
  induction p as [a | e | X c k IH].
  - now apply within_ret.
  - apply within_throw.
  - apply within_await; [exact I | intros r _; apply IH].
Qed.

Lemma replaceAt_Forall {A} (P : A -> Prop) x : forall l i,
  Forall P l -> P x -> Forall P (replaceAt i x l).
Proof.
  induction l as [| y l IH]; intros i Hl Hx; [destruct i; constructor |].
  inversion Hl as [| y' l' Hy Hl']; subst.
  destruct i as [| i]; cbn [replaceAt]; constructor; auto.
Qed.

Lemma js_slice_incl {A} start end_ (l : list A) : incl (js_slice start end_ l) l.
Proof.
  unfold js_slice. intros x Hx.
  set (n := Z.to_nat (Z.max _ 0)) in Hx. set (k := Z.to_nat _) in Hx.
  rewrite <- (firstn_skipn k l). apply in_or_app. right.
  rewrite <- (firstn_skipn n (skipn k l)). apply in_or_app. now left.
Qed.

Lemma makeBatches_members maxConcurrent uploads turns : forall i batches,
  makeBatches turns i maxConcurrent uploads = Some batches ->
  forall x, In x (concat batches) -> exists u, In u uploads /\ upload_id u = x.
Proof.
  induction turns as [| turns IH]; intros i batches; cbn [makeBatches];
    destruct (i <? Z.of_nat (length uploads))%Z; try discriminate;
    try (intros [= <-] x []).
  destruct (makeBatches turns (i + maxConcurrent) maxConcurrent uploads) as [rest |] eqn:E;
    [| discriminate].
  intros [= <-] x Hx. cbn [concat] in Hx. apply in_app_or in Hx as [Hx | Hx].
  - apply in_map_iff in Hx as (u & Hid & Hu). exists u. split; [| exact Hid].
    now apply js_slice_incl in Hu.
  - now apply (IH _ rest E).
Qed.

Section Preserved.

Variable oracle : Oracle.
Variable PC : forall X, Cmd X -> Prop.
Variable R : DB -> DB -> Prop.

Hypothesis R_refl : forall db, R db db.
Hypothesis R_trans : forall db1 db2 db3, R db1 db2 -> R db2 db3 -> R db1 db3.
Hypothesis handle_R : forall X (c : Cmd X) w,
  PC X c -> R (world_db w) (world_db (snd (handle oracle c w))).

Lemma runToEnd_preserves {A} (PR : A -> Prop) (p : Prog A) :
  Within PC PR p ->
  forall w, R (world_db w) (world_db (snd (runToEnd oracle p w)))
            /\ match fst (runToEnd oracle p w) with
               | Fulfilled a => PR a
               | Rejected _ => True
               end.
Proof.
  intros HW. induction HW as [a Ha | e | X c k Hc Hk IH]; intros w; cbn [runToEnd].
  - split; [apply R_refl | exact Ha].
  - split; [apply R_refl | exact I].
  - pose proof (handle_R X c w Hc) as Hh.
    pose proof (handle_answers oracle c w) as Ha.
    destruct (handle oracle c w) as [r w1]. cbn [fst snd] in Hh, Ha.
    destruct (IH r Ha w1) as [H1 H2]. split; [| exact H2].
    now apply R_trans with (db2 := world_db w1).
Qed.

Lemma stepTask_preserves {A} (PR : A -> Prop) (p : Prog A) w :
  Within PC PR p ->
  Within PC PR (fst (stepTask oracle p w))
  /\ R (world_db w) (world_db (snd (stepTask oracle p w))).
Proof.
  intros HW. destruct HW as [a Ha | e | X c k Hc Hk]; cbn [stepTask fst snd].
  - split; [now apply within_ret | apply R_refl].
  - split; [apply within_throw | apply R_refl].
  - pose proof (handle_R X c w Hc) as Hh.
    pose proof (handle_answers oracle c w) as Ha.
    destruct (handle oracle c w) as [r w1]. cbn [fst snd] in *.
    split; [now apply Hk | exact Hh].
Qed.

Lemma interleave_preserves {A} (PR : A -> Prop) schedule : forall (tasks : list (Prog A)) w,
  Forall (Within PC PR) tasks ->
  Forall (Within PC PR) (fst (interleave oracle schedule tasks w))
  /\ R (world_db w) (world_db (snd (interleave oracle schedule tasks w))).
Proof.
  induction schedule as [| i schedule IH]; intros tasks w HF; cbn [interleave].
  - split; [exact HF | apply R_refl].
  - destruct (nth_error tasks i) as [p |] eqn:Hnth; [| now apply IH].
    assert (Hp : Within PC PR p).
    { rewrite Forall_forall in HF. apply HF. now apply nth_error_In with (n := i). }
    destruct (stepTask_preserves PR p w Hp) as [Hp' Hw].
    destruct (stepTask oracle p w) as [p' w1]. cbn [fst snd] in *.
    destruct (IH (replaceAt i p' tasks) w1) as [H1 H2].
    { now apply replaceAt_Forall. }
    split; [exact H1 | now apply R_trans with (db2 := world_db w1)].
Qed.

Lemma finishAll_preserves {A} (PR : A -> Prop) (tasks : list (Prog A)) :
  Forall (Within PC PR) tasks ->
  forall w, R (world_db w) (world_db (snd (finishAll oracle tasks w))).
Proof.
  induction 1 as [| p tasks Hp HF IH]; intros w; cbn [finishAll]; [apply R_refl |].
  destruct (runToEnd_preserves PR p Hp w) as [Hw _].
  destruct (runToEnd oracle p w) as [s w1]. cbn [fst snd] in *.
  specialize (IH w1).
  destruct (finishAll oracle tasks w1) as [ss w2]. cbn [fst snd] in *.
  now apply R_trans with (db2 := world_db w1).
Qed.

Lemma allSettled_preserves {A} (PR : A -> Prop) schedule (tasks : list (Prog A)) w :
  Forall (Within PC PR) tasks ->
  R (world_db w) (world_db (snd (allSettled oracle schedule tasks w))).
Proof.
  intros HF. unfold allSettled.
  destruct (interleave_preserves PR schedule tasks w HF) as [H1 H2].
  destruct (interleave oracle schedule tasks w) as [tasks' w1]. cbn [fst snd] in *.
  pose proof (finishAll_preserves PR tasks' H1 w1) as H3.
  now apply R_trans with (db2 := world_db w1).
Qed.

Variable grm : Grm.
Variable enable : bool.
Variable processed : id -> Prop.

Hypothesis processUpload_within : forall uploadId,
  processed uploadId -> Within PC (fun _ => True) (processUpload grm uploadId enable).

Lemma runBatches_preserves batches : forall schedules st,
  (forall x, In x (concat batches) -> processed x) ->
  R (world_db (world st))
    (world_db (world (runBatches grm oracle enable schedules batches st))).
Proof.
  induction batches as [| batch batches IH]; intros schedules st Hin;
    cbn [runBatches]; [apply R_refl |].
  assert (HF : Forall (Within PC (fun _ => True))
                 (map (fun uploadId => processUpload grm uploadId enable) batch)).
  { apply Forall_map. apply Forall_forall. intros x Hx.
    apply processUpload_within, Hin. cbn [concat]. apply in_or_app. now left. }
  pose proof (allSettled_preserves (fun _ => True) (hd [] schedules) _ (world st) HF) as H1.
  destruct (allSettled oracle (hd [] schedules) _ (world st)) as [batchResults w1].
  cbn [snd] in H1.
  eapply R_trans; [exact H1 |].
  match goal with
  | |- R _ (world_db (world (runBatches _ _ _ _ _ ?st1))) =>
      change (world_db w1) with (world_db (world st1))
  end.
  apply IH. intros x Hx. apply Hin. cbn [concat]. apply in_or_app. now right.
Qed.

Lemma runSequential_preserves uploads : forall st,
  (forall u, In u uploads -> processed (upload_id u)) ->
  R (world_db (world st))
    (world_db (world (runSequential grm oracle enable uploads st))).
Proof.
  induction uploads as [| upload uploads IH]; intros st Hin;
    cbn [runSequential]; [apply R_refl |].
  destruct (runToEnd_preserves (fun _ => True)
              (processUpload grm (upload_id upload) enable)
              (processUpload_within _ (Hin upload (or_introl eq_refl))) (world st))
    as [H1 _].
  destruct (runToEnd oracle _ (world st)) as [result w1]. cbn [snd] in H1.
  eapply R_trans; [exact H1 |].
  match goal with
  | |- R _ (world_db (world (runSequential _ _ _ _ ?st1))) =>
      change (world_db w1) with (world_db (world st1))
  end.
  apply IH. intros u Hu. apply Hin. now right.
Qed.

End Preserved.

(** What the POST handler of the batch endpoint preserves, given what the
    runs of the uploads it processes preserve. *)
Lemma batch_POST_preserves oracle PC (R : DB -> DB -> Prop) grm schedules turns req w
    reply w' :
  (forall db, R db db) ->
  (forall db1 db2 db3, R db1 db2 -> R db2 db3 -> R db1 db3) ->
  (forall X (c : Cmd X) w0, PC X c -> R (world_db w0) (world_db (snd (handle oracle c w0)))) ->
  (forall uploadId, processedBy (world_db w) req uploadId ->
     Within PC (fun _ => True) (processUpload grm uploadId (enableReconstruction req))) ->
  POST grm oracle schedules turns req w = Some (reply, w') ->
  R (world_db w) (world_db w').
Proof.
  intros R_refl R_trans handle_R Hwithin. unfold POST.
  destruct (session_userId req) as [userId |] eqn:Hu; [| intros [= _ <-]; apply R_refl].
  destruct (uploadIds req) as [ids |] eqn:Hids; [| intros [= _ <-]; apply R_refl].
  destruct ids as [| i ids']; [intros [= _ <-]; apply R_refl |].
  set (owned := ownedUploads (world_db w) (i :: ids') userId).
  assert (Hproc : forall u, In u owned -> processedBy (world_db w) req (upload_id u)).
  { intros u Hin. now exists userId, (i :: ids'), u. }
  destruct (length owned =? 0)%nat; [intros [= _ <-]; apply R_refl |].
  destruct (parallel req).
  - destruct (makeBatches turns 0 (maxConcurrent req) owned) as [batches |] eqn:Hb;
      [| discriminate].
    intros [= _ <-].
    apply (runBatches_preserves oracle PC R R_refl R_trans handle_R grm
             (enableReconstruction req) (processedBy (world_db w) req) Hwithin
             batches schedules (mkProgress [] [] w)).
    intros x Hx. destruct (makeBatches_members _ _ _ _ _ Hb x Hx) as (u & Hin & <-).
    now apply Hproc.
  - intros [= _ <-].
    apply (runSequential_preserves oracle PC R R_refl R_trans handle_R grm
             (enableReconstruction req) (processedBy (world_db w) req) Hwithin
             owned (mkProgress [] [] w)).
    exact Hproc.
Qed.

(** ** The batch endpoint: the uploads it does not process *)

Lemma handle_writesFor oracle touched {X} (c : Cmd X) w :
  writesFor touched c ->
  keepsOutside touched (world_db w) (world_db (snd (handle oracle c w))).
Proof.
  destruct c; cbn [writesFor handle snd world_db]; intros Hc;
    try apply keepsOutside_refl.
  - now apply keeps_updateUploadStatus.
  - now apply keeps_updateUploadCompleted.
  - now apply keepsOutside_same_tables.
  - now apply keepsOutside_same_tables.
  - now apply keeps_createGlyphMatch.
  - now apply keeps_createVersion.
Qed.

Lemma saveGlyphs_writesFor touched uploadId st glyphs : touched uploadId -> forall n,
  Within (@writesFor touched) (fun _ => True) (saveGlyphs uploadId st glyphs n).
Proof.
  intros Ht. induction glyphs as [| g glyphs IH]; intros n; cbn [saveGlyphs].
  - now apply within_ret.
  - eapply Within_pbind; [apply Within_call; exact I | intros found _].
    eapply Within_pbind with (PA := fun _ => True).
    + destruct found as [dbGlyph |]; [now apply within_ret |].
      eapply Within_pbind; [apply Within_call; exact I | intros existing _].
      eapply Within_pbind with (PA := fun _ => True).
      * destruct existing; [now apply within_ret |].
        eapply Within_weaken; [| apply Within_call; exact I]. now intros.
      * intros script _. eapply Within_weaken; [| apply Within_call; exact I]. now intros.
    + intros dbGlyph _.
      eapply Within_pbind; [apply Within_call; exact Ht | intros _ _; apply IH].
Qed.

(** A run of [processUpload] writes for its own upload only. *)
Lemma processUpload_writesFor touched grm uploadId enable :
  touched uploadId ->
  Within (@writesFor touched) (fun _ => True) (processUpload grm uploadId enable).
Proof.
  intros Ht. unfold processUpload.
  eapply Within_pbind; [apply Within_call; exact I | intros found Hfound].
  destruct found as [[upload uploadGlyphs] |]; [| apply within_throw].
  cbn in Hfound. rewrite Hfound.
  destruct (status_eqb (upload_status upload) COMPLETED).
  - destruct (enable && _).
    + eapply Within_pbind; [apply Within_call; exact I | intros rs _].
      eapply Within_pbind; [apply Within_call; exact I | intros count _].
      eapply Within_pbind; [apply Within_call; exact Ht | intros _ _].
      now apply within_ret.
    + now apply within_ret.
  - eapply Within_pbind; [apply Within_call; exact Ht | intros _ _].
    apply Within_ptry.
    + eapply Within_pbind; [apply Within_call; exact I | intros result _].
      eapply Within_pbind; [apply Within_call; exact Ht | intros _ _].
      eapply Within_pbind; [now apply saveGlyphs_writesFor | intros glyphsProcessed _].
      eapply Within_pbind with (PA := fun _ => True).
      * destruct (enable && _); [| now apply within_ret].
        eapply Within_pbind; [apply Within_call; exact I | intros rs _].
        eapply Within_pbind; [apply Within_call; exact Ht | intros _ _].
        now apply within_ret.
      * intros reconstructions _. now apply within_ret.
    + intros error.
      eapply Within_pbind; [apply Within_call; exact Ht | intros _ _; apply within_throw].
Qed.

(** X15. The batch endpoint leaves alone every upload it does not process,
    that is every upload that was not requested or that the user of the
    session does not own: its record, match rows, translation rows and
    reconstruction versions are the same after the request, in parallel
    and in sequential mode, however the runs of a batch interleave and
    whatever the services answer. *)
Theorem batch_POST_keeps_other_uploads :
  forall grm oracle schedules turns req w reply w' j,
    POST grm oracle schedules turns req w = Some (reply, w') ->
    ~ processedBy (world_db w) req j ->
    holdingsOf (world_db w') j = holdingsOf (world_db w) j.
Proof.
  intros grm oracle schedules turns req w reply w' j HPOST Hj.
  apply (batch_POST_preserves oracle (@writesFor (processedBy (world_db w) req))
           (keepsOutside (processedBy (world_db w) req))
           grm schedules turns req w reply w'); try assumption.
  - apply keepsOutside_refl.
  - apply keepsOutside_trans.
  - intros X c w0. apply handle_writesFor.
  - intros uploadId. apply processUpload_writesFor.
Qed.

(** ** The batch endpoint: nothing deleted, nothing rewritten *)

Lemma onlyAppends_refl db : onlyAppends db db.
Proof. repeat split; try (exists []; now rewrite app_nil_r). Qed.

Lemma onlyAppends_trans db1 db2 db3 :
  onlyAppends db1 db2 -> onlyAppends db2 db3 -> onlyAppends db1 db3.
Proof.
  intros ((s1 & Hs1) & (g1 & Hg1) & (m1 & Hm1) & (v1 & Hv1) & Ht1 & Hu1)
         ((s2 & Hs2) & (g2 & Hg2) & (m2 & Hm2) & (v2 & Hv2) & Ht2 & Hu2).
  repeat split.
  - exists (s1 ++ s2). now rewrite Hs2, Hs1, app_assoc.
  - exists (g1 ++ g2). now rewrite Hg2, Hg1, app_assoc.
  - exists (m1 ++ m2). now rewrite Hm2, Hm1, app_assoc.
  - exists (v1 ++ v2). now rewrite Hv2, Hv1, app_assoc.
  - congruence.
  - congruence.
Qed.

Lemma onlyAppends_uploads db us :
  map upload_id us = map upload_id (uploads db) -> onlyAppends db (set_uploads db us).
Proof.
  intros H. repeat split; try (exists []; now rewrite app_nil_r). exact H.
Qed.

Lemma handle_onlyAppends oracle {X} (c : Cmd X) w :
  onlyAppends (world_db w) (world_db (snd (handle oracle c w))).
Proof.
  destruct c; cbn [handle snd world_db]; try apply onlyAppends_refl.
  - apply onlyAppends_uploads. rewrite map_map. apply map_ext.
    intros u. now destruct (Nat.eqb (upload_id u) uploadId).
  - apply onlyAppends_uploads. rewrite map_map. apply map_ext.
    intros u. now destruct (Nat.eqb (upload_id u) uploadId).
  - repeat split; try (exists []; now rewrite app_nil_r). now eexists.
  - repeat split; try (exists []; now rewrite app_nil_r). now eexists.
  - repeat split; try (exists []; now rewrite app_nil_r). now eexists.
  - repeat split; try (exists []; now rewrite app_nil_r). now eexists.
Qed.

(** X16. The batch endpoint only adds to the store: after a request, the
    scripts, glyphs, match rows and reconstruction versions that were
    there are still there, unchanged and in place, with the new ones after
    them; the uploads are the same ones; and the translations are exactly
    what they were, for the endpoint stores none. *)
Theorem batch_POST_only_appends :
  forall grm oracle schedules turns req w reply w',
    POST grm oracle schedules turns req w = Some (reply, w') ->
    onlyAppends (world_db w) (world_db w').
Proof.
  intros grm oracle schedules turns req w reply w' HPOST.
  apply (batch_POST_preserves oracle (fun _ _ => True) onlyAppends
           grm schedules turns req w reply w'); try assumption.
  - apply onlyAppends_refl.
  - apply onlyAppends_trans.
  - intros X c w0 _. apply handle_onlyAppends.
  - intros uploadId _. apply Within_any.
Qed.

(** ** A run of processUpload on its own *)

Lemma runToEnd_pbind oracle {A B} (p : Prog A) (f : A -> Prog B) : forall w,
  runToEnd oracle (pbind p f) w
  = match runToEnd oracle p w with
    | (Fulfilled a, w1) => runToEnd oracle (f a) w1
    | (Rejected e, w1) => (Rejected e, w1)
    end.
Proof.
  induction p as [a | e | X c k IH]; intros w; cbn [pbind runToEnd]; try reflexivity.
  destruct (handle oracle c w) as [r w1]. apply IH.
Qed.

Lemma runToEnd_ptry oracle {A} (p : Prog A) handler : forall w,
  runToEnd oracle (ptry p handler) w
  = match runToEnd oracle p w with
    | (Fulfilled a, w1) => (Fulfilled a, w1)
    | (Rejected e, w1) => runToEnd oracle (handler e) w1
    end.
Proof.
  induction p as [a | e | X c k IH]; intros w; cbn [ptry runToEnd]; try reflexivity.
  destruct (handle oracle c w) as [r w1]. apply IH.
Qed.

Ltac run_pbind w :=
  match goal with
  | |- context [@runToEnd ?o ?A (pbind ?p ?f) w] => rewrite (runToEnd_pbind o p f w)
  end.

Lemma handle_leavesUploads oracle {X} (c : Cmd X) w :
  leavesUploads c -> uploads (world_db (snd (handle oracle c w))) = uploads (world_db w).
Proof. destruct c; cbn [leavesUploads handle snd world_db]; intros Hc; now try contradiction. Qed.

Lemma saveGlyphs_leavesUploads uploadId st glyphs : forall n,
  Within (@leavesUploads) (fun _ => True) (saveGlyphs uploadId st glyphs n).
Proof.
  induction glyphs as [| g glyphs IH]; intros n; cbn [saveGlyphs].
  - now apply within_ret.
  - eapply Within_pbind; [apply Within_call; exact I | intros found _].
    eapply Within_pbind with (PA := fun _ => True).
    + destruct found as [dbGlyph |]; [now apply within_ret |].
      eapply Within_pbind; [apply Within_call; exact I | intros existing _].
      eapply Within_pbind with (PA := fun _ => True).
      * destruct existing; [now apply within_ret |].
        eapply Within_weaken; [| apply Within_call; exact I]. now intros.
      * intros script _. eapply Within_weaken; [| apply Within_call; exact I]. now intros.
    + intros dbGlyph _.
      eapply Within_pbind; [apply Within_call; exact I | intros _ _; apply IH].
Qed.

Lemma statusOf_updateUploadCompleted db i st u :
  findUpload db i = Some u ->
  ProcessRoute.statusOf (updateUploadCompleted db i st) i = Some COMPLETED.
Proof.
  intros H. unfold ProcessRoute.statusOf, findUpload, updateUploadCompleted.
  cbn [uploads set_uploads]. unfold findUpload in H.
  induction (uploads db) as [| x us IH]; [discriminate |]. cbn [map find] in *.
  destruct (Nat.eqb (upload_id x) i) eqn:Hx; cbn [upload_id].
  - now rewrite Hx.
  - rewrite Hx. now apply IH.
Qed.

Lemma statusOf_found db i s :
  ProcessRoute.statusOf db i = Some s -> exists u, findUpload db i = Some u.
Proof.
  unfold ProcessRoute.statusOf. destruct (findUpload db i) as [u |]; [now exists u | discriminate].
Qed.

(** X17. A run of [processUpload] on its own, for an upload that is in the
    store and not yet COMPLETED, leaves the upload COMPLETED when it
    returns and FAILED when it throws, whatever the services answer: no
    such run ends with the upload still PROCESSING. *)
Theorem processUpload_final_status :
  forall grm oracle enable w uploadId upload,
    findUpload (world_db w) uploadId = Some upload ->
    upload_status upload <> COMPLETED ->
    ProcessRoute.statusOf
      (world_db (snd (runToEnd oracle (processUpload grm uploadId enable) w))) uploadId
    = Some (match fst (runToEnd oracle (processUpload grm uploadId enable) w) with
            | Fulfilled _ => COMPLETED
            | Rejected _ => FAILED
            end).
Proof.
  intros grm oracle enable w i upload Hfind Hst.
  unfold processUpload. rewrite runToEnd_pbind.
  cbn [call runToEnd handle]. rewrite Hfind. cbn [option_map].
  replace (status_eqb (upload_status upload) COMPLETED) with false
    by (destruct (upload_status upload); try reflexivity; congruence).
  rewrite runToEnd_pbind. cbn [call runToEnd handle].
  set (w1 := mkWorld (updateUploadStatus (world_db w) i PROCESSING) (world_calls w)).
  assert (H1 : ProcessRoute.statusOf (world_db w1) i = Some PROCESSING).
  { now apply statusOf_updateUploadStatus with (u := upload). }
  assert (Hfail : forall e w2,
             (exists s, ProcessRoute.statusOf (world_db w2) i = Some s) ->
             let r := runToEnd oracle
                        (_ <~ call (UpdateStatus i FAILED) ;; (Throw e : Prog BatchEntry))
                        w2 in
             ProcessRoute.statusOf (world_db (snd r)) i
             = Some (match fst r with
                     | Fulfilled _ => COMPLETED
                     | Rejected _ => FAILED
                     end :> ProcessingStatus)).
  { intros e w2 [s Hs]. apply statusOf_found in Hs as [u Hu].
    cbn. now apply statusOf_updateUploadStatus with (u := u). }
  rewrite runToEnd_ptry. run_pbind w1. cbn [call runToEnd handle].
  destruct (processAncientText_outcome oracle (world_calls w1) (upload_filePath upload))
    as [e | result].
  { apply Hfail. now exists PROCESSING. }
  cbn [runToEnd].
  match goal with
  | |- context [@runToEnd ?o ?A (pbind ?p ?f) ?w0] =>
      rewrite (runToEnd_pbind o p f w0)
  end.
  cbn [call runToEnd handle world_db world_calls].
  set (w2 := mkWorld (updateUploadCompleted (world_db w1) i (scriptType result))
               (S (world_calls w1))).
  assert (H2 : ProcessRoute.statusOf (world_db w2) i = Some COMPLETED).
  { destruct (statusOf_found _ _ _ H1) as [u Hu].
    now apply statusOf_updateUploadCompleted with (u := u). }
  match goal with
  | |- context [runToEnd oracle ?rest w2] =>
      assert (Hrest : Within (@leavesUploads) (fun _ => True) rest)
  end.
  { eapply Within_pbind; [apply saveGlyphs_leavesUploads | intros glyphsProcessed _].
    eapply Within_pbind with (PA := fun _ => True).
    - destruct (enable && _); [| now apply within_ret].
      eapply Within_pbind; [apply Within_call; exact I | intros rs _].
      eapply Within_pbind; [apply Within_call; exact I | intros _ _].
      now apply within_ret.
    - intros reconstructions _. now apply within_ret. }
  match goal with
  | |- context [runToEnd oracle ?rest w2] =>
      destruct (runToEnd_preserves oracle (@leavesUploads)
                  (fun db db' => uploads db' = uploads db)
                  (fun db => eq_refl)
                  (fun db1 db2 db3 H12 H23 => eq_trans H23 H12)
                  (fun X c w0 Hc => handle_leavesUploads oracle c w0 Hc)
                  (fun _ => True) rest Hrest w2) as [Hup _];
      destruct (runToEnd oracle rest w2) as [[entry | e] w3]
  end; cbn [snd] in Hup.
  - cbn [fst snd]. now rewrite (statusOf_ext (world_db w3) (world_db w2) i Hup).
  - apply Hfail. exists COMPLETED.
    now rewrite (statusOf_ext (world_db w3) (world_db w2) i Hup).
Qed.

(** ** The batches of the parallel mode *)

Lemma js_slice_length {A} (l : list A) i n :
  (0 <= i)%Z -> (i < Z.of_nat (length l))%Z -> (1 <= n)%Z ->
  (1 <= Z.of_nat (length (js_slice i (i + n) l)) <= n)%Z.
Proof.
  intros Hi Hlen Hn. unfold js_slice.
  destruct (Z.ltb_spec i 0); [lia |]. destruct (Z.ltb_spec (i + n) 0); [lia |].
  rewrite length_firstn, length_skipn. lia.
Qed.

Lemma makeBatches_sizes maxConcurrent uploads turns : forall i batches,
  (1 <= maxConcurrent)%Z -> (0 <= i)%Z ->
  makeBatches turns i maxConcurrent uploads = Some batches ->
  Forall (fun batch => (1 <= Z.of_nat (length batch) <= maxConcurrent)%Z) batches.
Proof.
  induction turns as [| turns IH]; intros i batches Hn Hi; cbn [makeBatches];
    destruct (Z.ltb_spec i (Z.of_nat (length uploads))) as [Hlt | Hge];
    try discriminate; try (intros [= <-]; constructor).
  destruct (makeBatches turns (i + maxConcurrent) maxConcurrent uploads) as [rest |] eqn:E;
    [| discriminate].
  intros [= <-]. constructor.
  - rewrite length_map. now apply js_slice_length.
  - apply (IH (i + maxConcurrent)%Z rest); [exact Hn | lia | exact E].
Qed.

(** X18. With a positive [maxConcurrent], the loop that cuts the uploads
    into batches ends within as many turns as there are uploads, and the
    batches are the uploads in order, cut into runs of at least one and at
    most [maxConcurrent] uploads: no more than [maxConcurrent] runs are
    ever in flight together. *)
Theorem makeBatches_chunks :
  forall maxConcurrent uploads turns,
    (1 <= maxConcurrent)%Z ->
    (length uploads <= turns)%nat ->
    exists batches,
      makeBatches turns 0 maxConcurrent uploads = Some batches
      /\ concat batches = map upload_id uploads
      /\ Forall (fun batch => (1 <= Z.of_nat (length batch) <= maxConcurrent)%Z) batches.
Proof.
  intros maxConcurrent uploads turns Hn Hturns.
  destruct (makeBatches_total maxConcurrent uploads turns 0%Z Hn ltac:(lia) ltac:(lia))
    as (batches & E & Hc).
  exists batches. split; [exact E |]. split; [exact Hc |].
  now apply (makeBatches_sizes maxConcurrent uploads turns 0%Z batches Hn ltac:(lia)).
Qed.

(** ** Reading back what the process route stored *)

Lemma find_glyph_by_id db glyph :
  glyphIdsDistinct db -> In glyph (glyphs db) ->
  find (fun g => Nat.eqb (glyph_id g) (glyph_id glyph)) (glyphs db) = Some glyph.
Proof.
  intros [Hnd _] Hin.
  destruct (find (fun g => Nat.eqb (glyph_id g) (glyph_id glyph)) (glyphs db))
    as [g |] eqn:Hfind.
  - apply find_some in Hfind as [Hg Hid]. apply Nat.eqb_eq in Hid.
    now rewrite (NoDup_map_injective glyph_id (glyphs db) g glyph Hnd Hg Hin Hid).
  - pose proof (find_none _ _ Hfind glyph Hin) as H. cbn in H.
    now rewrite Nat.eqb_refl in H.
Qed.

Lemma joined_rows_show db rows gs :
  glyphIdsDistinct db ->
  Forall2 (persistedAs db) rows gs ->
  exists shown,
    flat_map (fun m => match find (fun g => Nat.eqb (glyph_id g) (match_glyphId m))
                                  (glyphs db) with
                       | Some g => [(m, g)]
                       | None => []
                       end) rows = shown
    /\ Forall2 shows shown gs.
Proof.
  intros Hwf. induction 1 as [| row g rows gs Hp HF (shown & Hs & IH)].
  - exists []. split; [reflexivity | constructor].
  - destruct Hp as (Hc & Hpos & Hbox & glyph & Hin & Hid & Hsym).
    exists ((row, glyph) :: shown). cbn [flat_map]. rewrite <- Hid.
    rewrite (find_glyph_by_id db glyph Hwf Hin), Hs. split; [reflexivity |].
    constructor; [| exact IH]. now repeat split.
Qed.

Lemma process_POST_completed env uploadId upload db log reply db' log' :
  findUpload db uploadId = Some upload ->
  ProcessRoute.POST env (Some uploadId) db log = ((reply, db'), log') ->
  ProcessRoute.reply_status reply = 200%Z ->
  ProcessRoute.statusOf db' uploadId = Some COMPLETED.
Proof.
  intros Hfind. unfold ProcessRoute.POST. rewrite Hfind.
  set (db0 := deletePreviousResults (updateUploadStatus db uploadId PROCESSING) uploadId).
  assert (Hfind0 : exists u0, findUpload db0 uploadId = Some u0).
  { apply (statusOf_found db0 uploadId PROCESSING).
    rewrite (statusOf_ext db0 (updateUploadStatus db uploadId PROCESSING) uploadId eq_refl).
    now apply statusOf_updateUploadStatus with (u := upload). }
  destruct Hfind0 as [u0 Hfind0].
  destruct (processAncientText env (upload_filePath upload) db0 log) as [[e | result] l1].
  { intros [= <- _ _]. discriminate. }
  set (name := or_str (scriptType result) (js "Traditional Chinese")).
  set (withScript :=
         match find (fun s => str_eqb (script_name s) name) (ancientScripts db0) with
         | Some s => (s, db0)
         | None => createScript db0 name
         end).
  assert (Hscript : uploads (snd withScript) = uploads db0).
  { unfold withScript. now destruct (find _ (ancientScripts db0)). }
  destruct withScript as [scriptRecord db1]. cbn [snd] in Hscript.
  set (db2 := fold_left (ProcessRoute.persistGlyph uploadId scriptRecord)
                (pr_glyphs result) db1).
  assert (Hup2 : uploads db2 = uploads db0).
  { unfold db2. now rewrite persistGlyphs_uploads. }
  destruct (generateTranslation env (extractedText result) (pr_glyphs result) l1)
    as [[e | tr] l2].
  { intros [= <- _ _]. discriminate. }
  destruct (translation tr) as [translated | inheritedName].
  2: { intros [= <- _ _]. discriminate. }
  intros [= _ <- _] _.
  apply statusOf_updateUploadStatus with (u := u0).
  now rewrite (findUpload_ext
                 (createTranslation db2 uploadId (extractedText result) translated
                    (tr_confidence tr)) db0 uploadId Hup2).
Qed.

(** X19. What a successful POST of the process route stores is what a GET
    for the upload then shows, in a store whose glyph identifiers are
    distinct: the upload as COMPLETED, one row per glyph of the result in
    order, each joined to a glyph of the same symbol and with the
    confidence, position and box of its match, and the one translation of
    this run. *)
Theorem process_GET_after_POST :
  forall env uploadId upload db log reply db' log',
    glyphIdsDistinct db ->
    findUpload db uploadId = Some upload ->
    ProcessRoute.POST env (Some uploadId) db log = ((reply, db'), log') ->
    ProcessRoute.reply_status reply = 200%Z ->
    exists view result l1 tr row,
      GET (Some uploadId) db' = (ProcessRoute.mkReply 200, Some view)
      /\ upload_status (view_upload view) = COMPLETED
      /\ processAncientText env (upload_filePath upload) (clearedFor db uploadId) log
         = (inr result, l1)
      /\ generateTranslation env (extractedText result) (pr_glyphs result) l1 = (inr tr, log')
      /\ Forall2 shows (view_glyphs view) (pr_glyphs result)
      /\ view_translations view = [row]
      /\ recordsTranslation row (extractedText result) tr.
Proof.
  intros env i upload db log reply db' log' Hwf Hfind HPOST H200.
  destruct (process_POST_stores env i upload db log reply db' log' Hfind HPOST H200)
    as (result & l1 & tr & row & Hp & Hg & Hrows & Htr & Hrec).
  destruct (process_POST_keeps_real env (Some i) db log Hwf) as [Hwf' _].
  rewrite HPOST in Hwf'. cbn [fst snd] in Hwf'.
  pose proof (process_POST_completed env i upload db log reply db' log' Hfind HPOST H200)
    as Hcompleted.
  unfold ProcessRoute.statusOf in Hcompleted.
  destruct (findUpload db' i) as [u |] eqn:Hfind'; [| discriminate].
  cbn [option_map] in Hcompleted. injection Hcompleted as Hcompleted.
  destruct (joined_rows_show db' (matchesOf db' i) (pr_glyphs result) Hwf' Hrows)
    as (shown & Hshown & Hshows).
  exists (mkView u (uploadGlyphsOf db' i) (translationsOf db' i)), result, l1, tr, row.
  unfold GET. rewrite Hfind'. cbn [view_upload view_glyphs view_translations].
  repeat split; try assumption; try apply Hrec.
  unfold uploadGlyphsOf. fold (matchesOf db' i). now rewrite Hshown.
Qed.

(** ** The response formats of Hugging Face *)

Lemma returnsNonBlank_trimmed v text :
  returnsNonBlank v = Some (inr text) -> trim text = text.
Proof.
  unfold returnsNonBlank. destruct (truthyAny v); [| discriminate].
  destruct (String_ v) as [e | s]; [discriminate |].
  destruct (truthy (trim s)); [| discriminate].
  intros [= <-]. apply trim_idempotent.
Qed.

Lemma returnsNonBlank_throws v message :
  returnsNonBlank v = Some (inl message) -> convertible v = false.
Proof.
  unfold returnsNonBlank, convertible. destruct (truthyAny v); [| discriminate].
  destruct (String_ v) as [e | s]; [reflexivity |].
  destruct (truthy (trim s)); discriminate.
Qed.

Lemma returnsNonBlank_passes v : returnsNonBlank v = None -> holdsText v = false.
Proof.
  unfold returnsNonBlank, holdsText. destruct (truthyAny v); [| reflexivity].
  destruct (String_ v) as [e | s]; [discriminate |].
  now destruct (truthy (trim s)).
Qed.

Lemma returnsNonBlank_returns v text :
  returnsNonBlank v = Some (inr text) -> holdsText v = true.
Proof.
  unfold returnsNonBlank, holdsText. destruct (truthyAny v); [| discriminate].
  destruct (String_ v) as [e | s]; [discriminate |].
  now destruct (truthy (trim s)).
Qed.

Lemma returnsNonBlank_without_text v :
  holdsText v = false -> convertible v = true -> returnsNonBlank v = None.
Proof.
  unfold returnsNonBlank, convertible, holdsText. destruct (truthyAny v); [| reflexivity].
  destruct (String_ v) as [e | s]; [discriminate |]. cbn [andb]. now intros ->.
Qed.

Lemma returnsTrimmed_outcome v outcome :
  returnsTrimmed v = Some outcome ->
  match outcome with
  | inr text => trim text = text
  | inl message => convertible v = false
  end.
Proof.
  unfold returnsTrimmed, convertible. destruct (truthyAny v); [| discriminate].
  destruct (String_ v) as [e | s]; intros [= <-]; [reflexivity | apply trim_idempotent].
Qed.

(** What the statements on an object lead to. *)
Lemma object_statements_outcome ownToString generated_text text caption error :
  match extractTextFromHFResponse (AObject ownToString generated_text text caption error) with
  | inr result => trim result = result
  | inl message =>
      existsb (fun v => negb (convertible v)) [generated_text; text; caption; error] = true
      \/ (truthyAny error = true
          /\ yieldsSomeText (AObject ownToString generated_text text caption error) = false
          /\ exists s, String_ error = inr s
                       /\ message = js "Hugging Face error: " ++ s)
  end.
Proof.
  unfold extractTextFromHFResponse, yieldsSomeText. cbn [truthyAny isObject andb property].
  destruct (returnsNonBlank generated_text) as [[m | r] |] eqn:Hg; cbn [orElse].
  { left. apply returnsNonBlank_throws in Hg. cbn. now rewrite Hg. }
  { exact (returnsNonBlank_trimmed _ _ Hg). }
  destruct (returnsNonBlank text) as [[m | r] |] eqn:Ht; cbn [orElse].
  { left. apply returnsNonBlank_throws in Ht. cbn. rewrite Ht. cbn. apply orb_true_r. }
  { exact (returnsNonBlank_trimmed _ _ Ht). }
  destruct (returnsNonBlank caption) as [[m | r] |] eqn:Hc; cbn [orElse].
  { left. apply returnsNonBlank_throws in Hc. cbn. rewrite Hc. cbn.
    now rewrite !orb_true_r. }
  { exact (returnsNonBlank_trimmed _ _ Hc). }
  unfold throwsError. destruct (truthyAny error) eqn:He; [| reflexivity].
  destruct (String_ error) as [e | s] eqn:Hs.
  - left. cbn. unfold convertible at 4. rewrite Hs. cbn. now rewrite !orb_true_r.
  - right. split; [reflexivity |].
    rewrite (returnsNonBlank_passes _ Hg), (returnsNonBlank_passes _ Ht),
      (returnsNonBlank_passes _ Hc).
    split; [reflexivity |]. now exists s.
Qed.

(** X20. [extractTextFromHFResponse] never returns a text with white space
    at either end, whatever the format of the response.  When it throws,
    either a value it converts to a string cannot be converted, or the
    response is an object, not an array, with a truthy [error] and no
    text in [generated_text], [text] or [caption], and the message names
    the error; and on such an error report, the values being convertible,
    it does throw that message. *)
Theorem extractTextFromHFResponse_trimmed_or_error :
  forall data,
    match extractTextFromHFResponse data with
    | inr text => trim text = text
    | inl message =>
        existsb (fun v => negb (convertible v)) (convertedValues data) = true
        \/ exists s, reportsError data s /\ message = js "Hugging Face error: " ++ s
    end
    /\ (forall s,
          reportsError data s ->
          forallb convertible (convertedValues data) = true ->
          extractTextFromHFResponse data = inl (js "Hugging Face error: " ++ s)).
Proof.
  intros data. split.
  - destruct data as [s | | | isTruthy asString
                      | ownToString generated_text text caption error | items].
    + apply trim_idempotent.
    + reflexivity.
    + reflexivity.
    + now destruct isTruthy.
    + pose proof (object_statements_outcome ownToString generated_text text caption error)
        as H.
      destruct (extractTextFromHFResponse _) as [message | result]; [| exact H].
      destruct H as [H | (He & Hy & s & Hs & Hm)]; [now left | right].
      exists s. split; [| exact Hm].
      now exists ownToString, generated_text, text, caption, error.
    + unfold extractTextFromHFResponse. cbn [truthyAny isObject andb property].
      cbn [returnsNonBlank throwsError truthyAny orElse].
      destruct items as [| firstItem items]; [reflexivity |].
      cbn [convertedValues existsb]. unfold orElse.
      destruct (returnsTrimmed (property p_generated_text firstItem)) as [outcome |] eqn:Hg.
      { apply returnsTrimmed_outcome in Hg. destruct outcome; [| exact Hg].
        left. now rewrite Hg. }
      destruct (returnsTrimmed (property p_text firstItem)) as [outcome |] eqn:Ht.
      { apply returnsTrimmed_outcome in Ht. destruct outcome; [| exact Ht].
        left. rewrite Ht. cbn. now rewrite orb_true_r. }
      destruct firstItem; try reflexivity. apply trim_idempotent.
  - intros s (ownToString & generated_text & text & caption & error & -> & He & Hy & Hs).
    cbn [convertedValues forallb]. intros Hall.
    apply andb_prop in Hall as [Cg Hall]. apply andb_prop in Hall as [Ct Hall].
    apply andb_prop in Hall as [Cc _].
    unfold yieldsSomeText in Hy. cbn [property] in Hy.
    apply orb_false_elim in Hy as [Hy Hc]. apply orb_false_elim in Hy as [Hg Ht].
    unfold extractTextFromHFResponse. cbn [truthyAny isObject andb property].
    rewrite (returnsNonBlank_without_text _ Hg Cg), (returnsNonBlank_without_text _ Ht Ct),
      (returnsNonBlank_without_text _ Hc Cc).
    cbn [orElse]. unfold throwsError. now rewrite He, Hs.
Qed.

(** The deprecated Hugging Face method and the placeholder for
    alternative services give no text, so the loop of
    [extractTextFromImage] passes them over: put ahead of any methods,
    they change neither the result nor the requests issued. *)
Remark deprecated_methods_are_passed_over :
  forall env imagePath methods log,
    tryMethods env imagePath
      (mkMethod (js "Hugging Face OCR") extractTextWithHuggingFace
       :: mkMethod (js "Alternative") extractTextWithAlternativeServices
       :: methods) log
    = tryMethods env imagePath methods log.
Proof. reflexivity. Qed.

(** ** Without an API key *)

Lemma processAncientText_without_key env imagePath db log :
  noApiKey env = true ->
  processAncientText env imagePath db log
  = if devFallbackEnabled env
    then (inr (mkProcessing text_dao_fa_zi_ran [] (Some (js "Traditional Chinese")) 0.50
                 (js "fallback-dev")), log)
    else (inl extractionFailureMessage, log).
Proof.
  intros Hkey. unfold processAncientText, bind.
  rewrite extractTextFromImage_without_key
    by (unfold noApiKey in Hkey; now apply negb_true_iff in Hkey).
  cbn [allMethodsFailed ocr_text truthy negb].
  now destruct (devFallbackEnabled env).
Qed.

(** X21. Without an API key the process route reads no image and asks no
    service.  A POST for a stored upload deletes the results of an
    earlier run and then, the development fallback being off, replies 500
    and marks the upload FAILED; with the fallback on it replies 200,
    marks the upload COMPLETED and stores no match row and one
    translation row: the sample text with its phrase-table translation at
    confidence 0.90. *)
Theorem process_POST_without_key :
  forall env uploadId upload db log,
    noApiKey env = true ->
    findUpload db uploadId = Some upload ->
    exists db',
      ProcessRoute.POST env (Some uploadId) db log
      = ((ProcessRoute.mkReply (if devFallbackEnabled env then 200 else 500), db'), log)
      /\ ProcessRoute.statusOf db' uploadId
         = Some (if devFallbackEnabled env then COMPLETED else FAILED)
      /\ matchesOf db' uploadId = []
      /\ map (fun row => (translation_originalText row, translation_translatedText row,
                          translation_confidence row))
           (translationsOf db' uploadId)
         = if devFallbackEnabled env
           then [(text_dao_fa_zi_ran, phrase_dao_fa_zi_ran, 0.90)]
           else [].
Proof.
  intros env i upload db log Hkey Hfind.
  assert (Hfind0 : exists u0, findUpload (clearedFor db i) i = Some u0).
  { apply (statusOf_found (clearedFor db i) i PROCESSING). unfold clearedFor.
    rewrite (statusOf_ext
               (deletePreviousResults (updateUploadStatus db i PROCESSING) i)
               (updateUploadStatus db i PROCESSING) i eq_refl).
    now apply statusOf_updateUploadStatus with (u := upload). }
  destruct Hfind0 as [u0 Hfind0].
  unfold ProcessRoute.POST. rewrite Hfind. fold (clearedFor db i).
  rewrite (processAncientText_without_key env (upload_filePath upload) (clearedFor db i) log
             Hkey).
  destruct (devFallbackEnabled env).
  - cbn [scriptType pr_glyphs extractedText fold_left].
    set (name := or_str (Some (js "Traditional Chinese")) (js "Traditional Chinese")).
    set (withScript :=
           match find (fun s => str_eqb (script_name s) name)
                      (ancientScripts (clearedFor db i)) with
           | Some s => (s, clearedFor db i)
           | None => createScript (clearedFor db i) name
           end).
    assert (H1 : uploads (snd withScript) = uploads (clearedFor db i)
                 /\ glyphMatches (snd withScript) = glyphMatches (clearedFor db i)
                 /\ translations (snd withScript) = translations (clearedFor db i)).
    { unfold withScript. now destruct (find _ (ancientScripts (clearedFor db i))). }
    destruct withScript as [scriptRecord db1]. cbn [snd] in H1.
    destruct H1 as (Hu1 & Hm1 & Ht1).
    rewrite (generateTranslation_without_key env text_dao_fa_zi_ran [] log Hkey eq_refl).
    replace (staticTranslation text_dao_fa_zi_ran [])
      with (mkTranslation (VString phrase_dao_fa_zi_ran) 0.90) by reflexivity.
    cbn [translation tr_confidence].
    eexists. split; [reflexivity |]. split; [| split].
    + apply statusOf_updateUploadStatus with (u := u0).
      now rewrite (findUpload_ext
                     (createTranslation db1 i text_dao_fa_zi_ran phrase_dao_fa_zi_ran 0.90)
                     (clearedFor db i) i Hu1).
    + unfold matchesOf. cbn [glyphMatches updateUploadStatus set_uploads createTranslation].
      rewrite Hm1. apply matchesOf_cleared.
    + unfold translationsOf.
      cbn [translations updateUploadStatus set_uploads createTranslation].
      rewrite Ht1, filter_app.
      change (filter (fun t => Nat.eqb (translation_uploadId t) i)
                (translations (clearedFor db i)))
        with (translationsOf (clearedFor db i) i).
      rewrite translationsOf_cleared. cbn. rewrite Nat.eqb_refl. reflexivity.
  - eexists. split; [reflexivity |]. split; [| split].
    + now apply statusOf_updateUploadStatus with (u := u0).
    + apply matchesOf_cleared.
    + unfold translationsOf at 1.
      cbn [translations updateUploadStatus set_uploads].
      change (filter (fun t => Nat.eqb (translation_uploadId t) i)
                (translations (clearedFor db i)))
        with (translationsOf (clearedFor db i) i).
      now rewrite translationsOf_cleared.
Qed.

(** ** The confidence of a translation *)

(** X22. The confidence [generateTranslation] reports is 0 (no text),
    0.88 (the backend), 0.90 (the phrase table) or, for the template, at
    most 0.85 whatever the glyph confidences are, unless their mean is not
    a number. *)
Theorem generateTranslation_confidence_range :
  forall env extractedText glyphs log,
    exists result log',
      generateTranslation env extractedText glyphs log = (inr result, log')
      /\ (tr_confidence result = 0
          \/ tr_confidence result = 0.88
          \/ tr_confidence result = 0.90
          \/ PrimFloat.leb (tr_confidence result) 0.85 = true
          \/ PrimFloat.is_nan (tr_confidence result) = true).
Proof.
  intros env text glyphs log.
  assert (Hstatic : tr_confidence (staticTranslation text glyphs) = 0.90
                    \/ PrimFloat.leb (tr_confidence (staticTranslation text glyphs)) 0.85 = true
                    \/ PrimFloat.is_nan (tr_confidence (staticTranslation text glyphs)) = true).
  { unfold staticTranslation.
    assert (Hgeneric :
              PrimFloat.leb (tr_confidence (genericTranslation text glyphs)) 0.85 = true
              \/ PrimFloat.is_nan (tr_confidence (genericTranslation text glyphs)) = true).
    { unfold genericTranslation. cbn [tr_confidence].
      set (avg := if (0 <? length glyphs)%nat then _ else _).
      destruct (PrimFloat.is_nan avg) eqn:Hnan.
      - right. unfold Math_min. now rewrite Hnan.
      - left. now apply (Math_min_bounds avg 0.85). }
    destruct (truthy_val (lookupCommonTranslation text)); [| now right].
    destruct (lookupCommonTranslation text); [now left | now right]. }
  unfold generateTranslation.
  destruct (truthy text); cbn [negb]; [| eexists _, _; split; [reflexivity | now left]].
  destruct (truthy (or_str (GOOGLE_GEMINI_API_KEY env) [])).
  - rewrite translateLoop_outcome.
    destruct (firstDelivery _) as [[k t] |]; eexists _, _; (split; [reflexivity |]);
      [now right; left | right; right; exact Hstatic].
  - eexists _, _. split; [reflexivity |]. right. right. exact Hstatic.
Qed.

(** ** Reconstruction batches *)

(** Saving the glyphs of a result returns, creates no version and calls
    no service. *)
Lemma saveGlyphs_runs oracle uploadId st matches : forall n w,
  exists saved w',
    runToEnd oracle (saveGlyphs uploadId st matches n) w = (Fulfilled saved, w')
    /\ reconstructionVersions (world_db w') = reconstructionVersions (world_db w)
    /\ world_calls w' = world_calls w.
Proof.
  induction matches as [| g matches IH]; intros n w; cbn [saveGlyphs].
  - now exists n, w.
  - rewrite runToEnd_pbind. cbn [call runToEnd handle].
    destruct (find _ (Store.glyphs (world_db w))) as [g0 |].
    + repeat (rewrite runToEnd_pbind; cbn [call runToEnd handle]).
      match goal with
      | |- context [runToEnd oracle (saveGlyphs _ _ _ _) ?w1] =>
          destruct (IH (n + 1)%Z w1) as (saved & w2 & E2 & Hv2 & Hc2)
      end.
      exists saved, w2. split; [exact E2 |]. cbn in Hv2, Hc2. now split.
    + rewrite runToEnd_pbind. rewrite runToEnd_pbind. cbn [call runToEnd handle].
      destruct (find _ (ancientScripts (world_db w))) as [s0 |].
      * repeat (rewrite runToEnd_pbind; cbn [call runToEnd handle createGlyph]).
        match goal with
        | |- context [runToEnd oracle (saveGlyphs _ _ _ _) ?w1] =>
            destruct (IH (n + 1)%Z w1) as (saved & w2 & E2 & Hv2 & Hc2)
        end.
        exists saved, w2. split; [exact E2 |]. cbn in Hv2, Hc2. now split.
      * repeat (rewrite runToEnd_pbind;
                cbn [call runToEnd handle createGlyph createScript]).
        match goal with
        | |- context [runToEnd oracle (saveGlyphs _ _ _ _) ?w1] =>
            destruct (IH (n + 1)%Z w1) as (saved & w2 & E2 & Hv2 & Hc2)
        end.
        exists saved, w2. split; [exact E2 |]. cbn in Hv2, Hc2. now split.
Qed.

(** A reconstruction batch on the path of an upload already COMPLETED. *)
Lemma processUpload_completed_batch grm oracle w uploadId upload results :
  findUpload (world_db w) uploadId = Some upload ->
  upload_status upload = COMPLETED ->
  flaggedRows grm (uploadGlyphsOf (world_db w) uploadId) <> [] ->
  batchReconstructGlyphs_outcome oracle (world_calls w) (upload_filePath upload)
    (map submittedRow (flaggedRows grm (uploadGlyphsOf (world_db w) uploadId)))
    (upload_scriptType upload) = inr results ->
  exists entry v w',
    runToEnd oracle (processUpload grm uploadId true) w = (Fulfilled entry, w')
    /\ reconstructionVersions (world_db w') = reconstructionVersions (world_db w) ++ [v]
    /\ versionOfBatch uploadId results v
    /\ entry_reconstructions entry = Some (Z.of_nat (length results)).
Proof.
  intros Hfind Hst Hflag Hout.
  pose proof Hfind as Hid. apply find_some in Hid as [_ Hid]. apply Nat.eqb_eq in Hid.
  unfold flaggedRows, candidateOfRow, submittedRow in *. unfold processUpload.
  cbn [pbind call runToEnd handle]. rewrite Hfind. cbn [option_map pbind].
  rewrite Hst. cbn [status_eqb andb].
  set (flagged := filter _ (uploadGlyphsOf (world_db w) uploadId)) in *.
  destruct flagged as [| row rows]; [congruence |].
  cbn [length Nat.ltb Nat.leb runToEnd handle]. rewrite Hout.
  cbn [pbind runToEnd handle world_db snd].
  eexists _, _, _. split; [reflexivity |]. cbn [world_db createVersion reconstructionVersions].
  split; [reflexivity |]. split; [| reflexivity].
  repeat split; [exact Hid | apply reconstructionConfidence_mean].
Qed.

(** A reconstruction batch on the path of an upload that is processed. *)
Lemma processUpload_fresh_batch grm oracle w uploadId upload result results :
  findUpload (world_db w) uploadId = Some upload ->
  upload_status upload <> COMPLETED ->
  processAncientText_outcome oracle (world_calls w) (upload_filePath upload) = inr result ->
  flaggedMatches grm (pr_glyphs result) <> [] ->
  batchReconstructGlyphs_outcome oracle (S (world_calls w)) (upload_filePath upload)
    (map candidateOfMatch (flaggedMatches grm (pr_glyphs result)))
    (scriptType result) = inr results ->
  exists entry v w',
    runToEnd oracle (processUpload grm uploadId true) w = (Fulfilled entry, w')
    /\ reconstructionVersions (world_db w') = reconstructionVersions (world_db w) ++ [v]
    /\ versionOfBatch uploadId results v
    /\ entry_reconstructions entry = Some (Z.of_nat (length results)).
Proof.
  intros Hfind Hst Hresult Hflag Hout.
  pose proof Hfind as Hid. apply find_some in Hid as [_ Hid]. apply Nat.eqb_eq in Hid.
  unfold flaggedMatches, candidateOfMatch in *.
  unfold processUpload. rewrite runToEnd_pbind.
  cbn [call runToEnd handle]. rewrite Hfind. cbn [option_map].
  replace (status_eqb (upload_status upload) COMPLETED) with false
    by (destruct (upload_status upload); try reflexivity; congruence).
  rewrite runToEnd_pbind. cbn [call runToEnd handle].
  set (w1 := mkWorld (updateUploadStatus (world_db w) uploadId PROCESSING) (world_calls w)).
  rewrite runToEnd_ptry. run_pbind w1. cbn [call runToEnd handle].
  change (world_calls w1) with (world_calls w). rewrite Hresult. cbn [runToEnd].
  match goal with
  | |- context [@runToEnd ?o ?A (pbind ?p ?f) ?w0] =>
      rewrite (runToEnd_pbind o p f w0)
  end.
  cbn [call runToEnd handle world_db world_calls].
  set (w2 := mkWorld (updateUploadCompleted (world_db w1) uploadId (scriptType result))
               (S (world_calls w))).
  destruct (saveGlyphs_runs oracle (upload_id upload) (scriptType result) (pr_glyphs result)
              0%Z w2) as (saved & w3 & Esave & Hv3 & Hc3).
  match goal with
  | |- context [@runToEnd ?o ?A (pbind ?p ?f) w2] => rewrite (runToEnd_pbind o p f w2)
  end.
  rewrite Esave. cbn [andb].
  set (flagged := filter _ (pr_glyphs result)) in *.
  destruct flagged as [| faint others]; [congruence |].
  cbn [length Nat.ltb Nat.leb].
  match goal with
  | |- context [@runToEnd ?o ?A (pbind ?p ?f) w3] => rewrite (runToEnd_pbind o p f w3)
  end.
  match goal with
  | |- context [@runToEnd ?o ?A (pbind ?p ?f) w3] => rewrite (runToEnd_pbind o p f w3)
  end.
  cbn [call runToEnd handle].
  rewrite Hc3. cbn [w2 world_calls]. rewrite Hout. cbn [runToEnd].
  match goal with
  | |- context [@runToEnd ?o ?A (pbind ?p ?f) ?w0] =>
      rewrite (runToEnd_pbind o p f w0)
  end.
  cbn [call runToEnd handle world_db].
  eexists _, _, _. split; [reflexivity |].
  cbn [world_db createVersion reconstructionVersions].
  split; [now rewrite Hv3 |]. split; [| reflexivity].
  repeat split; [exact Hid | apply reconstructionConfidence_mean].
Qed.

(** C6. A reconstruction batch of [processUpload] leaves one more
    ReconstructionVersion, for the upload, whose members are the results
    of the batch and whose confidence is their arithmetic mean, the sum of
    their confidences divided by their count: on the path of an upload
    already COMPLETED, whose flagged stored matches are submitted, and on
    the path of an upload that is processed, where the flagged matches of
    the result are.  And every version the batch endpoint adds, in either
    mode and however the runs interleave, has the mean of its members as
    its confidence. *)
Theorem created_version_confidence_is_mean :
  forall grm oracle,
    (forall w uploadId upload results,
        findUpload (world_db w) uploadId = Some upload ->
        upload_status upload = COMPLETED ->
        flaggedRows grm (uploadGlyphsOf (world_db w) uploadId) <> [] ->
        batchReconstructGlyphs_outcome oracle (world_calls w) (upload_filePath upload)
          (map submittedRow (flaggedRows grm (uploadGlyphsOf (world_db w) uploadId)))
          (upload_scriptType upload) = inr results ->
        exists entry v w',
          runToEnd oracle (processUpload grm uploadId true) w = (Fulfilled entry, w')
          /\ reconstructionVersions (world_db w') = reconstructionVersions (world_db w) ++ [v]
          /\ versionOfBatch uploadId results v
          /\ entry_reconstructions entry = Some (Z.of_nat (length results)))
    /\ (forall w uploadId upload result results,
          findUpload (world_db w) uploadId = Some upload ->
          upload_status upload <> COMPLETED ->
          processAncientText_outcome oracle (world_calls w) (upload_filePath upload)
          = inr result ->
          flaggedMatches grm (pr_glyphs result) <> [] ->
          batchReconstructGlyphs_outcome oracle (S (world_calls w)) (upload_filePath upload)
            (map candidateOfMatch (flaggedMatches grm (pr_glyphs result)))
            (scriptType result) = inr results ->
          exists entry v w',
            runToEnd oracle (processUpload grm uploadId true) w = (Fulfilled entry, w')
            /\ reconstructionVersions (world_db w')
               = reconstructionVersions (world_db w) ++ [v]
            /\ versionOfBatch uploadId results v
            /\ entry_reconstructions entry = Some (Z.of_nat (length results)))
    /\ (forall schedules turns req w reply w',
          POST grm oracle schedules turns req w = Some (reply, w') ->
          exists created,
            reconstructionVersions (world_db w')
            = reconstructionVersions (world_db w) ++ created
            /\ Forall (fun v =>
                         version_confidence v
                         = arithmetic_mean
                             (map reconstruction_confidence (version_reconstructedGlyphs v)))
                      created).
Proof.
  intros grm oracle. split; [| split].
  - intros w uploadId upload results. apply processUpload_completed_batch.
  - intros w uploadId upload result results. apply processUpload_fresh_batch.
  - intros schedules turns req w reply w'. unfold POST.
    destruct (session_userId req) as [userId |];
      [| intros [= _ <-]; apply (addsMeanVersions_refl w)].
    destruct (uploadIds req) as [[| i ids] |];
      try (intros [= _ <-]; apply (addsMeanVersions_refl w)).
    destruct (length (ownedUploads (world_db w) (i :: ids) userId) =? 0)%nat;
      [intros [= _ <-]; apply (addsMeanVersions_refl w) |].
    destruct (parallel req).
    + destruct (makeBatches turns 0 (maxConcurrent req) _) as [batches |]; [| discriminate].
      intros [= _ <-].
      exact (proj2 (runBatches_sound grm oracle (enableReconstruction req) batches schedules
                      (mkProgress [] [] w) [] reported_nil)).
    + intros [= _ <-].
      exact (proj2 (runSequential_sound grm oracle (enableReconstruction req) _
                      (mkProgress [] [] w) [] reported_nil)).
Qed.

(* ================================================================= *)
(** * The further properties at concrete inputs *)

Import FurtherExamples.

Close Scope float_scope.

Lemma extractTextFromImage_blank_text_ends_the_search_witness :
  extractTextFromImage blankReader (js "uploads/1.jpg") []
  = (inr allMethodsFailed, firstn 1 (ocrRequests (js "key") (js "aW1hZ2U="))).
Proof.
  apply (extractTextFromImage_blank_text_ends_the_search blankReader (js "uploads/1.jpg") []
           (js "key") (js "aW1hZ2U=") 0%nat [32%Z; 10%Z]); reflexivity.
Defined.

Lemma generateTranslation_backend_first_witness :
  generateTranslation translating text_dao_fa_zi_ran [] []
  = (inr (mkTranslation (VString (js "Translation: The Way follows nature")) 0.88%float),
     firstn 1 (translateRequests (js "key") text_dao_fa_zi_ran)).
Proof.
  exact (eq_trans
           (generateTranslation_backend_first translating (js "key") text_dao_fa_zi_ran [] []
              eq_refl eq_refl eq_refl)
           eq_refl).
Defined.

Lemma processAncientText_error_message_witness :
  fst (processAncientText quotaExceeded (js "uploads/1.jpg") emptyStore [])
  = inl extractionFailureMessage.
Proof.
  destruct (processAncientText quotaExceeded (js "uploads/1.jpg") emptyStore [])
    as [[e | result] log'] eqn:E.
  - cbn [fst]. f_equal.
    exact (processAncientText_error_message quotaExceeded (js "uploads/1.jpg") emptyStore []
             e log' E).
  - vm_compute in E. discriminate.
Defined.

Lemma processAncientText_result_kinds_witness :
  exists result log',
    processAncientText online (js "uploads/1.jpg") store [] = (inr result, log')
    /\ pr_method result = js "gemini"
    /\ pr_confidence result = 0.90%float.
Proof.
  destruct (processAncientText online (js "uploads/1.jpg") store [])
    as [[e | result] log'] eqn:E; [vm_compute in E; discriminate |].
  exists result, log'. split; [reflexivity |].
  destruct (processAncientText_result_kinds online (js "uploads/1.jpg") store [] result log' E)
    as [[Hdev _] | (Hm & _ & _ & _ & _)]; [vm_compute in Hdev; discriminate |].
  split; [exact Hm |].
  vm_compute in E. injection E as <- _. reflexivity.
Defined.

Lemma process_POST_keeps_other_uploads_witness :
  holdingsOf (snd (fst processedAgain)) 2 = holdingsOf processedBefore 2.
Proof.
  apply (process_POST_keeps_other_uploads translating (Some 1%nat) processedBefore [] 2%nat).
  discriminate.
Defined.

Lemma process_POST_replaces_results_witness :
  exists result l1 tr row,
    processAncientText translating (js "uploads/1.jpg") (clearedFor processedBefore 1) []
    = (inr result, l1)
    /\ generateTranslation translating (extractedText result) (pr_glyphs result) l1
       = (inr tr, snd processedAgain)
    /\ Forall2 (persistedAs (snd (fst processedAgain)))
         (matchesOf (snd (fst processedAgain)) 1) (pr_glyphs result)
    /\ translationsOf (snd (fst processedAgain)) 1 = [row]
    /\ recordsTranslation row (extractedText result) tr.
Proof.
  apply (process_POST_replaces_results translating 1%nat firstUpload processedBefore []
           (fst (fst processedAgain)) (snd (fst processedAgain)) (snd processedAgain)).
  - reflexivity.
  - unfold processedAgain. now destruct (ProcessRoute.POST _ _ _ _) as [[reply db'] log'].
  - vm_compute. reflexivity.
Defined.

Lemma process_POST_failure_discards_results_witness :
  exists db',
    processedOffline = ((ProcessRoute.mkReply 500%Z, db'), [])
    /\ ProcessRoute.statusOf db' 1 = Some FAILED
    /\ matchesOf db' 1 = []
    /\ translationsOf db' 1 = []
    /\ glyphs db' = glyphs processedBefore.
Proof.
  apply (process_POST_failure_discards_results offline 1%nat firstUpload processedBefore []
           extractionFailureMessage []); reflexivity.
Defined.

Lemma processedBefore_glyphIdsDistinct : glyphIdsDistinct processedBefore.
Proof.
  split.
  - cbn. repeat constructor; cbn; intuition discriminate.
  - cbn. repeat constructor; cbn; lia.
Defined.

Lemma process_POST_keeps_real_descriptions_witness :
  In (mkGlyph 4 3 [36947%Z] (Some [36947%Z]) (Some (js "way, path")) 0.85%float)
     (glyphs (snd (fst processedAgain)))
  /\ glyphIdsDistinct (snd (fst processedAgain)).
Proof.
  apply (process_POST_keeps_real_descriptions translating (Some 1%nat) processedBefore []).
  - exact processedBefore_glyphIdsDistinct.
  - now left.
  - reflexivity.
Defined.

Lemma process_GET_after_POST_witness :
  exists view result l1 tr row,
    GET (Some 1%nat) (snd (fst processedAgain)) = (ProcessRoute.mkReply 200%Z, Some view)
    /\ upload_status (view_upload view) = COMPLETED
    /\ processAncientText translating (js "uploads/1.jpg") (clearedFor processedBefore 1) []
       = (inr result, l1)
    /\ generateTranslation translating (extractedText result) (pr_glyphs result) l1
       = (inr tr, snd processedAgain)
    /\ Forall2 shows (view_glyphs view) (pr_glyphs result)
    /\ view_translations view = [row]
    /\ recordsTranslation row (extractedText result) tr.
Proof.
  apply (process_GET_after_POST translating 1%nat firstUpload processedBefore []
           (fst (fst processedAgain)) (snd (fst processedAgain)) (snd processedAgain)).
  - exact processedBefore_glyphIdsDistinct.
  - reflexivity.
  - unfold processedAgain. now destruct (ProcessRoute.POST _ _ _ _) as [[reply db'] log'].
  - vm_compute. reflexivity.
Defined.

Lemma sixRequested_processes_only_owned : ~ processedBy (world_db sharedStore) sixRequested 6.
Proof.
  intros (userId & ids & upload & Hu & Hids & Hin & Hid).
  injection Hu as <-. injection Hids as <-.
  vm_compute in Hin.
  repeat (destruct Hin as [<- | Hin]; [discriminate |]). contradiction.
Defined.

Lemma batch_POST_keeps_other_uploads_witness :
  POST policy services turnsTaken 6%nat sixRequested sharedStore = Some sixRequestedOutcome
  /\ holdingsOf (world_db (snd sixRequestedOutcome)) 6 = holdingsOf (world_db sharedStore) 6.
Proof.
  assert (E : POST policy services turnsTaken 6%nat sixRequested sharedStore
              = Some (fst sixRequestedOutcome, snd sixRequestedOutcome)).
  { vm_compute. reflexivity. }
  split; [now rewrite E; destruct sixRequestedOutcome |].
  exact (batch_POST_keeps_other_uploads policy services turnsTaken 6%nat sixRequested
           sharedStore (fst sixRequestedOutcome) (snd sixRequestedOutcome) 6%nat E
           sixRequested_processes_only_owned).
Defined.

Lemma batch_POST_only_appends_witness :
  onlyAppends (world_db fiveUploads) (world_db (snd fiveRunsOutcome)).
Proof.
  apply (batch_POST_only_appends policy services turnsTaken 5%nat fiveRuns fiveUploads
           (fst fiveRunsOutcome) (snd fiveRunsOutcome)).
  vm_compute. reflexivity.
Defined.

Lemma processUpload_final_status_witness :
  ProcessRoute.statusOf
    (world_db (snd (runToEnd services (processUpload policy 3 true) fiveUploads))) 3
  = Some FAILED
  /\ ProcessRoute.statusOf
       (world_db (snd (runToEnd services (processUpload policy 4 true) fiveUploads))) 4
     = Some COMPLETED.
Proof.
  split.
  - exact (eq_trans
             (processUpload_final_status policy services true fiveUploads 3%nat
                (pendingUpload 3 (js "uploads/3.jpg")) eq_refl ltac:(discriminate))
             eq_refl).
  - exact (eq_trans
             (processUpload_final_status policy services true fiveUploads 4%nat
                (pendingUpload 4 (js "uploads/4.jpg")) eq_refl ltac:(discriminate))
             eq_refl).
Defined.

Lemma makeBatches_chunks_witness :
  exists batches,
    makeBatches 5 0%Z 2%Z (uploads (world_db fiveUploads)) = Some batches
    /\ concat batches = map upload_id (uploads (world_db fiveUploads))
    /\ Forall (fun batch => (1 <= Z.of_nat (length batch) <= 2)%Z) batches.
Proof.
  apply (makeBatches_chunks 2%Z (uploads (world_db fiveUploads)) 5%nat); [lia | cbn; lia].
Defined.

Lemma process_POST_without_key_witness :
  exists db',
    ProcessRoute.POST offlineDevelopment (Some 1) processedBefore []
    = ((ProcessRoute.mkReply 200%Z, db'), [])
    /\ ProcessRoute.statusOf db' 1 = Some COMPLETED
    /\ matchesOf db' 1 = []
    /\ map (fun row => (translation_originalText row, translation_translatedText row,
                        translation_confidence row))
         (translationsOf db' 1)
       = [(text_dao_fa_zi_ran, phrase_dao_fa_zi_ran, 0.90%float)].
Proof.
  exact (process_POST_without_key offlineDevelopment 1 firstUpload processedBefore []
           eq_refl eq_refl).
Defined.

(** ** Reconstruction batches *)

Lemma created_version_confidence_is_mean_witness :
  (exists entry v w',
      runToEnd restoringTwo (processUpload policy 1 true) faintStore = (Fulfilled entry, w')
      /\ reconstructionVersions (world_db w') = [v]
      /\ length (version_reconstructedGlyphs v) = 2
      /\ version_confidence v = 0.625%float)
  /\ (exists entry v w',
        runToEnd restoringTwo (processUpload policy 2 true) fiveUploads = (Fulfilled entry, w')
        /\ reconstructionVersions (world_db w') = [v]
        /\ map reconstruction_confidence (version_reconstructedGlyphs v)
           = [0.5%float; 0.75%float]
        /\ version_confidence v = 0.625%float)
  /\ exists created,
       reconstructionVersions (world_db (snd fiveRunsOutcome))
       = reconstructionVersions (world_db fiveUploads) ++ created
       /\ Forall (fun v =>
                    version_confidence v
                    = arithmetic_mean
                        (map reconstruction_confidence (version_reconstructedGlyphs v)))
                 created.
Proof.
  destruct (created_version_confidence_is_mean policy restoringTwo) as (Hstored & Hfresh & _).
  destruct (created_version_confidence_is_mean policy services) as (_ & _ & Hall).
  split; [| split].
  - destruct (Hstored faintStore 1 (mkUpload 1 9 (js "uploads/1.jpg") COMPLETED None)
                [mkReconstruction [36947%Z] 0.5%float (js "restored");
                 mkReconstruction [27861%Z] 0.75%float (js "restored")]
                eq_refl eq_refl ltac:(vm_compute; discriminate) eq_refl)
      as (entry & v & w' & E & Hv & (_ & Hmembers & Hmean & _) & _).
    exists entry, v, w'. split; [exact E |]. split; [exact Hv |].
    split; [now rewrite Hmembers | now rewrite Hmean].
  - destruct (Hfresh fiveUploads 2 (pendingUpload 2 (js "uploads/2.jpg"))
                (mkProcessing [36947%Z; 27861%Z]
                   [mkGlyphMatch [36947%Z] 0.60%float 0%Z (Some (placeBox 0%Z))
                      (Some sentinelMeaning);
                    mkGlyphMatch [27861%Z] 0.65%float 1%Z (Some (placeBox 1%Z))
                      (Some sentinelMeaning)]
                   (Some (js "Traditional Chinese")) 0.70%float (js "gemini"))
                [mkReconstruction [36947%Z] 0.5%float (js "restored");
                 mkReconstruction [27861%Z] 0.75%float (js "restored")]
                eq_refl ltac:(discriminate) eq_refl ltac:(vm_compute; discriminate) eq_refl)
      as (entry & v & w' & E & Hv & (_ & Hmembers & Hmean & _) & _).
    exists entry, v, w'. split; [exact E |]. split; [exact Hv |].
    split; [now rewrite Hmembers | now rewrite Hmean].
  - apply (Hall turnsTaken 5 fiveRuns fiveUploads (fst fiveRunsOutcome) (snd fiveRunsOutcome)).
    vm_compute. reflexivity.
Defined.
